(** * Real-time animation core of the Contact_page scene

    A shallow embedding of the hooks and components that drive the scene:
    - [FrameRate]: [useFrameRate] of src/utils/useFrameRate.jsx,
    - [Particles]: [useOptimizedParticles] of src/utils/useOptimizedParticles.jsx,
    - [Scene]: [MouseCameraController] and [Frames].

    JavaScript numbers are idealised: the scheduler and the camera
    arithmetic only add, subtract, multiply, divide and compare, and are
    embedded over the rationals [Q], so every definition computes; the
    particle update needs square roots and trigonometry and is embedded
    over the reals [R].  [FrameRate], [Particles] and [Scene] compute
    without rounding.  Where a property depends on it, the rounding is
    part of the model: [Float32] is the particle update with every
    store into a [Float32Array] rounded, [Float64] is the scheduler with
    its additions and its division rounded to doubles. *)

From Stdlib Require Import QArith Qabs Qreals Reals List Bool String.
From Stdlib Require Import Lia Lqa Lra.
From Stdlib Require Import Znat Ascii Qpower Qround DecimalString.
Import ListNotations.

(* ================================================================== *)
(** ** useFrameRate: the rate-limited scheduler                        *)
(* ================================================================== *)

Module FrameRate.

Local Open Scope Q_scope.

(** A rate as JavaScript can hand it to the hook: a finite number other
    than negative zero, idealised as a rational; negative zero; an
    infinity; or [NaN]. *)
Inductive number : Type :=
| Rational (q : Q)
| NegativeZero
| PositiveInfinity
| NegativeInfinity
| NaN.

Coercion Rational : Q >-> number.

(** The value of [1 / fps]; a zero of either sign is [Finite 0]. *)
Inductive interval : Type :=
| Finite (q : Q)
| Infinity
| MinusInfinity
| NotANumber.

(** [1 / 0] is [Infinity] and [1 / -0] is [-Infinity]; the inverse of an
    infinity is a zero; [1 / NaN] is [NaN]. *)
Definition targetInterval (fps : number) : interval :=
  match fps with
  | Rational q => if Qeq_bool q 0 then Infinity else Finite (1 / q)
  | NegativeZero => MinusInfinity
  | PositiveInfinity => Finite 0
  | NegativeInfinity => Finite 0
  | NaN => NotANumber
  end.

(** [frameRef.current >= targetInterval] for a finite left-hand side;
    every comparison with [NaN] is false. *)
Definition reached (acc : Q) (i : interval) : bool :=
  match i with
  | Finite q => Qle_bool q acc
  | Infinity => false
  | MinusInfinity => true
  | NotANumber => false
  end.

(** [fps <= 0] in JavaScript. *)
Definition nonpositive (fps : number) : Prop :=
  match fps with
  | Rational q => q <= 0
  | NegativeZero => True
  | NegativeInfinity => True
  | PositiveInfinity => False
  | NaN => False
  end.

(** The two refs of the hook. *)
Record refs : Type := mkRefs { frameRef : Q; lastTimeRef : Q }.

(** What [useFrame] hands to its subscriber: [state.clock.elapsedTime]
    and [delta]. *)
Record tick : Type := mkTick { elapsedTime : Q; delta : Q }.

Definition initial : refs := mkRefs 0 0.

Section Hook.
(** The callback acts on some world [W]; of the frame state it is handed
    it reads the clock, [state.clock.elapsedTime]; its second argument is
    the measured delta. *)
Variable W : Type.
Variable callback : Q -> Q -> W -> W.

(** The body of the [useFrame] subscriber of [useFrameRate]. *)
Definition useFrameRate (fps : number) (enabled : bool) (t : tick)
           (s : refs * W)
  : refs * W :=
  let (r, w) := s in
  if negb enabled then s
  else
    let frame := frameRef r + delta t in
    if reached frame (targetInterval fps) then
      let currentTime := elapsedTime t in
      let actualDelta := currentTime - lastTimeRef r in
      (mkRefs 0 currentTime, callback currentTime actualDelta w)
    else (mkRefs frame (lastTimeRef r), w).

(** A sequence of render ticks. *)
Definition render_ticks (fps : number) (enabled : bool) (ts : list tick)
           (s : refs * W) : refs * W :=
  fold_left (fun s t => useFrameRate fps enabled t s) ts s.
End Hook.

Arguments useFrameRate {W} callback fps enabled t s.
Arguments render_ticks {W} callback fps enabled ts s.

(** A callback that records each of its invocations. *)
Record call : Type := mkCall { call_time : Q; call_delta : Q }.

Definition record_call (currentTime actualDelta : Q) (log : list call)
  : list call :=
  log ++ [mkCall currentTime actualDelta].

(** Any callback, run on the recorded invocations. *)
Definition replay {W : Type} (callback : Q -> Q -> W -> W)
           (log : list call) (w : W) : W :=
  fold_left (fun w c => callback (call_time c) (call_delta c) w) log w.

(** The hook with default [enabled = true], run from its initial refs. *)
Definition run (fps : number) (ts : list tick) : refs * list call :=
  render_ticks record_call fps true ts (initial, []).

(** Time of the most recent invocation; the initial [lastTimeRef] when
    there was none. *)
Definition last_fire (log : list call) : Q :=
  last (map call_time log) 0.

(** The callback is invoked on each tick of [ts], in order. *)
Definition invoked_on_every_tick (fps : number) (ts : list tick) : Prop :=
  map call_time (snd (run fps ts)) = map elapsedTime ts.

End FrameRate.

(** A rational rate is a rate. *)
Import (coercions) FrameRate.

(* ================================================================== *)
(** ** useOptimizedParticles: the particle simulator                   *)
(* ================================================================== *)

Module Particles.

Local Open Scope R_scope.

(** The destructured [options] with their defaults. *)
Record options : Type := mkOptions {
  maxRadius : R;
  floatSpeed : R;
  floatAmplitude : R;
  dampening : R;
  bounds_z : R
}.

Definition default_options : options :=
  mkOptions 0.8 0.5 0.001 0.998 0.15.

(** One entry of [preCalculatedValues]. *)
Record preCalc : Type := mkPreCalc {
  pc_sin : R;
  pc_cos : R;
  speed : R;
  amplitude : R;
  phase : R
}.

Definition preCalcEntry (o : options) (i : nat) : preCalc :=
  mkPreCalc (sin (INR i * 0.1))
            (cos (INR i * 0.1))
            (floatSpeed o + INR (i mod 3) * 0.3)
            (floatAmplitude o + INR (i mod 2) * 0.0005)
            (INR i * 0.1).

(** [for (let i = 0; i < count; i++) values.push({...})]. *)
Definition preCalculatedValues (o : options) (count : nat) : list preCalc :=
  map (preCalcEntry o) (seq 0 count).

(** A [Float32Array]: reads are [a[i]], writes [a[i] = v]; a write out
    of range is dropped, as typed arrays do.  Here a write keeps the
    number as it is; [Float32] below rounds it. *)
Definition buffer : Type := list R.

Definition get (a : buffer) (i : nat) : R := nth i a 0.

Fixpoint set (a : buffer) (i : nat) (v : R) : buffer :=
  match a, i with
  | [], _ => []
  | _ :: rest, O => v :: rest
  | x :: rest, S j => x :: set rest j v
  end.

(** [new Float32Array(count * 3)]. *)
Definition new_buffer (count : nat) : buffer := repeat 0 (count * 3).

(** The two refs of the hook. *)
Record arrays : Type := mkArrays { positions : buffer; velocities : buffer }.

(** Initialisation.  [rnd k] is the value of the k-th call of
    [Math.random()], a number in [0, 1). *)
Fixpoint init_loop (n i k : nat) (rnd : nat -> R) (a : arrays) : arrays :=
  match n with
  | O => a
  | S n' =>
      let pos := positions a in
      let vel := velocities a in
      let pos := set pos i ((rnd k - 0.5) * 2) in
      let pos := set pos (i + 1) ((rnd (k + 1)%nat - 0.5) * 2) in
      let pos := set pos (i + 2) ((rnd (k + 2)%nat - 0.5) * 0.3) in
      let vel := set vel i ((rnd (k + 3)%nat - 0.5) * 0.001) in
      let vel := set vel (i + 1) ((rnd (k + 4)%nat - 0.5) * 0.001) in
      let vel := set vel (i + 2) ((rnd (k + 5)%nat - 0.5) * 0.0002) in
      init_loop n' (i + 3) (k + 6) rnd (mkArrays pos vel)
  end.

Definition initialize (count : nat) (rnd : nat -> R) : arrays :=
  init_loop count 0 0 rnd (mkArrays (new_buffer count) (new_buffer count)).

(** [Math.sign] and [Math.atan2] on real arguments. *)
Definition sign (x : R) : R :=
  if Rlt_dec 0 x then 1 else if Rlt_dec x 0 then -1 else 0.

Definition atan2 (y x : R) : R :=
  if Rlt_dec 0 x then atan (y / x)
  else if Rlt_dec x 0 then
         if Rle_dec 0 y then atan (y / x) + PI else atan (y / x) - PI
  else if Rlt_dec 0 y then PI / 2
  else if Rlt_dec y 0 then - (PI / 2)
  else 0.

(** The body of the loop of [updateParticles], one phase per comment of
    the source. *)

(** [// Update positions based on velocities] *)
Definition add_velocity (i : nat) (a : arrays) : arrays :=
  let pos := positions a in
  let vel := velocities a in
  let pos := set pos i (get pos i + get vel i) in
  let pos := set pos (i + 1) (get pos (i + 1) + get vel (i + 1)) in
  let pos := set pos (i + 2) (get pos (i + 2) + get vel (i + 2)) in
  mkArrays pos vel.

(** [// Add optimized floating motion using pre-calculated values] *)
Definition floating_motion (time : R) (pc : preCalc) (i : nat) (a : arrays)
  : arrays :=
  let pos := positions a in
  let timeOffset := time * speed pc + phase pc in
  let pos := set pos i (get pos i + sin timeOffset * amplitude pc) in
  let pos := set pos (i + 1)
                 (get pos (i + 1) + cos (timeOffset * 0.7) * amplitude pc) in
  let pos := set pos (i + 2)
                 (get pos (i + 2)
                  + sin (timeOffset * 0.5) * amplitude pc * 0.5) in
  mkArrays pos (velocities a).

(** [// Dampen velocities] *)
Definition dampen (o : options) (i : nat) (a : arrays) : arrays :=
  let vel := velocities a in
  let vel := set vel i (get vel i * dampening o) in
  let vel := set vel (i + 1) (get vel (i + 1) * dampening o) in
  let vel := set vel (i + 2) (get vel (i + 2) * dampening o) in
  mkArrays (positions a) vel.

(** [// Keep particles within circular bounds] *)
Definition keep_in_circle (o : options) (i : nat) (a : arrays) : arrays :=
  let pos := positions a in
  let vel := velocities a in
  let distance :=
    sqrt (get pos i * get pos i + get pos (i + 1) * get pos (i + 1)) in
  if Rlt_dec (maxRadius o) distance then
    let angle := atan2 (get pos (i + 1)) (get pos i) in
    let pos := set pos i (cos angle * maxRadius o * 0.9) in
    let pos := set pos (i + 1) (sin angle * maxRadius o * 0.9) in
    let vel := set vel i (get vel i * -0.3) in
    let vel := set vel (i + 1) (get vel (i + 1) * -0.3) in
    mkArrays pos vel
  else a.

(** [// Keep z position within bounds] *)
Definition keep_in_z (o : options) (i : nat) (a : arrays) : arrays :=
  let pos := positions a in
  let vel := velocities a in
  if Rlt_dec (bounds_z o) (Rabs (get pos (i + 2))) then
    let pos := set pos (i + 2) (sign (get pos (i + 2)) * bounds_z o) in
    let vel := set vel (i + 2) (get vel (i + 2) * -0.3) in
    mkArrays pos vel
  else a.

(** The entry read when [preCalculatedValues[particleIndex]] is out of
    range never occurs for [particleIndex < count]. *)
Definition no_entry : preCalc := mkPreCalc 0 0 0 0 0.

Definition update_body (o : options) (values : list preCalc) (time : R)
           (i : nat) (a : arrays) : arrays :=
  let particleIndex := (i / 3)%nat in
  let pc := nth particleIndex values no_entry in
  keep_in_z o i
    (keep_in_circle o i
       (dampen o i
          (floating_motion time pc i
             (add_velocity i a)))).

(** [for (let i = 0; i < count * 3; i += 3)]: [n] iterations remain. *)
Fixpoint update_loop (o : options) (values : list preCalc) (time : R)
         (n i : nat) (a : arrays) : arrays :=
  match n with
  | O => a
  | S n' => update_loop o values time n' (i + 3)
                        (update_body o values time i a)
  end.

(** [updateParticles(state)] with [time = state.clock.elapsedTime]. *)
Definition updateParticles (o : options) (count : nat) (time : R)
           (a : arrays) : arrays :=
  update_loop o (preCalculatedValues o count) time count 0 a.

(** Any number of advance ticks, one elapsed time per tick. *)
Definition advance (o : options) (count : nat) (times : list R)
           (a : arrays) : arrays :=
  fold_left (fun a time => updateParticles o count time a) times a.

(** [useFrameRate(updateParticles, 30)]: the render frames as the
    particles see them. *)
Definition scheduled (o : options) (count : nat)
           (ts : list FrameRate.tick) (a : arrays) : arrays :=
  snd (FrameRate.render_ticks
         (fun currentTime _ a => updateParticles o count (Q2R currentTime) a)
         30%Q true ts (FrameRate.initial, a)).

(** The quantities the boundary policy controls, for particle [p]. *)
Definition planar_distance (a : arrays) (p : nat) : R :=
  let x := get (positions a) (3 * p) in
  let y := get (positions a) (3 * p + 1) in
  sqrt (x * x + y * y).

Definition height (a : arrays) (p : nat) : R :=
  get (positions a) (3 * p + 2).

(** Particle [p] is inside the cylinder of the boundary policy. *)
Definition bounded (o : options) (a : arrays) (p : nat) : Prop :=
  planar_distance a p <= maxRadius o /\ Rabs (height a p) <= bounds_z o.

(** Both buffers have the length [count * 3] they were created with. *)
Definition well_sized (count : nat) (a : arrays) : Prop :=
  List.length (positions a) = (count * 3)%nat
  /\ List.length (velocities a) = (count * 3)%nat.

End Particles.

(* ================================================================== *)
(** ** The camera: MouseCameraController and Frames                    *)
(* ================================================================== *)

Module Scene.

Local Open Scope Q_scope.

(** [THREE.Vector3]. *)
Record vec3 : Type := mkVec3 { vx : Q; vy : Q; vz : Q }.

(** [a < b] on numbers. *)
Definition Qltb (a b : Q) : bool := negb (Qle_bool b a).

(** [Vector3.lerp(v, alpha)]. *)
Definition lerp (p v : vec3) (alpha : Q) : vec3 :=
  mkVec3 (vx p + (vx v - vx p) * alpha)
         (vy p + (vy v - vy p) * alpha)
         (vz p + (vz v - vz p) * alpha).

(** What the components use from three.js, maath and the scene graph.
    These libraries are not part of the repository; their functions are
    taken as they come. *)
Class Three : Type := {
  Quat : Type;                      (* THREE.Quaternion *)
  Obj : Type;                       (* an Object3D of the scene graph *)
  same_object : Obj -> Obj -> bool; (* [===] on objects *)
  (* Matrix4.lookAt(eye, target, up), then
     Quaternion.setFromRotationMatrix *)
  lookAtRotation : vec3 -> vec3 -> vec3 -> Quat;
  (* easing.damp / damp3 / dampQ: current, target, smoothTime, dt
     (the velocity maath keeps with each damped value is left out) *)
  damp : Q -> Q -> Q -> Q -> Q;
  damp3 : vec3 -> vec3 -> Q -> Q -> vec3;
  dampQ : Quat -> Quat -> Q -> Q -> Quat;
  (* ref.current.getObjectByName(name) *)
  getObjectByName : string -> option Obj;
  object_name : Obj -> string;
  object_position : Obj -> vec3;
  (* o.parent.localToWorld(v), after updateWorldMatrix *)
  parent_localToWorld : Obj -> vec3 -> vec3
}.

Section Components.
Context {three : Three}.

Record camera : Type := mkCamera {
  position : vec3;
  quaternion : Quat;
  fov : Q
}.

(** The helper of Frames.jsx, with its default [up]. *)
Definition calculateLookAtQuaternion (eye target : vec3) : Quat :=
  lookAtRotation eye target (mkVec3 0 1 0).

(** [camera.lookAt(target)]: the camera looks from its own position, with
    its own up vector, which nothing in the page changes from (0, 1, 0). *)
Definition camera_lookAt (c : camera) (target : vec3) : camera :=
  mkCamera (position c)
           (lookAtRotation (position c) target (mkVec3 0 1 0))
           (fov c).

(** Who wrote which part of the camera transform during a frame. *)
Inductive component : Type := Parallax | StateMachine.
Inductive channel : Type := Position | Orientation | FieldOfView.
Definition write : Type := (component * channel)%type.

Definition is_orientation (c : channel) : bool :=
  match c with Orientation => true | _ => false end.

(** The components that wrote the orientation, in order. *)
Definition orientation_writers (ws : list write) : list component :=
  map fst (filter (fun w => is_orientation (snd w)) ws).

(** Exactly one component wrote the orientation. *)
Definition single_orientation_writer (ws : list write) : Prop :=
  List.length (orientation_writers ws) = 1%nat.

(** *** MouseCameraController *)

Definition MAX_HORIZONTAL_OFFSET : Q := 0.5.
Definition LERP_SPEED : Q := 0.05.

Record mouse_refs : Type := mkMouse {
  mouseX : Q;
  basePositionRef : vec3
}.

(** The effect: [basePositionRef.current.copy(camera.position)]. *)
Definition attach (c : camera) : mouse_refs := mkMouse 0 (position c).

(** [handleMouseMove], for an event with [clientX] on a window of width
    [innerWidth]. *)
Definition handleMouseMove (clientX innerWidth : Q) (m : mouse_refs)
  : mouse_refs :=
  mkMouse ((clientX / innerWidth) * 2 - 1) (basePositionRef m).

(** The [useFrame] subscriber.  [lookAtRef] is [lookAtRef.current]. *)
Definition mouse_onFrame (m : mouse_refs) (lookAtRef : option Obj)
           (c : camera) : camera * list write :=
  let targetX := vx (basePositionRef m) + mouseX m * MAX_HORIZONTAL_OFFSET in
  let targetPosition :=
    mkVec3 targetX (vy (basePositionRef m)) (vz (basePositionRef m)) in
  let c := mkCamera (lerp (position c) targetPosition LERP_SPEED)
                    (quaternion c) (fov c) in
  match lookAtRef with
  | Some o =>
      (camera_lookAt c (object_position o),
       [(Parallax, Position); (Parallax, Orientation)])
  | None => (c, [(Parallax, Position)])
  end.

(** *** Frames *)

Definition GOLDENRATIO : Q := 1.

Record props : Type := mkProps {
  section2Position : vec3;
  section2LookAtTarget : vec3;
  initialFov : Q
}.

(** Tweens and delayed calls handed to gsap.  The only tween of the
    component moves [camera.position]; its [onComplete] schedules the
    only delayed call, whose callback finishes the zoom out.  [from] is
    filled in when gsap renders the tween for the first time; [ease] is
    the function gsap resolves the [ease] of the tween to. *)
Inductive gsap_task : Type :=
| PositionTween (start : Q) (from : option vec3) (target : vec3)
                (duration : Q) (ease : Q -> Q)
| DelayedCall (start : Q) (delay : Q).

(** gsap's ["power1.inOut"]. *)
Definition power1_inOut (p : Q) : Q :=
  if Qltb p 0.5 then 2 * p * p
  else 1 - 2 * (1 - p) * (1 - p).

(** State and refs of [Frames], with what it shares with its parent
    ([isZoomed], through [setIsZoomed]), with the content registry (the
    number of calls of [clearActiveClasses]) and with gsap. *)
Record frames : Type := mkFrames {
  isAnimatingOut : bool;
  selectedFrameId : option string;
  targetFovRef : Q;
  clicked : option Obj;
  finalZoomInPosition : vec3;
  frameCenterWorld : vec3;
  zoomInTargetQ : Quat;
  zoomOutTargetQ : Quat;
  isZoomed : bool;
  clearActiveCalls : nat;
  timeline : list gsap_task;
  gsap_time : Q
}.

(** JavaScript truthiness of [selectedFrameId]: neither [null] nor the
    empty string. *)
Definition truthy (id : option string) : bool :=
  match id with
  | Some s => negb (String.eqb s EmptyString)
  | None => false
  end.

Definition same_id (a b : option string) : bool :=
  match a, b with
  | Some x, Some y => String.eqb x y
  | None, None => true
  | _, _ => false
  end.

(** [ref.current?.getObjectByName(selectedFrameId)]; no object is named
    [null]. *)
Definition resolve (id : option string) : option Obj :=
  match id with
  | Some s => getObjectByName s
  | None => None
  end.

(** The effect on [selectedFrameId]: zoom in. *)
Definition zoomInEffect (s : frames) : frames :=
  match resolve (selectedFrameId s) with
  | Some o =>
      let final := parent_localToWorld o (mkVec3 0 (GOLDENRATIO / 2) 1.25) in
      let center := parent_localToWorld o (mkVec3 0 (GOLDENRATIO / 2) 0.7) in
      mkFrames (isAnimatingOut s) (selectedFrameId s) 70 (Some o)
               final center (calculateLookAtQuaternion final center)
               (zoomOutTargetQ s) true (clearActiveCalls s)
               (timeline s) (gsap_time s)
  | None =>
      mkFrames (isAnimatingOut s) (selectedFrameId s) (targetFovRef s) None
               (finalZoomInPosition s) (frameCenterWorld s)
               (zoomInTargetQ s) (zoomOutTargetQ s) (isZoomed s)
               (clearActiveCalls s) (timeline s) (gsap_time s)
  end.

(** The effect on [isAnimatingOut]: start the zoom out. *)
Definition zoomOutEffect (pr : props) (s : frames) : frames :=
  if isAnimatingOut s then
    mkFrames (isAnimatingOut s) (selectedFrameId s) (targetFovRef s)
             (clicked s) (finalZoomInPosition s) (frameCenterWorld s)
             (zoomInTargetQ s)
             (calculateLookAtQuaternion (section2Position pr)
                                        (section2LookAtTarget pr))
             (isZoomed s) (clearActiveCalls s)
             (timeline s
              ++ [PositionTween (gsap_time s) None (section2Position pr) 1.2
                                power1_inOut])
             (gsap_time s)
  else s.

(** State setters: a new value re-renders and runs the effect that
    depends on it; the same value does nothing.  The other dependencies
    of the two effects - the camera and the props - keep their identity
    from one render to the next. *)
Definition setSelectedFrameId (id : option string) (s : frames) : frames :=
  if same_id (selectedFrameId s) id then s
  else
    zoomInEffect
      (mkFrames (isAnimatingOut s) id (targetFovRef s) (clicked s)
                (finalZoomInPosition s) (frameCenterWorld s)
                (zoomInTargetQ s) (zoomOutTargetQ s) (isZoomed s)
                (clearActiveCalls s) (timeline s) (gsap_time s)).

Definition setIsAnimatingOut (pr : props) (b : bool) (s : frames) : frames :=
  if Bool.eqb (isAnimatingOut s) b then s
  else
    zoomOutEffect pr
      (mkFrames b (selectedFrameId s) (targetFovRef s) (clicked s)
                (finalZoomInPosition s) (frameCenterWorld s)
                (zoomInTargetQ s) (zoomOutTargetQ s) (isZoomed s)
                (clearActiveCalls s) (timeline s) (gsap_time s)).

Definition set_targetFov (f : Q) (s : frames) : frames :=
  mkFrames (isAnimatingOut s) (selectedFrameId s) f (clicked s)
           (finalZoomInPosition s) (frameCenterWorld s)
           (zoomInTargetQ s) (zoomOutTargetQ s) (isZoomed s)
           (clearActiveCalls s) (timeline s) (gsap_time s).

(** [triggerZoomOut], as closed over the [isAnimatingOut] and
    [selectedFrameId] of some render. *)
Definition triggerZoomOut_of (pr : props) (seenAnimatingOut : bool)
           (seenId : option string) (s : frames) : frames :=
  if negb seenAnimatingOut && truthy seenId then
    setIsAnimatingOut pr true (set_targetFov (initialFov pr) s)
  else s.

(** [triggerZoomOut] of the current render, as [onClick] and
    [onPointerMissed] call it. *)
Definition triggerZoomOut (pr : props) (s : frames) : frames :=
  triggerZoomOut_of pr (isAnimatingOut s) (selectedFrameId s) s.

(** The [else] branch of [onClick]: select a frame by name. *)
Definition select (id : string) (s : frames) : frames :=
  if negb (isAnimatingOut s) then setSelectedFrameId (Some id) s else s.

Definition is_Some_obj (o : option Obj) : bool :=
  match o with Some _ => true | None => false end.

Definition is_clicked (s : frames) (o : Obj) : bool :=
  match clicked s with
  | Some c => same_object c o
  | None => false
  end.

(** [onClick] with [e.object = o], and [onPointerMissed]. *)
Definition onClick (pr : props) (o : Obj) (s : frames) : frames :=
  if is_clicked s o then triggerZoomOut pr s
  else select (object_name o) s.

Definition onPointerMissed (pr : props) (s : frames) : frames :=
  triggerZoomOut pr s.

(** The wheel listener exists while [selectedFrameId] is truthy; it was
    created by the render that last changed [selectedFrameId], when
    [isAnimatingOut] was false. *)
Definition onWheel (pr : props) (deltaY : Q) (s : frames) : frames :=
  if truthy (selectedFrameId s) && Qltb deltaY 0
  then triggerZoomOut_of pr false (selectedFrameId s) s
  else s.

(** The callback of [gsap.delayedCall(0.5, ...)]. *)
Definition zoomOutComplete (pr : props) (s : frames) : frames :=
  let s := mkFrames (isAnimatingOut s) (selectedFrameId s) (targetFovRef s)
                    (clicked s) (finalZoomInPosition s) (frameCenterWorld s)
                    (zoomInTargetQ s) (zoomOutTargetQ s) (isZoomed s)
                    (S (clearActiveCalls s)) (timeline s) (gsap_time s) in
  let s := setIsAnimatingOut pr false s in
  let s := mkFrames (isAnimatingOut s) (selectedFrameId s) (targetFovRef s)
                    (clicked s) (finalZoomInPosition s) (frameCenterWorld s)
                    (zoomInTargetQ s) (zoomOutTargetQ s) false
                    (clearActiveCalls s) (timeline s) (gsap_time s) in
  setSelectedFrameId None s.

(** The [useFrame] subscriber of [Frames]. *)
Definition frames_onFrame (s : frames) (dt : Q) (c : camera)
  : camera * list write :=
  let fovChanged := Qltb 0.01 (Qabs (fov c - targetFovRef s)) in
  let (c, w) :=
    if fovChanged then
      (mkCamera (position c) (quaternion c)
                (damp (fov c) (targetFovRef s) 0.4 dt),
       [(StateMachine, FieldOfView)])
    else (c, []) in
  if isAnimatingOut s then
    (mkCamera (position c)
              (dampQ (quaternion c) (zoomOutTargetQ s) 0.5 dt)
              (fov c),
     w ++ [(StateMachine, Orientation)])
  else if truthy (selectedFrameId s) && is_Some_obj (clicked s) then
    (mkCamera (damp3 (position c) (finalZoomInPosition s) 0.4 dt)
              (dampQ (quaternion c) (zoomInTargetQ s) 0.4 dt)
              (fov c),
     w ++ [(StateMachine, Position); (StateMachine, Orientation)])
  else (c, w).

(** The orientation writes of the two subscribers, read off the
    conditions under which each of them touches [camera.quaternion]. *)
Definition parallax_writes (lookAtRef : option Obj) : list component :=
  if is_Some_obj lookAtRef then [Parallax] else [].

Definition machine_writes (s : frames) : list component :=
  if isAnimatingOut s
     || (truthy (selectedFrameId s) && is_Some_obj (clicked s))
  then [StateMachine] else [].

(** One render frame.  Subscribers run in the order in which they were
    registered: [MouseCameraController] is mounted first. *)
Definition render_frame (m : mouse_refs) (lookAtRef : option Obj)
           (s : frames) (dt : Q) (c : camera) : camera * list write :=
  let (c1, w1) := mouse_onFrame m lookAtRef c in
  let (c2, w2) := frames_onFrame s dt c1 in
  (c2, w1 ++ w2).

(** *** gsap's ticker *)

Definition schedule (t : gsap_task) (s : frames) : frames :=
  mkFrames (isAnimatingOut s) (selectedFrameId s) (targetFovRef s)
           (clicked s) (finalZoomInPosition s) (frameCenterWorld s)
           (zoomInTargetQ s) (zoomOutTargetQ s) (isZoomed s)
           (clearActiveCalls s) (timeline s ++ [t]) (gsap_time s).

Definition begin_tick (now : Q) (s : frames) : frames :=
  mkFrames (isAnimatingOut s) (selectedFrameId s) (targetFovRef s)
           (clicked s) (finalZoomInPosition s) (frameCenterWorld s)
           (zoomInTargetQ s) (zoomOutTargetQ s) (isZoomed s)
           (clearActiveCalls s) [] now.

(** [Math.round(v * 1000000) / 1000000]: gsap writes a tweened number
    rounded to the millionth; [Math.round] rounds halves up. *)
Definition round6 (v : Q) : Q :=
  inject_Z (Qfloor (v * 1000000 + 1 / 2)) / 1000000.

(** What gsap writes at [ratio] of the way: start plus change times
    ratio, rounded. *)
Definition tween_value (from target : vec3) (ratio : Q) : vec3 :=
  mkVec3 (round6 (vx from + (vx target - vx from) * ratio))
         (round6 (vy from + (vy target - vy from) * ratio))
         (round6 (vz from + (vz target - vz from) * ratio)).

(** gsap renders one task at time [now].  A tween is rendered at the
    eased value of its progress, which is 1 once it has run for its
    duration; it then calls [onComplete], which is
    [gsap.delayedCall(0.5, ...)].  A delayed call whose delay has passed
    runs its callback.  Anything else stays scheduled. *)
Definition render_task (pr : props) (now : Q) (t : gsap_task)
           (sc : frames * camera) : frames * camera :=
  let (s, c) := sc in
  match t with
  | PositionTween start from target duration ease =>
      let from := match from with Some f => f | None => position c end in
      let finished := Qle_bool (start + duration) now in
      let progress := if finished then 1 else (now - start) / duration in
      let c := mkCamera (tween_value from target (ease progress))
                        (quaternion c) (fov c) in
      if finished then (schedule (DelayedCall now 0.5) s, c)
      else (schedule (PositionTween start (Some from) target duration ease)
                     s, c)
  | DelayedCall start delay =>
      if Qle_bool (start + delay) now then (zoomOutComplete pr s, c)
      else (schedule t s, c)
  end.

(** One tick of gsap's ticker at time [now]. *)
Definition gsap_tick (pr : props) (now : Q) (sc : frames * camera)
  : frames * camera :=
  let (s, c) := sc in
  fold_left (fun sc t => render_task pr now t sc)
            (timeline s) (begin_tick now s, c).

Definition gsap_ticks (pr : props) (nows : list Q) (sc : frames * camera)
  : frames * camera :=
  fold_left (fun sc now => gsap_tick pr now sc) nows sc.

(** [v] is [exact] rounded to the nearest millionth, halves up. *)
Definition to_the_millionth (exact v : Q) : Prop :=
  exists k : Z,
    v == inject_Z k / 1000000
    /\ inject_Z k <= exact * 1000000 + 1 / 2
    /\ exact * 1000000 + 1 / 2 < inject_Z k + 1.

Definition to_the_millionth3 (exact v : vec3) : Prop :=
  to_the_millionth (vx exact) (vx v)
  /\ to_the_millionth (vy exact) (vy v)
  /\ to_the_millionth (vz exact) (vz v).

(** The component as mounted: nothing selected, [targetFovRef] at
    [initialFov]; the refs hold fresh vectors and quaternions. *)
Definition mounted (pr : props) (q0 : Quat) (now : Q) : frames :=
  mkFrames false None (initialFov pr) None
           (mkVec3 0 0 0) (mkVec3 0 0 0) q0 q0 false 0 [] now.

(** What the rest of the page sees of the component. *)
Definition core (s : frames) : bool * option string * nat * bool * Q :=
  (isAnimatingOut s, selectedFrameId s, clearActiveCalls s, isZoomed s,
   targetFovRef s).

(** The zoom out started from [s] is still running in [x]: nothing has
    been cleared, the frame of [s] is still selected. *)
Definition zooming_out_of (s : frames) (x : frames * camera) : Prop :=
  isAnimatingOut (fst x) = true
  /\ selectedFrameId (fst x) = selectedFrameId s
  /\ clearActiveCalls (fst x) = clearActiveCalls s.

(** The zoom out started from [s] is over in [x]: [clearActiveClasses]
    has run once more than in [s], nothing is selected, gsap has
    nothing left to do. *)
Definition zoomed_out_of (s : frames) (x : frames * camera) : Prop :=
  isAnimatingOut (fst x) = false
  /\ selectedFrameId (fst x) = None
  /\ isZoomed (fst x) = false
  /\ clearActiveCalls (fst x) = S (clearActiveCalls s)
  /\ timeline (fst x) = [].

(** [clicked.current] is what the effect stored for the current
    [selectedFrameId]. *)
Definition clicked_resolved (s : frames) : Prop :=
  clicked s = resolve (selectedFrameId s).

End Components.

(** *** A small scene to evaluate on

    Two frames named ["f1"] and ["f2"] stand side by side; an
    orientation is kept as the pair (eye, target) it looks along, and
    smoothing moves a fixed fraction of the remaining way. *)
Definition blend (a b smoothTime dt : Q) : Q :=
  a + (b - a) * (dt / (smoothTime + dt)).

Definition blend3 (a b : vec3) (smoothTime dt : Q) : vec3 :=
  mkVec3 (blend (vx a) (vx b) smoothTime dt)
         (blend (vy a) (vy b) smoothTime dt)
         (blend (vz a) (vz b) smoothTime dt).

Definition demo : Three := {|
  Quat := (vec3 * vec3)%type;
  Obj := string;
  same_object := String.eqb;
  lookAtRotation := fun eye target up => (eye, target);
  damp := blend;
  damp3 := blend3;
  dampQ := fun a b smoothTime dt =>
             (blend3 (fst a) (fst b) smoothTime dt,
              blend3 (snd a) (snd b) smoothTime dt);
  getObjectByName := fun name =>
    if String.eqb name "f1" || String.eqb name "f2" then Some name
    else None;
  object_name := fun o => o;
  object_position := fun o =>
    if String.eqb o "heading" then mkVec3 0 7.8 (-3) else mkVec3 0 0 0;
  parent_localToWorld := fun o v =>
    if String.eqb o "f1" then mkVec3 (vx v - 1) (vy v) (vz v)
    else mkVec3 (vx v + 1) (vy v) (vz v)
|}.

Definition demo_props : props :=
  mkProps (mkVec3 0 0.8 7.5) (mkVec3 0 0 0) 60.

(** The demo scene's camera as the canvas creates it, the component as
    mounted, and the component zoomed in on ["f1"]. *)
Definition demo_camera : camera (three := demo) :=
  mkCamera (three := demo) (mkVec3 0 8 5) (mkVec3 0 8 5, mkVec3 0 0 0) 60.

Definition demo_mounted : frames (three := demo) :=
  mounted (three := demo) demo_props (mkVec3 0 0 0, mkVec3 0 0 0) 0.

Definition demo_zoomed_in : frames (three := demo) :=
  select (three := demo) "f1" demo_mounted.

End Scene.

(* ================================================================== *)
(** ** Users of the scheduler: useAdaptiveFrameRate, AnimatedStars      *)
(* ================================================================== *)

Module AdaptiveFrameRate.

Local Open Scope Q_scope.

(** The destructured [options] of [useAdaptiveFrameRate]. *)
Record options : Type := mkOptions {
  highFps : Q;
  mediumFps : Q;
  lowFps : Q;
  performanceThreshold : Q
}.

Definition default_options : options := mkOptions 60 30 15 50.

(** [currentFps] (the state) and the two refs. *)
Record state : Type := mkState {
  currentFps : Q;
  frameCountRef : nat;
  lastFpsCheckRef : Q
}.

Definition mount (o : options) : state := mkState (highFps o) 0 0.

(** [// Adjust frame rate based on performance] *)
Definition adjust (o : options) (actualFps : Q) : Q :=
  if Scene.Qltb actualFps (performanceThreshold o * 0.8) then lowFps o
  else if Scene.Qltb actualFps (performanceThreshold o) then mediumFps o
  else highFps o.

(** The [useFrame] subscriber of [useAdaptiveFrameRate]. *)
Definition onFrame (o : options) (t : FrameRate.tick) (s : state) : state :=
  let frameCount := S (frameCountRef s) in
  let currentTime := FrameRate.elapsedTime t in
  if Qle_bool 1 (currentTime - lastFpsCheckRef s) then
    let actualFps :=
      inject_Z (Z.of_nat frameCount) / (currentTime - lastFpsCheckRef s) in
    mkState (adjust o actualFps) 0 currentTime
  else mkState (currentFps s) frameCount (lastFpsCheckRef s).

Definition frames (o : options) (ts : list FrameRate.tick) (s : state)
  : state :=
  fold_left (fun s t => onFrame o t s) ts s.

End AdaptiveFrameRate.

Module AnimatedStars.

Local Open Scope Q_scope.

(** [starsRef.current.rotation]; the ref is empty until the group is
    mounted. *)
Record rotation : Type := mkRotation { rot_x : Q; rot_y : Q }.

(** The callback handed to [useFrameRate]. *)
Definition rotate (currentTime delta : Q) (starsRef : option rotation)
  : option rotation :=
  match starsRef with
  | Some r =>
      let y := rot_y r + delta * 0.01 in
      let x := rot_x r + delta * 0.002 in
      Some (mkRotation x y)
  | None => None
  end.

(** [useFrameRate(..., 30)] over some render ticks. *)
Definition frames (ts : list FrameRate.tick) (starsRef : option rotation)
  : option rotation :=
  snd (FrameRate.render_ticks rotate 30 true ts (FrameRate.initial, starsRef)).

End AnimatedStars.

Module Schedule.

Local Open Scope Q_scope.

(** The time handed to the callback over all its invocations. *)
Definition total_delta (log : list FrameRate.call) : Q :=
  fold_right (fun c acc => FrameRate.call_delta c + acc) 0 log.

(** A count as a number. *)
Definition of_nat (k : nat) : Q := inject_Z (Z.of_nat k).

(** Render ticks that all last [d], at the elapsed times [es]. *)
Definition steady (d : Q) (es : list Q) : list FrameRate.tick :=
  map (fun e => FrameRate.mkTick e d) es.

End Schedule.

(* ================================================================== *)
(** ** The scheduler in double precision                                *)
(* ================================================================== *)

(** [frameRef.current += delta], [1 / fps] and
    [currentTime - lastTimeRef.current] are operations on doubles: each
    result is the double nearest to the exact one.  This module is
    [useFrameRate] again with these three roundings; comparisons are
    exact. *)
Module Float64.
Import FrameRate.

Local Open Scope Q_scope.

Section Rounding.

(** [fl x] is the double nearest to [x]. *)
Variable fl : Q -> Q.

Definition targetInterval (fps : number) : interval :=
  match fps with
  | Rational q => if Qeq_bool q 0 then Infinity else Finite (fl (1 / q))
  | NegativeZero => MinusInfinity
  | PositiveInfinity => Finite 0
  | NegativeInfinity => Finite 0
  | NaN => NotANumber
  end.

Variable W : Type.
Variable callback : Q -> Q -> W -> W.

(** The body of the [useFrame] subscriber of [useFrameRate]. *)
Definition useFrameRate (fps : number) (enabled : bool) (t : tick)
           (s : refs * W) : refs * W :=
  let (r, w) := s in
  if negb enabled then s
  else
    let frame := fl (frameRef r + delta t) in
    if reached frame (targetInterval fps) then
      let currentTime := elapsedTime t in
      let actualDelta := fl (currentTime - lastTimeRef r) in
      (mkRefs 0 currentTime, callback currentTime actualDelta w)
    else (mkRefs frame (lastTimeRef r), w).

Definition render_ticks (fps : number) (enabled : bool) (ts : list tick)
           (s : refs * W) : refs * W :=
  fold_left (fun s t => useFrameRate fps enabled t s) ts s.

(** A rounded result is within the relative error [u] of the exact one;
    for doubles in the normal range [u] is 2^-53. *)
Definition accurate (u : Q) : Prop :=
  forall x, 0 <= x -> x * (1 - u) <= fl x /\ fl x <= x * (1 + u).

End Rounding.

Arguments useFrameRate fl {W} callback fps enabled t s.
Arguments render_ticks fl {W} callback fps enabled ts s.

(** The hook with default [enabled = true], run from its initial refs
    with the recording callback. *)
Definition run (fl : Q -> Q) (fps : number) (ts : list tick)
  : refs * list call :=
  render_ticks fl record_call fps true ts (initial, []).

(** [x] to the power [n]. *)
Fixpoint power (x : Q) (n : nat) : Q :=
  match n with
  | O => 1
  | S k => power x k * x
  end.

(** A rounding that is not the identity: every number moved down by
    2^-53 of itself. *)
Definition shrink (x : Q) : Q := x * (1 - (1 # 9007199254740992)).

End Float64.

(* ================================================================== *)
(** ** One particle at a time                                          *)
(* ================================================================== *)

Module Particle.
Import Particles.

Local Open Scope R_scope.

(** The six numbers of particle [p]: slots [3p .. 3p + 2] of both
    buffers. *)
Record particle : Type := mkParticle {
  px : R; py : R; pz : R;
  pvx : R; pvy : R; pvz : R
}.

Definition read (a : arrays) (p : nat) : particle :=
  mkParticle (get (positions a) (3 * p))
             (get (positions a) (3 * p + 1))
             (get (positions a) (3 * p + 2))
             (get (velocities a) (3 * p))
             (get (velocities a) (3 * p + 1))
             (get (velocities a) (3 * p + 2)).

(** The body of the loop of [updateParticles] on the six numbers of one
    particle, statement by statement. *)
Definition step (o : options) (pc : preCalc) (time : R) (q : particle)
  : particle :=
  (* Update positions based on velocities *)
  let x := px q + pvx q in
  let y := py q + pvy q in
  let z := pz q + pvz q in
  (* Add optimized floating motion using pre-calculated values *)
  let timeOffset := time * speed pc + phase pc in
  let x := x + sin timeOffset * amplitude pc in
  let y := y + cos (timeOffset * 0.7) * amplitude pc in
  let z := z + sin (timeOffset * 0.5) * amplitude pc * 0.5 in
  (* Dampen velocities *)
  let vx := pvx q * dampening o in
  let vy := pvy q * dampening o in
  let vz := pvz q * dampening o in
  (* Keep particles within circular bounds *)
  let distance := sqrt (x * x + y * y) in
  let outside := Rlt_dec (maxRadius o) distance in
  let angle := atan2 y x in
  let x' := if outside then cos angle * maxRadius o * 0.9 else x in
  let y' := if outside then sin angle * maxRadius o * 0.9 else y in
  let vx' := if outside then vx * -0.3 else vx in
  let vy' := if outside then vy * -0.3 else vy in
  (* Keep z position within bounds *)
  let above := Rlt_dec (bounds_z o) (Rabs z) in
  let z' := if above then sign z * bounds_z o else z in
  let vz' := if above then vz * -0.3 else vz in
  mkParticle x' y' z' vx' vy' vz'.

(** What [initialize] stores for particle [p]: the draws [6p .. 6p + 5]. *)
Definition drawn (rnd : nat -> R) (p : nat) : particle :=
  mkParticle ((rnd (6 * p)%nat - 0.5) * 2)
             ((rnd (6 * p + 1)%nat - 0.5) * 2)
             ((rnd (6 * p + 2)%nat - 0.5) * 0.3)
             ((rnd (6 * p + 3)%nat - 0.5) * 0.001)
             ((rnd (6 * p + 4)%nat - 0.5) * 0.001)
             ((rnd (6 * p + 5)%nat - 0.5) * 0.0002).

(** [Math.random()] returns numbers in [0, 1). *)
Definition random (rnd : nat -> R) : Prop := forall k, 0 <= rnd k < 1.

End Particle.

(* ================================================================== *)
(** ** The particle buffers as [Float32Array]s                          *)
(* ================================================================== *)

(** [positions] and [velocities] are [Float32Array]s: a store keeps the
    float32 nearest to the number stored, not the number.  This module
    is [useOptimizedParticles] again, statement by statement, with every
    store going through that rounding; the arithmetic between two stores
    stays that of the reals. *)
Module Float32.
Import Particles Particle.

Local Open Scope R_scope.

Section Rounding.

(** [fround x] is the float32 that storing [x] leaves in the array
    ([Math.fround]). *)
Variable fround : R -> R.

(** [a[i] = v]. *)
Definition store (a : buffer) (i : nat) (v : R) : buffer :=
  set a i (fround v).

Fixpoint init_loop (n i k : nat) (rnd : nat -> R) (a : arrays) : arrays :=
  match n with
  | O => a
  | S n' =>
      let pos := positions a in
      let vel := velocities a in
      let pos := store pos i ((rnd k - 0.5) * 2) in
      let pos := store pos (i + 1) ((rnd (k + 1)%nat - 0.5) * 2) in
      let pos := store pos (i + 2) ((rnd (k + 2)%nat - 0.5) * 0.3) in
      let vel := store vel i ((rnd (k + 3)%nat - 0.5) * 0.001) in
      let vel := store vel (i + 1) ((rnd (k + 4)%nat - 0.5) * 0.001) in
      let vel := store vel (i + 2) ((rnd (k + 5)%nat - 0.5) * 0.0002) in
      init_loop n' (i + 3) (k + 6) rnd (mkArrays pos vel)
  end.

Definition initialize (count : nat) (rnd : nat -> R) : arrays :=
  init_loop count 0 0 rnd (mkArrays (new_buffer count) (new_buffer count)).

(** [// Update positions based on velocities] *)
Definition add_velocity (i : nat) (a : arrays) : arrays :=
  let pos := positions a in
  let vel := velocities a in
  let pos := store pos i (get pos i + get vel i) in
  let pos := store pos (i + 1) (get pos (i + 1) + get vel (i + 1)) in
  let pos := store pos (i + 2) (get pos (i + 2) + get vel (i + 2)) in
  mkArrays pos vel.

(** [// Add optimized floating motion using pre-calculated values] *)
Definition floating_motion (time : R) (pc : preCalc) (i : nat) (a : arrays)
  : arrays :=
  let pos := positions a in
  let timeOffset := time * speed pc + phase pc in
  let pos := store pos i (get pos i + sin timeOffset * amplitude pc) in
  let pos := store pos (i + 1)
                   (get pos (i + 1)
                    + cos (timeOffset * 0.7) * amplitude pc) in
  let pos := store pos (i + 2)
                   (get pos (i + 2)
                    + sin (timeOffset * 0.5) * amplitude pc * 0.5) in
  mkArrays pos (velocities a).

(** [// Dampen velocities] *)
Definition dampen (o : options) (i : nat) (a : arrays) : arrays :=
  let vel := velocities a in
  let vel := store vel i (get vel i * dampening o) in
  let vel := store vel (i + 1) (get vel (i + 1) * dampening o) in
  let vel := store vel (i + 2) (get vel (i + 2) * dampening o) in
  mkArrays (positions a) vel.

(** [// Keep particles within circular bounds] *)
Definition keep_in_circle (o : options) (i : nat) (a : arrays) : arrays :=
  let pos := positions a in
  let vel := velocities a in
  let distance :=
    sqrt (get pos i * get pos i + get pos (i + 1) * get pos (i + 1)) in
  if Rlt_dec (maxRadius o) distance then
    let angle := atan2 (get pos (i + 1)) (get pos i) in
    let pos := store pos i (cos angle * maxRadius o * 0.9) in
    let pos := store pos (i + 1) (sin angle * maxRadius o * 0.9) in
    let vel := store vel i (get vel i * -0.3) in
    let vel := store vel (i + 1) (get vel (i + 1) * -0.3) in
    mkArrays pos vel
  else a.

(** [// Keep z position within bounds] *)
Definition keep_in_z (o : options) (i : nat) (a : arrays) : arrays :=
  let pos := positions a in
  let vel := velocities a in
  if Rlt_dec (bounds_z o) (Rabs (get pos (i + 2))) then
    let pos := store pos (i + 2) (sign (get pos (i + 2)) * bounds_z o) in
    let vel := store vel (i + 2) (get vel (i + 2) * -0.3) in
    mkArrays pos vel
  else a.

Definition update_body (o : options) (values : list preCalc) (time : R)
           (i : nat) (a : arrays) : arrays :=
  let particleIndex := (i / 3)%nat in
  let pc := nth particleIndex values no_entry in
  keep_in_z o i
    (keep_in_circle o i
       (dampen o i
          (floating_motion time pc i
             (add_velocity i a)))).

(** [for (let i = 0; i < count * 3; i += 3)]: [n] iterations remain. *)
Fixpoint update_loop (o : options) (values : list preCalc) (time : R)
         (n i : nat) (a : arrays) : arrays :=
  match n with
  | O => a
  | S n' => update_loop o values time n' (i + 3)
                        (update_body o values time i a)
  end.

(** [updateParticles(state)] with [time = state.clock.elapsedTime]. *)
Definition updateParticles (o : options) (count : nat) (time : R)
           (a : arrays) : arrays :=
  update_loop o (preCalculatedValues o count) time count 0 a.

(** Any number of advance ticks, one elapsed time per tick. *)
Definition advance (o : options) (count : nat) (times : list R)
           (a : arrays) : arrays :=
  fold_left (fun a time => updateParticles o count time a) times a.

(** The body of the loop of [updateParticles] on the six numbers of one
    particle, statement by statement. *)
Definition step (o : options) (pc : preCalc) (time : R) (q : particle)
  : particle :=
  (* Update positions based on velocities *)
  let x := fround (px q + pvx q) in
  let y := fround (py q + pvy q) in
  let z := fround (pz q + pvz q) in
  (* Add optimized floating motion using pre-calculated values *)
  let timeOffset := time * speed pc + phase pc in
  let x := fround (x + sin timeOffset * amplitude pc) in
  let y := fround (y + cos (timeOffset * 0.7) * amplitude pc) in
  let z := fround (z + sin (timeOffset * 0.5) * amplitude pc * 0.5) in
  (* Dampen velocities *)
  let vx := fround (pvx q * dampening o) in
  let vy := fround (pvy q * dampening o) in
  let vz := fround (pvz q * dampening o) in
  (* Keep particles within circular bounds *)
  let distance := sqrt (x * x + y * y) in
  let outside := Rlt_dec (maxRadius o) distance in
  let angle := atan2 y x in
  let x' := if outside then fround (cos angle * maxRadius o * 0.9) else x in
  let y' := if outside then fround (sin angle * maxRadius o * 0.9) else y in
  let vx' := if outside then fround (vx * -0.3) else vx in
  let vy' := if outside then fround (vy * -0.3) else vy in
  (* Keep z position within bounds *)
  let above := Rlt_dec (bounds_z o) (Rabs z) in
  let z' := if above then fround (sign z * bounds_z o) else z in
  let vz' := if above then fround (vz * -0.3) else vz in
  mkParticle x' y' z' vx' vy' vz'.

(** What [initialize] stores for particle [p]: the draws [6p .. 6p + 5],
    scaled and rounded. *)
Definition drawn (rnd : nat -> R) (p : nat) : particle :=
  mkParticle (fround ((rnd (6 * p)%nat - 0.5) * 2))
             (fround ((rnd (6 * p + 1)%nat - 0.5) * 2))
             (fround ((rnd (6 * p + 2)%nat - 0.5) * 0.3))
             (fround ((rnd (6 * p + 3)%nat - 0.5) * 0.001))
             (fround ((rnd (6 * p + 4)%nat - 0.5) * 0.001))
             (fround ((rnd (6 * p + 5)%nat - 0.5) * 0.0002)).

(** Rounding keeps the order of numbers. *)
Definition monotone : Prop := forall x y, x <= y -> fround x <= fround y.

(** Rounding moves no number of magnitude up to [bound] by more than
    [eps * bound]; for float32 and a bound in its normal range, [eps]
    is 2^-24. *)
Definition accurate (eps bound : R) : Prop :=
  forall x, Rabs x <= bound -> Rabs (fround x - x) <= eps * bound.

End Rounding.

(** A rounding that is not the identity: every number moved up by
    2^-24 of itself. *)
Definition stretch (x : R) : R := x * (1 + / 16777216).

End Float32.

(* ================================================================== *)
(** ** Scenery: FloatingLight, the portal rings, the Frame callback     *)
(* ================================================================== *)

Module FloatingLight.

Local Open Scope R_scope.

(** [lightRef.current.position] of a point light. *)
Record light : Type := mkLight { lx : R; ly : R; lz : R }.

(** The [useFrame] subscriber, at [state.clock.getElapsedTime()]. *)
Definition onFrame (elapsedTime : R) (lights : light * light)
  : light * light :=
  let (light1, light2) := lights in
  let t := elapsedTime / 1 in
  let light1 := mkLight (sin t * 8) (ly light1) (lz light1) in
  let light1 := mkLight (lx light1) (ly light1) (- cos t * 5 - 10) in
  let light2 := mkLight (- sin (t - 1.5) * 8) (ly light2) (lz light2) in
  let light2 := mkLight (lx light2) (ly light2) (- cos (t - 1.5) * 5 - 10) in
  (light1, light2).

(** The ellipse around (0, -10) with half-axes 8 and 5, in the x-z
    plane. *)
Definition on_orbit (l : light) : Prop :=
  (lx l / 8) * (lx l / 8) + ((lz l + 10) / 5) * ((lz l + 10) / 5) = 1.

End FloatingLight.

Module Portal.

Local Open Scope R_scope.

Record config : Type := mkConfig {
  radius : R;
  tube : R;
  opacity : R;
  speed : R;
  phase : R
}.

Definition getUniquePortalConfigs (seed : R) : list config :=
  [ mkConfig (0.48 + 0.01 * sin seed)
             (0.045 + 0.005 * cos seed)
             0.7
             (0.4 + 0.2 * Rabs (sin (seed * 2)))
             seed;
    mkConfig (0.56 + 0.01 * cos seed)
             (0.025 + 0.005 * sin seed)
             0.4
             (0.6 + 0.2 * Rabs (cos (seed * 2)))
             (seed + 1);
    mkConfig (0.62 + 0.01 * sin (seed * 1.5))
             (0.012 + 0.005 * cos (seed * 1.5))
             0.2
             (0.3 + 0.2 * Rabs (sin (seed * 3)))
             (seed + 2) ].

(** A ring that can be drawn: a tube thinner than the ring is wide, a
    visible opacity, a forward speed. *)
Definition drawable (c : config) : Prop :=
  0 < tube c < radius c /\ 0 < opacity c <= 1 /\ 0 < speed c.

End Portal.

Module FrameItem.
Import Particles.

Local Open Scope R_scope.

(** [image.current.material.zoom] as the callback of [Frame] sets it. *)
Definition zoom (rnd elapsedTime : R) : R :=
  2 + sin (rnd * 10000 + elapsedTime / 3) / 2.

(** [// Scale up on hover or if frame is active] *)
Definition targetScale (hovered isActive : bool) : R :=
  if hovered || isActive then 1.3 else 1.

(** [for (let i = 0; i < particleCount * 3; i++)
       positions[i] = particlePositions[i]] with [n] iterations left. *)
Fixpoint copy_loop (n i : nat) (particlePositions positions : buffer)
  : buffer :=
  match n with
  | O => positions
  | S n' =>
      copy_loop n' (i + 1) particlePositions
                (set positions i (get particlePositions i))
  end.

Definition copy_positions (particleCount : nat)
           (particlePositions positions : buffer) : buffer :=
  copy_loop (particleCount * 3) 0 particlePositions positions.

End FrameItem.

(* ================================================================== *)
(** ** The camera components over sequences of events                  *)
(* ================================================================== *)

Module SceneEvents.
Import Scene.

Local Open Scope Q_scope.

Section Events.
Context {three : Three}.

(** What can happen to [Frames]: a click on an object of the group, a
    click next to them, a wheel event, a tick of gsap. *)
Inductive event : Type :=
| Click (o : Obj)
| PointerMissed
| Wheel (deltaY : Q)
| GsapTick (now : Q).

Definition handle (pr : props) (e : event) (sc : frames * camera)
  : frames * camera :=
  match e with
  | Click o => (onClick pr o (fst sc), snd sc)
  | PointerMissed => (onPointerMissed pr (fst sc), snd sc)
  | Wheel deltaY => (onWheel pr deltaY (fst sc), snd sc)
  | GsapTick now => gsap_tick pr now sc
  end.

Definition handle_all (pr : props) (es : list event) (sc : frames * camera)
  : frames * camera :=
  fold_left (fun sc e => handle pr e sc) es sc.

(** What gsap holds for the component, against its state: nothing while
    no zoom out runs; while one runs, its one tween or its one delayed
    call, with a frame selected and the field-of-view target reset. *)
Definition in_step (pr : props) (s : frames) : Prop :=
  match timeline s with
  | [] => isAnimatingOut s = false
  | [PositionTween _ _ target duration _] =>
      isAnimatingOut s = true /\ truthy (selectedFrameId s) = true
      /\ targetFovRef s = initialFov pr
      /\ target = section2Position pr /\ duration = 1.2
  | [DelayedCall _ delay] =>
      isAnimatingOut s = true /\ truthy (selectedFrameId s) = true
      /\ targetFovRef s = initialFov pr
      /\ delay = 0.5
  | _ => False
  end.

(** What happens to [MouseCameraController]: a pointer move, a render
    frame. *)
Inductive mouse_event : Type :=
| Move (clientX innerWidth : Q)
| Render.

Definition mouse_handle (lookAtRef : option Obj) (e : mouse_event)
           (mc : mouse_refs * camera) : mouse_refs * camera :=
  match e with
  | Move clientX innerWidth =>
      (handleMouseMove clientX innerWidth (fst mc), snd mc)
  | Render => (fst mc, fst (mouse_onFrame (fst mc) lookAtRef (snd mc)))
  end.

Definition mouse_handle_all (lookAtRef : option Obj)
           (es : list mouse_event) (mc : mouse_refs * camera)
  : mouse_refs * camera :=
  fold_left (fun mc e => mouse_handle lookAtRef e mc) es mc.

(** The pointer is over the window. *)
Definition in_viewport (e : mouse_event) : Prop :=
  match e with
  | Move clientX innerWidth =>
      0 < innerWidth /\ 0 <= clientX /\ clientX <= innerWidth
  | Render => True
  end.

(** What a frame leaves of the distance to the target: 1 - LERP_SPEED. *)
Definition ratio : Q := 19 # 20.

(** [n] render frames in a row, the pointer at rest. *)
Definition render_times (n : nat) (m : mouse_refs) (lookAtRef : option Obj)
           (c : camera) : camera :=
  Nat.iter n (fun c => fst (mouse_onFrame m lookAtRef c)) c.

End Events.

(** The demo scene with its group, which like every object that was
    given no name carries the empty one. *)
Definition demo_with_group : Three := {|
  Quat := (vec3 * vec3)%type;
  Obj := string;
  same_object := String.eqb;
  lookAtRotation := fun eye target up => (eye, target);
  damp := blend;
  damp3 := blend3;
  dampQ := fun a b smoothTime dt =>
             (blend3 (fst a) (fst b) smoothTime dt,
              blend3 (snd a) (snd b) smoothTime dt);
  getObjectByName := fun name =>
    if String.eqb name "" then Some "group"%string
    else if String.eqb name "f1" || String.eqb name "f2" then Some name
    else None;
  object_name := fun o => if String.eqb o "group" then ""%string else o;
  object_position := fun o => mkVec3 0 0 0;
  parent_localToWorld := fun o v => v
|}.

End SceneEvents.

(* ================================================================== *)
(** ** useCachedElements: the content registry                          *)
(* ================================================================== *)

Module CachedElements.

(** What the hook reads and writes of a DOM element: its class tokens,
    and the [href] of each [a] element below it, in document order. *)
Record element : Type := mkElement {
  classList : list string;
  links : list string
}.

(** The elements of the page; a node is known by its place in this list.
    The cached [NodeList] holds nodes, not copies: a class written
    through one cache is seen through every other. *)
Definition document : Type := list element.

Definition no_element : element := mkElement [] [].

Definition node (d : document) (id : nat) : element := nth id d no_element.

(** [el.classList.contains / add / remove (token)]. *)
Definition contains (token : string) (e : element) : bool :=
  existsb (String.eqb token) (classList e).

Definition add (token : string) (e : element) : element :=
  if contains token e then e
  else mkElement (classList e ++ [token]) (links e).

Definition remove (token : string) (e : element) : element :=
  mkElement (filter (fun t => negb (String.eqb token t)) (classList e))
            (links e).

(** A write to one node. *)
Fixpoint update (d : document) (id : nat) (f : element -> element)
  : document :=
  match d, id with
  | [], _ => []
  | e :: rest, O => f e :: rest
  | e :: rest, S k => e :: update rest k f
  end.

(** A call returns or throws. *)
Inductive outcome (A : Type) : Type :=
| Returns (a : A)
| Throws.

Arguments Returns {A} a.
Arguments Throws {A}.

(** [s] ends with [suffix]. *)
Definition ends_with (suffix s : string) : bool :=
  let n := String.length s in
  let k := String.length suffix in
  (k <=? n)%nat && String.eqb (substring (n - k) k s) suffix.

(** A slug that a single-quoted CSS string takes as it is: no quote, no
    backslash, no line break, no NUL. *)
Definition literal (c : ascii) : bool :=
  negb (Ascii.eqb c "'" || Ascii.eqb c "\"
        || Ascii.eqb c (ascii_of_nat 10) || Ascii.eqb c (ascii_of_nat 13)
        || Ascii.eqb c (ascii_of_nat 12) || Ascii.eqb c (ascii_of_nat 0)).

Fixpoint plain (slug : string) : bool :=
  match slug with
  | EmptyString => true
  | String c rest => literal c && plain rest
  end.

Section Hook.

(** The selector engine of the browser.  [selects selector] is what
    [querySelectorAll(selector)] matches, or nothing when the selector
    does not parse; [exotic slug e] is what
    [e.querySelector("a[href$='/" + slug + "']")] does for a slug that is
    not [plain]: whether it finds a link, or that it throws. *)
Variable selects : string -> option (document -> nat -> bool).
Variable exotic : string -> element -> outcome bool.

(** [elementsRef.current]: the cached nodes, or [null]. *)
Definition cache : Type := option (list nat).

(** [refreshElements], for [selectorRef.current = selector]. *)
Definition refreshElements (selector : string) (d : document) : cache :=
  match selects selector with
  | Some matches => Some (filter (matches d) (seq 0 (List.length d)))
  | None => None
  end.

(** [handleVisibilityChange]. *)
Definition handleVisibilityChange (hidden : bool) (selector : string)
           (d : document) (elementsRef : cache) : cache :=
  if negb hidden then refreshElements selector d else elementsRef.

Definition clearActiveClasses (elementsRef : cache) (d : document)
  : document :=
  match elementsRef with
  | Some ids => fold_left (fun d id => update d id (remove "active")) ids d
  | None => d
  end.

(** [addActiveClass(index)]; an index that is negative or past the end
    reads [undefined]. *)
Definition addActiveClass (elementsRef : cache) (index : Z) (d : document)
  : document :=
  match elementsRef with
  | Some ids =>
      if (index <? 0)%Z then d
      else match nth_error ids (Z.to_nat index) with
           | Some id => update d id (add "active")
           | None => d
           end
  | None => d
  end.

(** [element.querySelector("a[href$='/" + slug + "']")] is not null. *)
Definition has_link (slug : string) (e : element) : outcome bool :=
  if plain slug then
    Returns (existsb (ends_with (String "/" slug)) (links e))
  else exotic slug e.

(** The loop of [findElementBySlug], at index [i]. *)
Fixpoint find_from (i : nat) (ids : list nat) (slug : string)
         (d : document) : outcome (option (nat * nat)) :=
  match ids with
  | [] => Returns None
  | id :: rest =>
      match has_link slug (node d id) with
      | Throws => Throws
      | Returns true => Returns (Some (id, i))
      | Returns false => find_from (S i) rest slug d
      end
  end.

(** [findElementBySlug(slug)]: the node and its index, or [null]. *)
Definition findElementBySlug (elementsRef : cache) (slug : string)
           (d : document) : outcome (option (nat * nat)) :=
  match elementsRef with
  | None => Returns None
  | Some ids => find_from 0 ids slug d
  end.

(** [setActiveBySlug(slug)]: the index or -1, and the page afterwards. *)
Definition setActiveBySlug (elementsRef : cache) (slug : string)
           (d : document) : outcome Z * document :=
  match findElementBySlug elementsRef slug d with
  | Throws => (Throws, d)
  | Returns (Some (id, index)) =>
      let d := clearActiveClasses elementsRef d in
      let d := update d id (add "active") in
      (Returns (Z.of_nat index), d)
  | Returns None => (Returns (-1)%Z, d)
  end.

End Hook.

(** Node [id] carries the class ["active"]. *)
Definition is_active (d : document) (id : nat) : bool :=
  contains "active" (node d id).

(** A cache of distinct nodes of the page. *)
Definition cached_in (d : document) (ids : list nat) : Prop :=
  NoDup ids /\ Forall (fun id => (id < List.length d)%nat) ids.

End CachedElements.

(* ================================================================== *)
(** * images.jsx: the projects read from the page *)

Module Images.
Import CachedElements.
Local Open Scope string_scope.

(** A string is truthy when it is not empty. *)
Definition nonempty (s : string) : bool := negb (String.eqb s "").

(** [s.split(sep)] for a separator of one character: never empty. *)
Fixpoint split (sep : ascii) (s : string) : list string :=
  match s with
  | EmptyString => [EmptyString]
  | String c rest =>
      if Ascii.eqb c sep then EmptyString :: split sep rest
      else match split sep rest with
           | seg :: segs => String c seg :: segs
           | [] => [String c EmptyString]
           end
  end.

(** [parts[i]]: [undefined] outside the array. *)
Definition item (parts : list string) (i : Z) : option string :=
  if (i <? 0)%Z then None else nth_error parts (Z.to_nat i).

(** [a || b] for [a] a string or [undefined]. *)
Definition or_else (a : option string) (b : string) : string :=
  match a with
  | Some s => if nonempty s then s else b
  | None => b
  end.

(** [parts[parts.length - 1] || parts[parts.length - 2] || ''] for
    [parts = href.split('/')]. *)
Definition slug_of_href (href : string) : string :=
  let parts := split "/"%char href in
  let n := Z.of_nat (List.length parts) in
  or_else (item parts (n - 1)) (or_else (item parts (n - 2)) "").

(** The first [img] below a project element: its [srcset] and [src]
    attributes. *)
Record img : Type := mkImg {
  srcset : option string;
  src : option string
}.

(** What the extraction reads and writes of an element that
    [div[data-three="thumbnail"].project-links-item] selects: the
    element as the registry sees it, the text of its first
    [.project-heading], its first [img], and its
    [data-carousel-index] attribute. *)
Record project_element : Type := mkProjectElement {
  el : element;
  heading : option string;
  imgEl : option img;
  carousel_index : option string
}.

Module Project.
Record t : Type := mk {
  slug : string;
  name : string;
  images : list string;
  index : nat
}.
End Project.

(** A place in the scene. *)
Record slot : Type := mkSlot {
  slot_position : R * R * R;
  slot_rotation : R * R * R
}.

Module Image.
Record t : Type := mk {
  position : R * R * R;
  rotation : R * R * R;
  url : string;
  name : string;
  slug : string
}.
End Image.

Definition oldImages : list slot :=
  [ mkSlot (0, 0, 1.5) (0, 0, 0);
    mkSlot (-0.8, 0, -0.6) (0, 0, 0);
    mkSlot (0.8, 0, -0.6) (0, 0, 0);
    mkSlot (-1.75, 0, 0.25) (0, PI / 2.5, 0);
    mkSlot (-2.15, 0, 1.5) (0, PI / 2.5, 0);
    mkSlot (-2, 0, 2.75) (0, PI / 2.5, 0);
    mkSlot (1.75, 0, 0.25) (0, - PI / 2.5, 0);
    mkSlot (2.15, 0, 1.5) (0, - PI / 2.5, 0);
    mkSlot (2, 0, 2.75) (0, - PI / 2.5, 0) ]%R.

Definition placeholder : string := "https://placehold.co/600x400".

(** [String(idx)]. *)
Definition to_string (idx : nat) : string :=
  NilEmpty.string_of_uint (Nat.to_uint idx).

Section Extraction.

(** The regular-expression engine: [srcset_match s] is [match[1]] of
    [s.match(/([^\s]+)\s+(720w|800w)/)], or nothing when there is no
    match. *)
Variable srcset_match : string -> option string.

(** The slug of an element: from the [href] of its first [a[href]]. *)
Definition slug_of (e : project_element) : string :=
  match links (el e) with
  | href :: _ => if nonempty href then slug_of_href href else ""
  | [] => ""
  end.

Definition name_of (e : project_element) (slug : string) : string :=
  match heading e with
  | Some textContent => textContent
  | None => slug
  end.

Definition imageUrl_of (e : project_element) : string :=
  match imgEl e with
  | Some i =>
      match srcset i with
      | Some s =>
          if nonempty s then
            match srcset_match s with
            | Some url => url
            | None => hd "" (split " "%char (hd "" (split ","%char s)))
            end
          else or_else (src i) ""
      | None => or_else (src i) ""
      end
  | None => ""
  end.

(** [element.setAttribute('data-carousel-index', idx)]. *)
Definition set_index (e : project_element) (idx : nat) : project_element :=
  mkProjectElement (el e) (heading e) (imgEl e) (Some (to_string idx)).

(** The callback of [limitedElements.map]: the entry or [null], and the
    element afterwards. *)
Definition extract_one (idx : nat) (e : project_element)
  : option Project.t * project_element :=
  let slug := slug_of e in
  let name := name_of e slug in
  let imageUrl := imageUrl_of e in
  if negb (nonempty slug) then (None, e)
  else if negb (nonempty imageUrl) then (None, e)
  else (Some (Project.mk slug name [imageUrl] idx), set_index e idx).

(** [.map((element, idx) => ...).filter(Boolean)] from index [idx] on. *)
Fixpoint extract_from (idx : nat) (elements : list project_element)
  : list Project.t * list project_element :=
  match elements with
  | [] => ([], [])
  | e :: rest =>
      let (entry, e') := extract_one idx e in
      let (entries, rest') := extract_from (S idx) rest in
      (match entry with
       | Some p => p :: entries
       | None => entries
       end, e' :: rest')
  end.

(** [extractProjectDataFromDOM]: the data, and the project elements of
    the page afterwards. *)
Definition extractProjectDataFromDOM (page : list project_element)
  : list Project.t * list project_element :=
  let (data, written) := extract_from 0 (firstn 9 page) in
  (data, (written ++ skipn 9 page)%list).

(** [projectData.map((project, index) => ...)] from index [i] on; reading
    [.position] of a missing slot throws. *)
Fixpoint place_from (i : nat) (projectData : list Project.t)
  : outcome (list Image.t) :=
  match projectData with
  | [] => Returns []
  | project :: rest =>
      match nth_error oldImages i with
      | None => Throws
      | Some s =>
          match place_from (S i) rest with
          | Throws => Throws
          | Returns placed =>
              Returns (Image.mk (slot_position s) (slot_rotation s)
                         (or_else (nth_error (Project.images project) 0)
                                  placeholder)
                         (Project.name project) (Project.slug project)
                       :: placed)
          end
      end
  end.

(** What a call of [getApiData] leaves behind: what the promise settles
    to, the entry of [imageCache] under ['dom-extracted-data'], the
    project elements of the page, and the urls handed to
    [preloadImage]. *)
Record call : Type := mkCall {
  settled : outcome (list Image.t);
  imageCache : option (list Image.t);
  page_after : list project_element;
  preloaded : list string
}.

Definition getApiData (cache : option (list Image.t))
           (page : list project_element) : call :=
  match cache with
  | Some cached => mkCall (Returns cached) cache page []
  | None =>
      let (projectData, page) := extractProjectDataFromDOM page in
      match projectData with
      | [] => mkCall (Returns []) None page []
      | _ :: _ =>
          match place_from 0 projectData with
          | Throws => mkCall Throws None page []
          | Returns images =>
              mkCall (Returns images) (Some images) page
                     (filter nonempty (map Image.url images))
          end
      end
  end.

(** Calls one after the other, each on the page as it is then: the
    results, oldest first, and the cache at the end. *)
Fixpoint calls (cache : option (list Image.t))
         (pages : list (list project_element))
  : list (outcome (list Image.t)) * option (list Image.t) :=
  match pages with
  | [] => ([], cache)
  | page :: later =>
      let c := getApiData cache page in
      let (results, final) := calls (imageCache c) later in
      (settled c :: results, final)
  end.

End Extraction.

(** The character [c] occurs in [s]. *)
Definition occurs (c : ascii) (s : string) : Prop :=
  In c (list_ascii_of_string s).

End Images.

(* ================================================================== *)
(** * Properties of the scheduler                                      *)
(* ================================================================== *)

Module FrameRateFacts.
Import FrameRate.
Local Open Scope Q_scope.

Lemma targetInterval_nonzero (fps : Q) :
  ~ fps == 0 -> targetInterval fps = Finite (1 / fps).
Proof.
  intros H. unfold targetInterval.
  destruct (Qeq_bool fps 0) eqn:E; [|reflexivity].
  apply Qeq_bool_iff in E. contradiction.
Qed.

Lemma targetInterval_zero (fps : Q) :
  fps == 0 -> targetInterval fps = Infinity.
Proof.
  intros H. unfold targetInterval.
  apply Qeq_bool_iff in H. now rewrite H.
Qed.

Lemma run_snoc (fps : number) (pre : list tick) (t : tick) :
  run fps (pre ++ [t]) = useFrameRate record_call fps true t (run fps pre).
Proof. unfold run, render_ticks. now rewrite fold_left_app. Qed.

Lemma last_fire_snoc (log : list call) (c : call) :
  last_fire (log ++ [c]) = call_time c.
Proof. unfold last_fire. rewrite map_app. simpl. apply last_last. Qed.

(** One tick, by cases on the test of the hook. *)
Lemma useFrameRate_fire (fps : number) (t : tick) (r : refs)
      (log : list call) :
  reached (frameRef r + delta t) (targetInterval fps) = true ->
  useFrameRate record_call fps true t (r, log)
  = (mkRefs 0 (elapsedTime t),
     log ++ [mkCall (elapsedTime t) (elapsedTime t - lastTimeRef r)]).
Proof. intros H. unfold useFrameRate. cbn [negb]. now rewrite H. Qed.

Lemma useFrameRate_skip (fps : number) (t : tick) (r : refs)
      (log : list call) :
  reached (frameRef r + delta t) (targetInterval fps) = false ->
  useFrameRate record_call fps true t (r, log)
  = (mkRefs (frameRef r + delta t) (lastTimeRef r), log).
Proof. intros H. unfold useFrameRate. cbn [negb]. now rewrite H. Qed.

Lemma reached_pos (fps acc : Q) :
  0 < fps -> (reached acc (targetInterval fps) = true <-> 1 / fps <= acc).
Proof.
  intros H. rewrite targetInterval_nonzero.
  - simpl. apply Qle_bool_iff.
  - apply Qnot_eq_sym, Qlt_not_eq, H.
Qed.

Lemma reached_pos_false (fps acc : Q) :
  0 < fps -> (reached acc (targetInterval fps) = false <-> acc < 1 / fps).
Proof.
  intros H. rewrite <- not_true_iff_false, reached_pos by assumption.
  split; [apply Qnot_le_lt | apply Qlt_not_le].
Qed.

(** [lastTimeRef] always holds the time of the latest invocation. *)
Lemma lastTimeRef_is_last_fire (fps : Q) (ts : list tick) :
  lastTimeRef (fst (run fps ts)) = last_fire (snd (run fps ts)).
Proof.
  induction ts as [|t pre IH] using rev_ind; [reflexivity|].
  rewrite run_snoc. destruct (run fps pre) as [r log]. simpl in IH.
  destruct (reached (frameRef r + delta t) (targetInterval fps)) eqn:E.
  - rewrite useFrameRate_fire by assumption. simpl. now rewrite last_fire_snoc.
  - rewrite useFrameRate_skip by assumption. simpl. exact IH.
Qed.

Lemma calls_at_most_ticks (fps : Q) (ts : list tick) :
  (List.length (snd (run fps ts)) <= List.length ts)%nat.
Proof.
  induction ts as [|t pre IH] using rev_ind; [simpl; lia|].
  rewrite run_snoc, length_app. destruct (run fps pre) as [r log].
  simpl in IH. simpl (List.length [t]).
  destruct (reached (frameRef r + delta t) (targetInterval fps)) eqn:E.
  - rewrite useFrameRate_fire by assumption. simpl. rewrite length_app. simpl. lia.
  - rewrite useFrameRate_skip by assumption. simpl. lia.
Qed.

(** C2. For a positive rate the callback runs on exactly the ticks on
    which the accumulator [frameRef + delta] has reached [1 / fps]; it is
    handed the tick's elapsed time minus the elapsed time of the previous
    invocation ([lastTimeRef], which is 0 before the first one); the
    accumulator is then 0 and [lastTimeRef] the tick's elapsed time.  On
    every other tick only the accumulator changes. *)
Theorem fires_when_interval_reached (fps : Q) (pre : list tick) (t : tick) :
  0 < fps ->
  let r := fst (run fps pre) in
  let log := snd (run fps pre) in
  let accumulated := frameRef r + delta t in
  lastTimeRef r = last_fire log
  /\ (1 / fps <= accumulated ->
      run fps (pre ++ [t])
      = (mkRefs 0 (elapsedTime t),
         log ++ [mkCall (elapsedTime t) (elapsedTime t - last_fire log)]))
  /\ (accumulated < 1 / fps ->
      run fps (pre ++ [t]) = (mkRefs accumulated (lastTimeRef r), log)).
Proof.
  intros Hfps r log accumulated.
  pose proof (lastTimeRef_is_last_fire fps pre) as Hlast.
  fold r log in Hlast. split; [exact Hlast|].
  rewrite run_snoc. rewrite (surjective_pairing (run fps pre)).
  fold r log. split; intros H.
  - rewrite useFrameRate_fire by (apply reached_pos; assumption).
    now rewrite Hlast.
  - rewrite useFrameRate_skip by (apply reached_pos_false; assumption).
    reflexivity.
Qed.

Lemma fires_when_interval_reached_witness :
  0 < 30 /\
  run 30 ([mkTick (1 # 60) (1 # 60)] ++ [mkTick (2 # 60) (1 # 60)])
  = (mkRefs 0 (2 # 60),
     [] ++ [mkCall (2 # 60) ((2 # 60) - 0)]).
Proof.
  split; [reflexivity|].
  apply (fires_when_interval_reached 30 [mkTick (1 # 60) (1 # 60)]
           (mkTick (2 # 60) (1 # 60)));
    vm_compute; first [reflexivity | discriminate].
Defined.

(** *** Rates that are not positive *)

Lemma inverse_of_negative (fps : Q) : fps < 0 -> 1 / fps < 0.
Proof.
  destruct fps as [[|p|p] d]; unfold Qlt, Qdiv, Qmult, Qinv; simpl;
    intros H; lia.
Qed.

Lemma negative_rate_fires (fps : Q) (ts : list tick) :
  fps < 0 -> Forall (fun t => 0 <= delta t) ts ->
  frameRef (fst (run fps ts)) = 0 /\ invoked_on_every_tick fps ts.
Proof.
  intros Hneg. unfold invoked_on_every_tick.
  induction ts as [|t pre IH] using rev_ind; intros Hall; [now split|].
  apply Forall_app in Hall. destruct Hall as [Hpre Ht].
  apply Forall_inv in Ht. destruct (IH Hpre) as [Hacc Hlog].
  rewrite run_snoc. destruct (run fps pre) as [r log]. simpl in Hacc, Hlog.
  rewrite useFrameRate_fire.
  - simpl. split; [reflexivity|].
    rewrite !map_app, Hlog. reflexivity.
  - rewrite targetInterval_nonzero by (apply Qlt_not_eq, Hneg).
    simpl. apply Qle_bool_iff. rewrite Hacc.
    apply Qle_trans with 0.
    + apply Qlt_le_weak, inverse_of_negative, Hneg.
    + rewrite Qplus_0_l. exact Ht.
Qed.

Lemma zero_rate_never_fires (fps : Q) (ts : list tick) :
  fps == 0 -> snd (run fps ts) = [].
Proof.
  intros Hz. induction ts as [|t pre IH] using rev_ind; [reflexivity|].
  rewrite run_snoc. destruct (run fps pre) as [r log]. simpl in IH.
  rewrite useFrameRate_skip; [exact IH|].
  now rewrite targetInterval_zero.
Qed.

(** C5 as stated fails: at rate 0 the interval [1 / 0] is infinite and
    the callback is never invoked. *)
Lemma zero_rate_is_not_every_tick :
  ~ invoked_on_every_tick 0 [mkTick (1 # 60) (1 # 60);
                             mkTick (2 # 60) (1 # 60)].
Proof. unfold invoked_on_every_tick. vm_compute. discriminate. Qed.

Lemma always_reached_fires (fps : number) (ts : list tick) :
  (forall t r, In t ts -> frameRef r = 0 ->
               reached (frameRef r + delta t) (targetInterval fps) = true) ->
  frameRef (fst (run fps ts)) = 0 /\ invoked_on_every_tick fps ts.
Proof.
  unfold invoked_on_every_tick.
  induction ts as [|t pre IH] using rev_ind; intros Hall; [now split|].
  destruct IH as [Hacc Hlog].
  { intros t' r Hin. apply Hall, in_or_app. now left. }
  rewrite run_snoc. destruct (run fps pre) as [r log].
  cbn [fst snd] in Hacc, Hlog.
  rewrite useFrameRate_fire.
  - cbn [fst snd frameRef]. split; [reflexivity|].
    rewrite !map_app, Hlog. reflexivity.
  - apply Hall; [|exact Hacc]. apply in_or_app. right. now left.
Qed.

(** [1 / -0] is [-Infinity], which every accumulator has reached. *)
Lemma negative_zero_fires (ts : list tick) :
  invoked_on_every_tick NegativeZero ts.
Proof. now apply always_reached_fires. Qed.

(** [1 / -Infinity] is a zero, reached by every non-negative delta. *)
Lemma negative_infinity_fires (ts : list tick) :
  Forall (fun t => 0 <= delta t) ts ->
  invoked_on_every_tick NegativeInfinity ts.
Proof.
  intros Hall. apply always_reached_fires. intros t r Hin Hacc.
  rewrite Forall_forall in Hall. specialize (Hall t Hin).
  cbn [targetInterval reached]. apply Qle_bool_iff.
  rewrite Hacc, Qplus_0_l. exact Hall.
Qed.

(** C5, amended. No rate makes the hook fail ([run] is total).  A
    negative rate gives a negative interval, and the rate [-Infinity] a
    zero interval, which every tick with a non-negative delta reaches;
    the rate [-0] gives the interval [-Infinity], which every tick
    reaches: in these cases the callback runs on every tick.  The rate
    [+0] gives the interval [+Infinity]: the callback never runs. *)
Theorem nonpositive_rate (fps : number) (ts : list tick) :
  nonpositive fps ->
  Forall (fun t => 0 <= delta t) ts ->
  (forall q, fps = Rational q -> q < 0 -> invoked_on_every_tick fps ts)
  /\ (fps = NegativeZero \/ fps = NegativeInfinity ->
      invoked_on_every_tick fps ts)
  /\ (forall q, fps = Rational q -> q == 0 -> snd (run fps ts) = []).
Proof.
  intros _ Hall. split; [|split].
  - intros q -> Hneg. now apply negative_rate_fires.
  - intros [-> | ->].
    + apply negative_zero_fires.
    + now apply negative_infinity_fires.
  - intros q ->. apply zero_rate_never_fires.
Qed.

Lemma nonpositive_rate_witness :
  invoked_on_every_tick (-30) [mkTick (1 # 60) (1 # 60);
                               mkTick (2 # 60) (1 # 60)]
  /\ invoked_on_every_tick NegativeZero [mkTick (1 # 60) (1 # 60);
                                          mkTick (2 # 60) (1 # 60)]
  /\ snd (run 0 [mkTick (1 # 60) (1 # 60); mkTick (2 # 60) (1 # 60)]) = [].
Proof.
  assert (Hall : Forall (fun t => 0 <= delta t)
                        [mkTick (1 # 60) (1 # 60); mkTick (2 # 60) (1 # 60)])
    by (repeat constructor; vm_compute; discriminate).
  split; [|split].
  - apply (nonpositive_rate (-30)
             [mkTick (1 # 60) (1 # 60); mkTick (2 # 60) (1 # 60)])
      with (q := -30).
    + vm_compute; discriminate.
    + exact Hall.
    + reflexivity.
    + reflexivity.
  - apply (nonpositive_rate NegativeZero
             [mkTick (1 # 60) (1 # 60); mkTick (2 # 60) (1 # 60)]).
    + exact I.
    + exact Hall.
    + now left.
  - apply (nonpositive_rate 0
             [mkTick (1 # 60) (1 # 60); mkTick (2 # 60) (1 # 60)])
      with (q := 0).
    + vm_compute; discriminate.
    + exact Hall.
    + reflexivity.
    + reflexivity.
Defined.

(** *** At most one invocation per tick *)

(** C10. For a positive rate a tick appends at most one invocation to
    the log, so there are never more invocations than ticks.  A tick that
    invokes the callback leaves the accumulator at exactly 0, whatever
    the surplus above [1 / fps] was, so the very next tick invokes the
    callback only if its own delta reaches [1 / fps]. *)
Theorem surplus_is_dropped (fps : Q) (pre : list tick) (t t' : tick) :
  0 < fps ->
  let before := run fps pre in
  let after := run fps (pre ++ [t]) in
  let next := run fps ((pre ++ [t]) ++ [t']) in
  (List.length (snd (run fps pre)) <= List.length pre)%nat
  /\ (snd after = snd before \/ exists c, snd after = snd before ++ [c])
  /\ (1 / fps <= frameRef (fst before) + delta t ->
      frameRef (fst after) = 0
      /\ (snd next <> snd after <-> 1 / fps <= delta t')).
Proof.
  intros Hfps. cbv zeta.
  split; [apply calls_at_most_ticks|].
  rewrite !run_snoc. destruct (run fps pre) as [r log].
  destruct (reached (frameRef r + delta t) (targetInterval fps)) eqn:E.
  - rewrite (useFrameRate_fire fps t r log E).
    set (r1 := mkRefs 0 (elapsedTime t)).
    set (log1 := log ++ _).
    split; [right; eexists; reflexivity|]. intros _.
    split; [reflexivity|].
    destruct (reached (frameRef r1 + delta t') (targetInterval fps)) eqn:E'.
    + rewrite (useFrameRate_fire fps t' r1 log1 E'). cbn [fst snd].
      apply reached_pos in E'; [|assumption].
      unfold r1 in E'. simpl in E'. rewrite Qplus_0_l in E'.
      split; [intros _; exact E'|]. intros _ H.
      apply (f_equal (@List.length call)) in H.
      rewrite !length_app in H. simpl in H. lia.
    + rewrite (useFrameRate_skip fps t' r1 log1 E'). cbn [fst snd].
      apply reached_pos_false in E'; [|assumption].
      unfold r1 in E'. simpl in E'. rewrite Qplus_0_l in E'.
      split; [congruence|]. intros H. now apply Qlt_not_le in E'.
  - rewrite (useFrameRate_skip fps t r log E). cbn [fst snd].
    split; [now left|]. intros H.
    apply reached_pos_false in E; [|assumption]. now apply Qlt_not_le in E.
Qed.

Lemma surplus_is_dropped_witness :
  0 < 30
  /\ frameRef (fst (run 30 ([] ++ [mkTick 1 1]))) = 0
  /\ (snd (run 30 (([] ++ [mkTick 1 1]) ++ [mkTick (61 # 60) (1 # 60)]))
      <> snd (run 30 ([] ++ [mkTick 1 1]))
      <-> 1 / 30 <= delta (mkTick (61 # 60) (1 # 60))).
Proof.
  split; [reflexivity|].
  apply (surplus_is_dropped 30 [] (mkTick 1 1) (mkTick (61 # 60) (1 # 60)));
    vm_compute; first [reflexivity | discriminate].
Defined.

(** *** Any callback *)

(** What a callback has done after some frames is what it does on the
    recorded invocations, one after the other. *)
Lemma frames_replay {W : Type} (callback : Q -> Q -> W -> W) (fps : Q)
      (ts : list tick) (w : W) :
  render_ticks callback fps true ts (initial, w)
  = (fst (run fps ts), replay callback (snd (run fps ts)) w).
Proof.
  induction ts as [|t pre IH] using rev_ind; [reflexivity|].
  rewrite run_snoc. unfold render_ticks in *. rewrite fold_left_app, IH.
  destruct (run fps pre) as [r log]. cbn [fold_left fst snd].
  destruct (reached (frameRef r + delta t) (targetInterval fps)) eqn:E.
  - rewrite (useFrameRate_fire fps t r log E).
    unfold useFrameRate. cbn [negb]. rewrite E. cbn [fst snd].
    unfold replay. rewrite fold_left_app. reflexivity.
  - rewrite (useFrameRate_skip fps t r log E).
    unfold useFrameRate. cbn [negb]. rewrite E. reflexivity.
Qed.

(** Rendering at 240 frames a second with a rate of 30: the callback
    runs on every eighth frame. *)
Example every_eighth_frame :
  let ts := map (fun k => mkTick (inject_Z (Z.of_nat k) / 240) (1 / 240))
                (seq 1 16) in
  map (fun c => Qred (call_time c)) (snd (run 30 ts)) = [1 # 30; 1 # 15].
Proof. reflexivity. Qed.

(** After a frame of one second at 30 Hz the callback has run once, and
    the next frame of 1/60 s does not run it again. *)
Example long_frame_fires_once :
  snd (run 30 [mkTick 1 1; mkTick (61 # 60) (1 # 60)])
  = [mkCall 1 (1 - 0)].
Proof. reflexivity. Qed.

End FrameRateFacts.

(* ================================================================== *)
(** * Properties of the camera components                              *)
(* ================================================================== *)

Module SceneFacts.
Import Scene.
Local Open Scope Q_scope.

Section Any_library.
Context {three : Three}.

(** *** MouseCameraController *)

Lemma normalized_in_range (clientX innerWidth : Q) :
  0 < innerWidth -> 0 <= clientX -> clientX <= innerWidth ->
  -1 <= (clientX / innerWidth) * 2 - 1 /\ (clientX / innerWidth) * 2 - 1 <= 1.
Proof.
  intros Hw H0 H1.
  assert (Hlo : 0 <= clientX / innerWidth).
  { apply Qle_shift_div_l; [assumption|]. now rewrite Qmult_0_l. }
  assert (Hhi : clientX / innerWidth <= 1).
  { apply Qle_shift_div_r; [assumption|]. now rewrite Qmult_1_l. }
  revert Hlo Hhi. generalize (clientX / innerWidth). intros q Hlo Hhi.
  split; Lqa.lra.
Qed.

(** C9, amended. A pointer sample inside the viewport sets [mouseX] to
    [clientX / innerWidth * 2 - 1], a number in [-1, 1].  Each frame
    moves the camera's x by the fraction [LERP_SPEED] of the way to
    [targetX = base.x + mouseX * MAX_HORIZONTAL_OFFSET], and moves y and
    z by the same fraction of the way to the base position's y and z:
    they stay as they are exactly when they already equal the base's. *)
Theorem parallax_blend (clientX innerWidth : Q) (m : mouse_refs)
        (lookAtRef : option Obj) (c : camera) :
  0 < innerWidth -> 0 <= clientX -> clientX <= innerWidth ->
  let m' := handleMouseMove clientX innerWidth m in
  let base := basePositionRef m' in
  let targetX := vx base + mouseX m' * MAX_HORIZONTAL_OFFSET in
  let p := position c in
  let p' := position (fst (mouse_onFrame m' lookAtRef c)) in
  (mouseX m' = (clientX / innerWidth) * 2 - 1
   /\ -1 <= mouseX m' /\ mouseX m' <= 1
   /\ base = basePositionRef m)
  /\ vx p' = vx p + (targetX - vx p) * LERP_SPEED
  /\ vy p' = vy p + (vy base - vy p) * LERP_SPEED
  /\ vz p' = vz p + (vz base - vz p) * LERP_SPEED
  /\ (vy p' == vy p <-> vy p == vy base)
  /\ (vz p' == vz p <-> vz p == vz base).
Proof.
  intros Hw H0 H1. cbv zeta.
  pose proof (normalized_in_range clientX innerWidth Hw H0 H1) as [Hlo Hhi].
  split; [repeat split; assumption|].
  unfold mouse_onFrame, camera_lookAt.
  destruct lookAtRef; cbn [fst position lerp vx vy vz];
    (repeat split; try reflexivity; unfold LERP_SPEED; intros H; Lqa.lra).
Qed.

(** *** Frames: the zoom-out trigger *)

Lemma same_id_refl (id : option string) : same_id id id = true.
Proof. destruct id; simpl; [apply String.eqb_refl | reflexivity]. Qed.

Lemma same_id_eq (a b : option string) : same_id a b = true -> a = b.
Proof.
  destruct a, b; simpl; try discriminate; [|reflexivity].
  intros H. apply String.eqb_eq in H. now subst.
Qed.

Lemma triggerZoomOut_idle (pr : props) (s : frames) :
  truthy (selectedFrameId s) = false -> triggerZoomOut pr s = s.
Proof.
  intros H. unfold triggerZoomOut, triggerZoomOut_of.
  now rewrite H, andb_false_r.
Qed.

Lemma triggerZoomOut_zoomingOut (pr : props) (s : frames) :
  isAnimatingOut s = true -> triggerZoomOut pr s = s.
Proof.
  intros H. unfold triggerZoomOut, triggerZoomOut_of. now rewrite H.
Qed.

(** What the trigger does when it is not guarded off. *)
Lemma triggerZoomOut_from_zoomIn (pr : props) (s : frames) :
  isAnimatingOut s = false -> truthy (selectedFrameId s) = true ->
  triggerZoomOut pr s
  = mkFrames true (selectedFrameId s) (initialFov pr) (clicked s)
             (finalZoomInPosition s) (frameCenterWorld s) (zoomInTargetQ s)
             (calculateLookAtQuaternion (section2Position pr)
                                        (section2LookAtTarget pr))
             (isZoomed s) (clearActiveCalls s)
             (timeline s
              ++ [PositionTween (gsap_time s) None (section2Position pr) 1.2
                                power1_inOut])
             (gsap_time s).
Proof.
  intros Ha Hs. unfold triggerZoomOut, triggerZoomOut_of.
  rewrite Ha, Hs. simpl.
  unfold setIsAnimatingOut, set_targetFov. simpl. rewrite Ha. reflexivity.
Qed.

(** C7. [triggerZoomOut] changes nothing while nothing is selected and
    nothing while the zoom out is already running; calling it twice is
    the same as calling it once, for the whole state of the component
    (selected id, animating-out flag and field-of-view target included). *)
Theorem triggerZoomOut_idempotent (pr : props) (s : frames) :
  (truthy (selectedFrameId s) = false -> triggerZoomOut pr s = s)
  /\ (isAnimatingOut s = true -> triggerZoomOut pr s = s)
  /\ triggerZoomOut pr (triggerZoomOut pr s) = triggerZoomOut pr s.
Proof.
  split; [apply triggerZoomOut_idle|].
  split; [apply triggerZoomOut_zoomingOut|].
  destruct (isAnimatingOut s) eqn:Ha.
  - rewrite (triggerZoomOut_zoomingOut pr s Ha).
    exact (triggerZoomOut_zoomingOut pr s Ha).
  - destruct (truthy (selectedFrameId s)) eqn:Hs.
    + rewrite (triggerZoomOut_from_zoomIn pr s Ha Hs).
      now apply triggerZoomOut_zoomingOut.
    + rewrite (triggerZoomOut_idle pr s Hs).
      exact (triggerZoomOut_idle pr s Hs).
Qed.

(** The wheel listener calls a [triggerZoomOut] that still sees
    [isAnimatingOut = false]; while the zoom out runs with the
    field-of-view target already reset, it changes nothing either. *)
Lemma onWheel_while_zoomingOut (pr : props) (deltaY : Q) (s : frames) :
  isAnimatingOut s = true -> targetFovRef s = initialFov pr ->
  onWheel pr deltaY s = s.
Proof.
  intros Ha Hf. unfold onWheel, triggerZoomOut_of.
  destruct (truthy (selectedFrameId s) && Qltb deltaY 0); [|reflexivity].
  destruct (negb false && truthy (selectedFrameId s)); [|reflexivity].
  destruct s; simpl in Ha, Hf. subst.
  reflexivity.
Qed.

(** *** Frames: selecting a name that resolves to nothing *)

Lemma frames_onFrame_idle (s : frames) (dt : Q) (c : camera) :
  isAnimatingOut s = false ->
  truthy (selectedFrameId s) && is_Some_obj (clicked s) = false ->
  position (fst (frames_onFrame s dt c)) = position c
  /\ quaternion (fst (frames_onFrame s dt c)) = quaternion c.
Proof.
  intros Ha Hc. unfold frames_onFrame. rewrite Ha, Hc.
  destruct (Qltb 0.01 (Qabs (fov c - targetFovRef s))); now split.
Qed.

Lemma frames_onFrame_zooming_out (s : frames) (dt : Q) (c : camera) :
  isAnimatingOut s = true ->
  position (fst (frames_onFrame s dt c)) = position c
  /\ quaternion (fst (frames_onFrame s dt c))
     = dampQ (quaternion c) (zoomOutTargetQ s) 0.5 dt.
Proof.
  intros Ha. unfold frames_onFrame. rewrite Ha.
  destruct (Qltb 0.01 (Qabs (fov c - targetFovRef s))); now split.
Qed.

(** C8, amended. Selecting a name that no object carries computes no zoom
    target and no look-at orientation, leaves the zoomed flag, the
    field-of-view target, the animating-out flag and everything handed
    to gsap and the content registry as they were, and is total.  While
    a zoom out runs the whole state is unchanged, and the frame driver
    goes on as before the select: it leaves the position to gsap and
    turns the camera towards the zoom-out orientation.  Otherwise the
    selected id does change - it becomes the unresolved name -
    [clicked] becomes empty, and the frame driver then leaves camera
    position and orientation alone. *)
Theorem select_unresolved (id : string) (s : frames) :
  getObjectByName id = None ->
  clicked_resolved s ->
  let s' := select id s in
  (finalZoomInPosition s' = finalZoomInPosition s
   /\ frameCenterWorld s' = frameCenterWorld s
   /\ zoomInTargetQ s' = zoomInTargetQ s
   /\ zoomOutTargetQ s' = zoomOutTargetQ s)
  /\ (isZoomed s' = isZoomed s
      /\ targetFovRef s' = targetFovRef s
      /\ isAnimatingOut s' = isAnimatingOut s)
  /\ (timeline s' = timeline s
      /\ clearActiveCalls s' = clearActiveCalls s)
  /\ (isAnimatingOut s = true ->
      s' = s
      /\ forall dt c,
          frames_onFrame s' dt c = frames_onFrame s dt c
          /\ position (fst (frames_onFrame s' dt c)) = position c
          /\ quaternion (fst (frames_onFrame s' dt c))
             = dampQ (quaternion c) (zoomOutTargetQ s) 0.5 dt)
  /\ (isAnimatingOut s = false ->
      selectedFrameId s' = Some id
      /\ clicked s' = None
      /\ forall dt c,
          position (fst (frames_onFrame s' dt c)) = position c
          /\ quaternion (fst (frames_onFrame s' dt c)) = quaternion c).
Proof.
  intros Hnone Hres. cbv zeta. unfold select.
  destruct (isAnimatingOut s) eqn:Ha; simpl.
  - repeat split; intros; try reflexivity; try assumption; try congruence;
      now apply frames_onFrame_zooming_out.
  - unfold setSelectedFrameId.
    destruct (same_id (selectedFrameId s) (Some id)) eqn:Hsame.
    + apply same_id_eq in Hsame.
      assert (Hc : clicked s = None).
      { unfold clicked_resolved in Hres. rewrite Hres, Hsame. exact Hnone. }
      repeat split; try reflexivity; try assumption; try discriminate;
        apply frames_onFrame_idle; try assumption;
        rewrite Hc; apply andb_false_r.
    + unfold zoomInEffect. simpl. rewrite Hnone.
      repeat split; try reflexivity; try assumption; try discriminate;
        apply frames_onFrame_idle; try assumption; apply andb_false_r.
Qed.

(** [clicked.current] follows [selectedFrameId] through every event. *)
Lemma zoomInEffect_resolved (s : frames) : clicked_resolved (zoomInEffect s).
Proof.
  unfold clicked_resolved, zoomInEffect.
  destruct (resolve (selectedFrameId s)) eqn:E; simpl; now rewrite E.
Qed.

Lemma setSelectedFrameId_resolved (id : option string) (s : frames) :
  clicked_resolved s -> clicked_resolved (setSelectedFrameId id s).
Proof.
  intros H. unfold setSelectedFrameId.
  destruct (same_id (selectedFrameId s) id); [exact H|].
  apply zoomInEffect_resolved.
Qed.

Lemma triggerZoomOut_of_resolved (pr : props) (seen : bool)
      (seenId : option string) (s : frames) :
  clicked_resolved s -> clicked_resolved (triggerZoomOut_of pr seen seenId s).
Proof.
  intros H. unfold triggerZoomOut_of, setIsAnimatingOut, zoomOutEffect.
  destruct (negb seen && truthy seenId); [|exact H].
  cbn [set_targetFov isAnimatingOut].
  destruct (Bool.eqb (isAnimatingOut s) true); [exact H|exact H].
Qed.

Lemma events_keep_resolved (pr : props) (s : frames) :
  clicked_resolved s ->
  (forall o, clicked_resolved (onClick pr o s))
  /\ clicked_resolved (onPointerMissed pr s)
  /\ (forall deltaY, clicked_resolved (onWheel pr deltaY s))
  /\ clicked_resolved (zoomOutComplete pr s).
Proof.
  intros H. repeat split.
  - intros o. unfold onClick, select.
    destruct (is_clicked s o); [now apply triggerZoomOut_of_resolved|].
    destruct (negb (isAnimatingOut s)); [|exact H].
    now apply setSelectedFrameId_resolved.
  - now apply triggerZoomOut_of_resolved.
  - intros deltaY. unfold onWheel.
    destruct (truthy (selectedFrameId s) && Qltb deltaY 0); [|exact H].
    now apply triggerZoomOut_of_resolved.
  - unfold zoomOutComplete. apply setSelectedFrameId_resolved.
    unfold setIsAnimatingOut, zoomOutEffect. cbn [isAnimatingOut].
    destruct (Bool.eqb (isAnimatingOut s) false); exact H.
Qed.

(** *** Who writes the orientation *)

Lemma mouse_orientation_writers (m : mouse_refs) (lookAtRef : option Obj)
      (c : camera) :
  orientation_writers (snd (mouse_onFrame m lookAtRef c))
  = parallax_writes lookAtRef.
Proof. unfold mouse_onFrame. destruct lookAtRef; reflexivity. Qed.

Lemma frames_orientation_writers (s : frames) (dt : Q) (c : camera) :
  orientation_writers (snd (frames_onFrame s dt c)) = machine_writes s.
Proof.
  unfold frames_onFrame, machine_writes.
  destruct (Qltb 0.01 (Qabs (fov c - targetFovRef s)));
    destruct (isAnimatingOut s); simpl; try reflexivity;
    destruct (truthy (selectedFrameId s) && is_Some_obj (clicked s));
    reflexivity.
Qed.

Lemma orientation_writers_app (a b : list write) :
  orientation_writers (a ++ b)
  = orientation_writers a ++ orientation_writers b.
Proof. unfold orientation_writers. now rewrite filter_app, map_app. Qed.

(** C6, amended. In a render frame the parallax controller sets the
    orientation by its look-at whenever its look-at reference is set,
    whatever the state of [Frames]; [Frames] damps the orientation
    whenever it is zooming out or zoomed in on a resolved frame.  When
    both hold, both write: the orientation [Frames] leaves is damped
    starting from the one the look-at has just set. *)
Theorem orientation_written_by_both (m : mouse_refs) (lookAtRef : option Obj)
        (s : frames) (dt : Q) (c : camera) :
  let after_parallax := fst (mouse_onFrame m lookAtRef c) in
  let final := fst (render_frame m lookAtRef s dt c) in
  orientation_writers (snd (render_frame m lookAtRef s dt c))
  = parallax_writes lookAtRef ++ machine_writes s
  /\ (forall o, lookAtRef = Some o ->
        quaternion after_parallax
        = lookAtRotation (position after_parallax) (object_position o)
                         (mkVec3 0 1 0))
  /\ (isAnimatingOut s = true ->
        quaternion final
        = dampQ (quaternion after_parallax) (zoomOutTargetQ s) 0.5 dt)
  /\ (isAnimatingOut s = false ->
      truthy (selectedFrameId s) && is_Some_obj (clicked s) = true ->
        quaternion final
        = dampQ (quaternion after_parallax) (zoomInTargetQ s) 0.4 dt).
Proof.
  cbv zeta. unfold render_frame.
  destruct (mouse_onFrame m lookAtRef c) as [c1 w1] eqn:E1.
  destruct (frames_onFrame s dt c1) as [c2 w2] eqn:E2.
  cbn [fst snd]. split; [|split; [|split]].
  - rewrite orientation_writers_app.
    pose proof (mouse_orientation_writers m lookAtRef c) as H1.
    pose proof (frames_orientation_writers s dt c1) as H2.
    rewrite E1 in H1. rewrite E2 in H2. simpl in H1, H2.
    now rewrite H1, H2.
  - intros o Ho. subst lookAtRef. unfold mouse_onFrame in E1.
    injection E1 as <- _. reflexivity.
  - intros Ha. unfold frames_onFrame in E2. rewrite Ha in E2.
    destruct (Qltb 0.01 (Qabs (fov c1 - targetFovRef s)));
      injection E2 as <- _; reflexivity.
  - intros Ha Hz. unfold frames_onFrame in E2. rewrite Ha, Hz in E2.
    destruct (Qltb 0.01 (Qabs (fov c1 - targetFovRef s)));
      injection E2 as <- _; reflexivity.
Qed.

(** While the zoom out runs, clicks, missed pointers and the wheel change
    nothing. *)
Lemma events_ignored_while_zooming_out (pr : props) (s : frames) :
  isAnimatingOut s = true ->
  (forall o, onClick pr o s = s)
  /\ onPointerMissed pr s = s
  /\ (forall id, select id s = s)
  /\ (targetFovRef s = initialFov pr -> forall deltaY, onWheel pr deltaY s = s).
Proof.
  intros Ha. repeat split.
  - intros o. unfold onClick, select. rewrite Ha.
    destruct (is_clicked s o); [|reflexivity].
    now apply triggerZoomOut_zoomingOut.
  - now apply triggerZoomOut_zoomingOut.
  - intros id. unfold select. now rewrite Ha.
  - intros Hf deltaY. now apply onWheel_while_zoomingOut.
Qed.

(** *** The zoom out, tick by tick *)

Lemma gsap_ticks_app (pr : props) (a b : list Q) (x : frames * camera) :
  gsap_ticks pr (a ++ b) x = gsap_ticks pr b (gsap_ticks pr a x).
Proof. unfold gsap_ticks. apply fold_left_app. Qed.

Lemma not_yet (limit now : Q) : now < limit -> Qle_bool limit now = false.
Proof.
  intros H. destruct (Qle_bool limit now) eqn:E; [|reflexivity].
  apply Qle_bool_iff in E. now apply Qlt_not_le in H.
Qed.

Lemma due (limit now : Q) : limit <= now -> Qle_bool limit now = true.
Proof. apply Qle_bool_iff. Qed.

Lemma tick_during_tween (pr : props) (now start duration : Q)
      (from : option vec3) (target : vec3) (ease : Q -> Q)
      (s : frames) (c : camera) :
  timeline s = [PositionTween start from target duration ease] ->
  now < start + duration ->
  let origin := match from with Some f => f | None => position c end in
  let x := gsap_tick pr now (s, c) in
  core (fst x) = core s
  /\ timeline (fst x)
     = [PositionTween start (Some origin) target duration ease]
  /\ gsap_time (fst x) = now
  /\ position (snd x)
     = tween_value origin target (ease ((now - start) / duration)).
Proof.
  intros Ht Hnow. cbv zeta. unfold gsap_tick. rewrite Ht. simpl.
  rewrite (not_yet _ _ Hnow). simpl. repeat split.
Qed.

Lemma tick_tween_end (pr : props) (now start duration : Q)
      (from : option vec3) (target : vec3) (ease : Q -> Q)
      (s : frames) (c : camera) :
  timeline s = [PositionTween start from target duration ease] ->
  start + duration <= now ->
  let origin := match from with Some f => f | None => position c end in
  let x := gsap_tick pr now (s, c) in
  core (fst x) = core s
  /\ timeline (fst x) = [DelayedCall now 0.5]
  /\ position (snd x) = tween_value origin target (ease 1).
Proof.
  intros Ht Hnow. cbv zeta. unfold gsap_tick. rewrite Ht. simpl.
  rewrite (due _ _ Hnow). simpl. repeat split.
Qed.

Lemma tick_during_delay (pr : props) (now start delay : Q)
      (s : frames) (c : camera) :
  timeline s = [DelayedCall start delay] ->
  now < start + delay ->
  let x := gsap_tick pr now (s, c) in
  core (fst x) = core s /\ timeline (fst x) = [DelayedCall start delay].
Proof.
  intros Ht Hnow. cbv zeta. unfold gsap_tick. rewrite Ht. simpl.
  rewrite (not_yet _ _ Hnow). simpl. repeat split.
Qed.

Lemma zoomOutComplete_resets (pr : props) (s : frames) :
  isAnimatingOut (zoomOutComplete pr s) = false
  /\ selectedFrameId (zoomOutComplete pr s) = None
  /\ isZoomed (zoomOutComplete pr s) = false
  /\ clearActiveCalls (zoomOutComplete pr s) = S (clearActiveCalls s)
  /\ timeline (zoomOutComplete pr s) = timeline s.
Proof.
  destruct s as [anim sel fovT cl fin cen qin qout zoomed n tl now].
  destruct anim, sel; repeat split; reflexivity.
Qed.

Lemma tick_delay_due (pr : props) (now start delay : Q)
      (s : frames) (c : camera) :
  timeline s = [DelayedCall start delay] ->
  start + delay <= now ->
  zoomed_out_of s (gsap_tick pr now (s, c)).
Proof.
  intros Ht Hnow. unfold gsap_tick. rewrite Ht. simpl.
  rewrite (due _ _ Hnow). unfold zoomed_out_of. cbn [fst].
  destruct (zoomOutComplete_resets pr (begin_tick now s))
    as (H1 & H2 & H3 & H4 & H5).
  repeat split; assumption.
Qed.

Lemma gsap_ticks_cons (pr : props) (now : Q) (a : list Q)
      (x : frames * camera) :
  gsap_ticks pr (now :: a) x = gsap_ticks pr a (gsap_tick pr now x).
Proof. reflexivity. Qed.

Lemma ticks_during_tween (pr : props) (start duration : Q) (target : vec3)
      (ease : Q -> Q) (a : list Q) :
  Forall (fun now => now < start + duration) a ->
  forall (from : option vec3) (s : frames) (c : camera),
    timeline s = [PositionTween start from target duration ease] ->
    let x := gsap_ticks pr a (s, c) in
    core (fst x) = core s
    /\ exists from',
        timeline (fst x) = [PositionTween start from' target duration ease].
Proof.
  induction 1 as [|now a Hnow _ IH]; intros from s c Ht; cbv zeta.
  - split; [reflexivity | now exists from].
  - rewrite gsap_ticks_cons.
    destruct (tick_during_tween pr now start duration from target ease s c
                Ht Hnow) as (Hcore & Htl & _).
    destruct (gsap_tick pr now (s, c)) as [s1 c1]. cbn [fst] in Hcore, Htl.
    destruct (IH _ s1 c1 Htl) as [Hcore' Htl'].
    split; [now rewrite Hcore' | exact Htl'].
Qed.

(** The tween keeps the start values it read at its first render. *)
Lemma ticks_keep_origin (pr : props) (start duration : Q) (target : vec3)
      (ease : Q -> Q) (a : list Q) :
  Forall (fun now => now < start + duration) a ->
  forall (from : option vec3) (s : frames) (c : camera),
    timeline s = [PositionTween start from target duration ease] ->
    let x := gsap_ticks pr a (s, c) in
    exists from',
      timeline (fst x) = [PositionTween start from' target duration ease]
      /\ match from' with Some f => f | None => position (snd x) end
         = match from with Some f => f | None => position c end.
Proof.
  induction 1 as [|now a Hnow _ IH]; intros from s c Ht; cbv zeta.
  - exists from. now split.
  - rewrite gsap_ticks_cons.
    destruct (tick_during_tween pr now start duration from target ease s c
                Ht Hnow) as (_ & Htl & _).
    destruct (gsap_tick pr now (s, c)) as [s1 c1]. cbn [fst] in Htl.
    destruct (IH _ s1 c1 Htl) as (from' & Htl' & Horigin).
    exists from'. split; [exact Htl' | exact Horigin].
Qed.

Lemma ticks_during_delay (pr : props) (start delay : Q) (b : list Q) :
  Forall (fun now => now < start + delay) b ->
  forall (s : frames) (c : camera),
    timeline s = [DelayedCall start delay] ->
    let x := gsap_ticks pr b (s, c) in
    core (fst x) = core s /\ timeline (fst x) = [DelayedCall start delay].
Proof.
  induction 1 as [|now b Hnow _ IH]; intros s c Ht; cbv zeta.
  - now split.
  - rewrite gsap_ticks_cons.
    destruct (tick_during_delay pr now start delay s c Ht Hnow)
      as [Hcore Htl].
    destruct (gsap_tick pr now (s, c)) as [s1 c1]. cbn [fst] in Hcore, Htl.
    destruct (IH s1 c1 Htl) as [Hcore' Htl'].
    split; [now rewrite Hcore' | exact Htl'].
Qed.

Lemma tick_when_idle (pr : props) (now : Q) (s : frames) (c : camera) :
  timeline s = [] -> gsap_tick pr now (s, c) = (begin_tick now s, c).
Proof. intros Ht. unfold gsap_tick. now rewrite Ht. Qed.

Lemma ticks_when_idle (pr : props) (rest : list Q) :
  forall (s : frames) (c : camera),
    timeline s = [] ->
    let x := gsap_ticks pr rest (s, c) in
    core (fst x) = core s /\ timeline (fst x) = [].
Proof.
  induction rest as [|now rest IH]; intros s c Ht; cbv zeta.
  - now split.
  - rewrite gsap_ticks_cons, (tick_when_idle pr now s c Ht).
    destruct (IH (begin_tick now s) c eq_refl) as [Hcore Htl].
    split; [now rewrite Hcore | exact Htl].
Qed.

Lemma core_zooming (s0 s : frames) (x : frames * camera) :
  core (fst x) = core s ->
  isAnimatingOut s = true ->
  selectedFrameId s = selectedFrameId s0 ->
  clearActiveCalls s = clearActiveCalls s0 ->
  zooming_out_of s0 x.
Proof.
  unfold core, zooming_out_of. intros H Ha Hs Hn.
  injection H as H1 H2 H3 _ _. repeat split; congruence.
Qed.

(** gsap's rounding, and the progress of the tween. *)
Lemma round6_spec (exact v : Q) :
  v == exact -> to_the_millionth exact (round6 v).
Proof.
  intros Hv. unfold to_the_millionth, round6.
  exists (Qfloor (v * 1000000 + 1 / 2)).
  split; [reflexivity|]. rewrite <- Hv. split.
  - apply Qfloor_le.
  - apply Qlt_le_trans
      with (inject_Z (Qfloor (v * 1000000 + 1 / 2) + 1)).
    + apply Qlt_floor.
    + rewrite inject_Z_plus. apply Qle_refl.
Qed.

Lemma tween_value_spec (from target : vec3) (ratio : Q) :
  to_the_millionth3
    (mkVec3 (vx from + (vx target - vx from) * ratio)
            (vy from + (vy target - vy from) * ratio)
            (vz from + (vz target - vz from) * ratio))
    (tween_value from target ratio).
Proof.
  unfold to_the_millionth3, tween_value. cbn [vx vy vz].
  repeat split; apply round6_spec; reflexivity.
Qed.

Lemma tween_value_end (from target : vec3) :
  to_the_millionth3 target (tween_value from target (power1_inOut 1)).
Proof.
  unfold to_the_millionth3, tween_value. cbn [vx vy vz].
  assert (H : power1_inOut 1 == 1) by reflexivity.
  repeat split; apply round6_spec; rewrite H; ring.
Qed.

Lemma first_half (now start : Q) :
  now < start + 0.6 -> Qltb ((now - start) / 1.2) 0.5 = true.
Proof.
  intros H. unfold Qltb.
  assert (Hp : (now - start) / 1.2 * 1.2 == now - start) by (field; discriminate).
  revert Hp. generalize ((now - start) / 1.2). intros p Hp.
  rewrite not_yet; [reflexivity | Lqa.lra].
Qed.

Lemma second_half (now start : Q) :
  start + 0.6 <= now -> Qltb ((now - start) / 1.2) 0.5 = false.
Proof.
  intros H. unfold Qltb.
  assert (Hp : (now - start) / 1.2 * 1.2 == now - start) by (field; discriminate).
  revert Hp. generalize ((now - start) / 1.2). intros p Hp.
  rewrite due; [reflexivity | Lqa.lra].
Qed.

(** C3. [triggerZoomOut] on a zoomed-in component hands gsap one tween
    of [camera.position] to [section2Position], of duration 1.2 and ease
    power1.inOut, and resets the field-of-view target.  While gsap's
    clock is before start + 1.2 nothing else happens, and after each of
    its ticks the position is the eased value, written to the millionth:
    with progress [p = (now - start) / 1.2] and [from] the position the
    camera had when the zoom out was triggered, the camera is at
    [from + (target - from) * 2 p^2] during the first 0.6 and at
    [from + (target - from) * (1 - 2 (1 - p)^2)] during the rest.  The
    first tick [t1] at or after start + 1.2 puts the camera at
    [section2Position], to the millionth, and schedules the delayed
    call; until [t1 + 0.5] nothing is cleared; the first tick [t2] at or
    after [t1 + 0.5] calls [clearActiveClasses] once, clears
    [isAnimatingOut] and [isZoomed] and resets [selectedFrameId] to
    null; no later tick calls it again. *)
Theorem zoom_out_completes_once (pr : props) (s : frames) (c : camera)
        (a : list Q) (t1 : Q) (b : list Q) (t2 : Q) (rest : list Q) :
  isAnimatingOut s = false ->
  truthy (selectedFrameId s) = true ->
  timeline s = [] ->
  Forall (fun now => now < gsap_time s + 1.2) a ->
  gsap_time s + 1.2 <= t1 ->
  Forall (fun now => now < t1 + 0.5) b ->
  t1 + 0.5 <= t2 ->
  let s1 := triggerZoomOut pr s in
  let at_t1 := gsap_ticks pr (a ++ [t1]) (s1, c) in
  let from := position c in
  let target := section2Position pr in
  (timeline s1
   = [PositionTween (gsap_time s) None target 1.2 power1_inOut]
   /\ targetFovRef s1 = initialFov pr
   /\ zooming_out_of s (s1, c))
  /\ (forall before now after,
        a = before ++ now :: after ->
        let p := (now - gsap_time s) / 1.2 in
        let at_now :=
          position (snd (gsap_ticks pr (before ++ [now]) (s1, c))) in
        (gsap_time s <= now -> now < gsap_time s + 0.6 ->
         to_the_millionth3
           (mkVec3 (vx from + (vx target - vx from) * (2 * p * p))
                   (vy from + (vy target - vy from) * (2 * p * p))
                   (vz from + (vz target - vz from) * (2 * p * p)))
           at_now)
        /\ (gsap_time s + 0.6 <= now ->
            to_the_millionth3
              (mkVec3
                 (vx from
                  + (vx target - vx from) * (1 - 2 * (1 - p) * (1 - p)))
                 (vy from
                  + (vy target - vy from) * (1 - 2 * (1 - p) * (1 - p)))
                 (vz from
                  + (vz target - vz from) * (1 - 2 * (1 - p) * (1 - p))))
              at_now))
  /\ zooming_out_of s (gsap_ticks pr a (s1, c))
  /\ (zooming_out_of s at_t1
      /\ to_the_millionth3 target (position (snd at_t1))
      /\ timeline (fst at_t1) = [DelayedCall t1 0.5])
  /\ zooming_out_of s (gsap_ticks pr (a ++ [t1] ++ b) (s1, c))
  /\ zoomed_out_of s (gsap_ticks pr (a ++ [t1] ++ b ++ [t2]) (s1, c))
  /\ zoomed_out_of s
       (gsap_ticks pr (a ++ [t1] ++ b ++ [t2] ++ rest) (s1, c)).
Proof.
  intros Ha Hsel Htl Hbefore Ht1 Hwait Ht2. cbv zeta.
  rewrite (triggerZoomOut_from_zoomIn pr s Ha Hsel). rewrite Htl.
  set (s1 := mkFrames _ _ _ _ _ _ _ _ _ _ _ _).
  assert (Htl1 : timeline s1
                 = [PositionTween (gsap_time s) None (section2Position pr)
                                  1.2 power1_inOut]) by reflexivity.
  assert (Hz : forall x s', core (fst x) = core s' -> core s' = core s1 ->
                            zooming_out_of s x).
  { intros x s' H1 H2. rewrite H2 in H1.
    apply (core_zooming s s1 x H1); reflexivity. }
  (* while the tween runs *)
  destruct (ticks_during_tween pr (gsap_time s) 1.2 (section2Position pr)
              power1_inOut a Hbefore None s1 c Htl1)
    as [Hcore_a [from_a Htl_a]].
  (* the tick that ends it *)
  rewrite !gsap_ticks_app.
  destruct (gsap_ticks pr a (s1, c)) as [sa ca] eqn:Ea.
  simpl in Hcore_a, Htl_a.
  pose proof (tick_tween_end pr t1 (gsap_time s) 1.2 from_a
                (section2Position pr) power1_inOut sa ca Htl_a Ht1) as Hend.
  cbv zeta in Hend. destruct Hend as (Hcore_1 & Htl_1 & Hpos_1).
  change (gsap_ticks pr [t1] (sa, ca)) with (gsap_tick pr t1 (sa, ca)).
  destruct (gsap_tick pr t1 (sa, ca)) as [s2 c2] eqn:E1.
  simpl in Hcore_1, Htl_1, Hpos_1.
  (* while the delayed call waits *)
  destruct (ticks_during_delay pr t1 0.5 b Hwait s2 c2 Htl_1)
    as [Hcore_b Htl_b].
  destruct (gsap_ticks pr b (s2, c2)) as [sb cb] eqn:Eb.
  simpl in Hcore_b, Htl_b.
  (* the tick that runs it *)
  pose proof (tick_delay_due pr t2 t1 0.5 sb cb Htl_b Ht2) as Hdone.
  change (gsap_ticks pr [t2] (sb, cb)) with (gsap_tick pr t2 (sb, cb)).
  destruct (gsap_tick pr t2 (sb, cb)) as [s3 c3] eqn:E2.
  assert (Hn : clearActiveCalls sb = clearActiveCalls s).
  { assert (H : core sb = core s1) by congruence.
    unfold core in H. injection H as _ _ H _ _. exact H. }
  assert (Hdone' : zoomed_out_of s (s3, c3)).
  { unfold zoomed_out_of in *. rewrite <- Hn. exact Hdone. }
  destruct Hdone' as (D1 & D2 & D3 & D4 & D5). simpl in D1, D2, D3, D4, D5.
  destruct (ticks_when_idle pr rest s3 c3 D5) as [Hcore_r Htl_r].
  assert (Hmotion : forall before now after,
             a = before ++ now :: after ->
             position (snd (gsap_ticks pr (before ++ [now]) (s1, c)))
             = tween_value (position c) (section2Position pr)
                 (power1_inOut ((now - gsap_time s) / 1.2))).
  { intros before now after Hsplit. rewrite Hsplit in Hbefore.
    apply Forall_app in Hbefore. destruct Hbefore as [Hpre Hnow].
    apply Forall_inv in Hnow.
    destruct (ticks_keep_origin pr (gsap_time s) 1.2 (section2Position pr)
                power1_inOut before Hpre None s1 c Htl1)
      as (from' & Htl' & Horigin).
    rewrite gsap_ticks_app.
    destruct (gsap_ticks pr before (s1, c)) as [sb' cb'].
    cbn [fst snd] in Htl', Horigin.
    change (gsap_ticks pr [now] (sb', cb'))
      with (gsap_tick pr now (sb', cb')).
    destruct (tick_during_tween pr now (gsap_time s) 1.2 from'
                (section2Position pr) power1_inOut sb' cb' Htl' Hnow)
      as (_ & _ & _ & Hpos).
    rewrite Hpos, Horigin. reflexivity. }
  split; [split; [exact Htl1 | split; [reflexivity|]]|].
  { apply (Hz _ s1); reflexivity. }
  split.
  { intros before now after Hsplit. split.
    - intros _ Hhalf. rewrite (Hmotion before now after Hsplit).
      unfold power1_inOut. rewrite (first_half _ _ Hhalf).
      apply tween_value_spec.
    - intros Hhalf. rewrite (Hmotion before now after Hsplit).
      unfold power1_inOut. rewrite (second_half _ _ Hhalf).
      apply tween_value_spec. }
  split; [apply (Hz _ s1); [exact Hcore_a | reflexivity]|].
  split.
  { split; [apply (Hz _ sa); [exact Hcore_1 | exact Hcore_a]|].
    split; [|exact Htl_1]. cbn [snd]. rewrite Hpos_1.
    apply tween_value_end. }
  split; [apply (Hz _ s2); [exact Hcore_b | congruence]|].
  split; [repeat split; assumption|].
  unfold core in Hcore_r. injection Hcore_r as R1 R2 R3 R4 _.
  unfold zoomed_out_of. cbn [fst]. repeat split; congruence.
Qed.

End Any_library.

Lemma parallax_blend_witness :
  let c := mkCamera (three := demo) (mkVec3 0 8 5) (mkVec3 0 8 5, mkVec3 0 0 0) 60 in
  let m' := handleMouseMove 300 400 (attach c) in
  mouseX m' = (300 / 400) * 2 - 1
  /\ -1 <= mouseX m' /\ mouseX m' <= 1
  /\ basePositionRef m' = basePositionRef (attach c).
Proof.
  cbv zeta.
  apply (parallax_blend (three := demo) 300 400
           (attach (mkCamera (three := demo) (mkVec3 0 8 5)
                             (mkVec3 0 8 5, mkVec3 0 0 0) 60))
           None
           (mkCamera (three := demo) (mkVec3 0 8 5)
                     (mkVec3 0 8 5, mkVec3 0 0 0) 60));
    vm_compute; first [reflexivity | discriminate].
Defined.

(** C9 as stated fails: a camera that is away from the base position in
    y is pulled back towards it by the frame's interpolation. *)
Lemma parallax_moves_y :
  let base := mkVec3 0 8 5 in
  let c := mkCamera (three := demo) (mkVec3 0 1 2)
                    (mkVec3 0 1 2, mkVec3 0 0 0) 60 in
  let c' := fst (mouse_onFrame (mkMouse 0 base) None c) in
  vy (position c') == 1.35 /\ ~ vy (position c') == vy (position c).
Proof. cbv zeta. split; vm_compute; [reflexivity | discriminate]. Qed.

(** Selecting ["f1"] from the mounted component zooms in on it; selecting
    ["f2"] then replaces the target without passing through idle. *)
Example select_then_reselect :
  let s1 := demo_zoomed_in in
  let s2 := select (three := demo) "f2" s1 in
  (selectedFrameId s1 = Some "f1"%string /\ clicked s1 = Some "f1"%string
   /\ targetFovRef s1 = 70 /\ isZoomed s1 = true
   /\ zoomInTargetQ s1
      = calculateLookAtQuaternion (three := demo)
          (finalZoomInPosition s1) (frameCenterWorld s1))
  /\ (selectedFrameId s2 = Some "f2"%string /\ clicked s2 = Some "f2"%string
      /\ isAnimatingOut s2 = false
      /\ finalZoomInPosition s2 = mkVec3 (0 + 1) (GOLDENRATIO / 2) 1.25).
Proof. cbv zeta. repeat split; reflexivity. Qed.

Lemma select_unresolved_witness :
  getObjectByName (Three := demo) "ghost" = None
  /\ clicked_resolved demo_zoomed_in
  /\ selectedFrameId (select (three := demo) "ghost" demo_zoomed_in)
     = Some "ghost"%string
  /\ targetFovRef (select (three := demo) "ghost" demo_zoomed_in) = 70.
Proof.
  assert (H1 : getObjectByName (Three := demo) "ghost" = None)
    by reflexivity.
  assert (H2 : clicked_resolved demo_zoomed_in) by reflexivity.
  pose proof (select_unresolved (three := demo) "ghost" demo_zoomed_in
                H1 H2) as H.
  cbv zeta in H.
  destruct H as (_ & (_ & Hfov & _) & _ & _ & Hsel).
  destruct (Hsel eq_refl) as (Hid & _).
  split; [exact H1|]. split; [exact H2|]. split; [exact Hid|].
  rewrite Hfov. reflexivity.
Defined.

(** C8 as stated fails: after selecting a name that resolves to nothing
    the selected id is that name, and a pointer-missed event, which did
    nothing before, now starts a zoom out. *)
Lemma select_unresolved_changes_state :
  getObjectByName (Three := demo) "ghost" = None
  /\ selectedFrameId demo_mounted = None
  /\ selectedFrameId (select (three := demo) "ghost" demo_mounted)
     = Some "ghost"%string
  /\ select (three := demo) "ghost" demo_mounted <> demo_mounted
  /\ isAnimatingOut (onPointerMissed demo_props demo_mounted) = false
  /\ isAnimatingOut
       (onPointerMissed demo_props
          (select (three := demo) "ghost" demo_mounted)) = true.
Proof.
  repeat split; try reflexivity.
  intros H. apply (f_equal selectedFrameId) in H. discriminate H.
Qed.

(** C6 as stated fails: with the page's heading as look-at reference and
    the component zoomed in on ["f1"], both subscribers write the
    orientation in the same frame, and the orientation the frame ends
    with depends on the look-at. *)
Lemma two_orientation_writers :
  let frame lookAtRef :=
    render_frame (three := demo) (attach demo_camera) lookAtRef
                 demo_zoomed_in (1 # 60) demo_camera in
  orientation_writers (snd (frame (Some "heading"%string)))
  = [Parallax; StateMachine]
  /\ ~ single_orientation_writer (snd (frame (Some "heading"%string)))
  /\ quaternion (fst (frame (Some "heading"%string)))
     <> quaternion (fst (frame None)).
Proof.
  cbv zeta. split; [reflexivity|]. split.
  - unfold single_orientation_writer. vm_compute. discriminate.
  - vm_compute. discriminate.
Qed.

Lemma zoom_out_completes_once_witness :
  zoomed_out_of demo_zoomed_in
    (gsap_ticks demo_props
       ([0.5; 1] ++ [1.25] ++ [1.5] ++ [1.8] ++ [2; 3])
       (triggerZoomOut demo_props demo_zoomed_in, demo_camera)).
Proof.
  assert (Ha : Forall (fun now => now < gsap_time demo_zoomed_in + 1.2)
                      [0.5; 1])
    by (repeat constructor).
  assert (Hb : Forall (fun now : Q => now < 1.25 + 0.5) [1.5])
    by (repeat constructor).
  assert (H1 : gsap_time demo_zoomed_in + 1.2 <= 1.25)
    by (vm_compute; discriminate).
  assert (H2 : 1.25 + 0.5 <= 1.8) by (vm_compute; discriminate).
  apply (zoom_out_completes_once (three := demo) demo_props demo_zoomed_in
           demo_camera [0.5; 1] 1.25 [1.5] 1.8 [2; 3]
           eq_refl eq_refl eq_refl Ha H1 Hb H2).
Defined.

(** The whole zoom out on the demo scene: cleared once, back to idle,
    camera at the secondary viewpoint. *)
Example zoom_out_run :
  let x := gsap_ticks demo_props [0.5; 1; 1.25; 1.5; 1.8]
                      (triggerZoomOut demo_props demo_zoomed_in,
                       demo_camera) in
  clearActiveCalls (fst x) = 1%nat
  /\ selectedFrameId (fst x) = None
  /\ isAnimatingOut (fst x) = false
  /\ vx (position (snd x)) == vx (section2Position demo_props)
  /\ vy (position (snd x)) == vy (section2Position demo_props)
  /\ vz (position (snd x)) == vz (section2Position demo_props).
Proof. cbv zeta. repeat split; reflexivity. Qed.

End SceneFacts.

(* ================================================================== *)
(** * Properties of the particle simulator                             *)
(* ================================================================== *)

Module ParticlesFacts.
Import Particles.
Local Open Scope R_scope.

(** *** Reads and writes of a buffer *)

Lemma length_set (a : buffer) (i : nat) (v : R) :
  List.length (set a i v) = List.length a.
Proof.
  revert i. induction a as [|x a IH]; intros [|i]; simpl; auto.
Qed.

Lemma get_set_same (a : buffer) (i : nat) (v : R) :
  (i < List.length a)%nat -> get (set a i v) i = v.
Proof.
  unfold get. revert i.
  induction a as [|x a IH]; intros [|i] H; simpl in *; try lia; auto.
  apply IH. lia.
Qed.

Lemma get_set_other (a : buffer) (i j : nat) (v : R) :
  i <> j -> get (set a i v) j = get a j.
Proof.
  unfold get. revert i j.
  induction a as [|x a IH]; intros [|i] [|j] H; simpl; auto; try lia.
Qed.

Create Rewrite HintDb buffer.
#[local] Hint Rewrite length_set : buffer.
#[local] Hint Rewrite get_set_same using (rewrite ?length_set; lia) : buffer.
#[local] Hint Rewrite get_set_other using lia : buffer.

Ltac buffer := cbn [positions velocities]; autorewrite with buffer.

(** *** The table *)

Lemma preCalculatedValues_nth (o : options) (count p : nat) :
  (p < count)%nat ->
  nth p (preCalculatedValues o count) no_entry = preCalcEntry o p.
Proof.
  intros H. unfold preCalculatedValues.
  rewrite (nth_indep _ no_entry (preCalcEntry o 0))
    by (rewrite length_map, length_seq; exact H).
  rewrite map_nth, seq_nth by exact H. reflexivity.
Qed.

Lemma particleIndex_of (p : nat) : (3 * p / 3)%nat = p.
Proof. rewrite Nat.mul_comm. apply Nat.div_mul. discriminate. Qed.

(** *** The floating motion *)

(** C4 as stated fails on y: for the second particle at time 0 the code
    adds [cos (0.1 * 0.7) * amplitude], not [cos (0 + 0.1) * amplitude]. *)
Lemma floating_motion_scales_phase :
  let a := mkArrays (new_buffer 2) (new_buffer 2) in
  let pc := nth 1 (preCalculatedValues default_options 2) no_entry in
  let pos' := positions (floating_motion 0 pc 3 a) in
  get pos' 4
  <> get (positions a) 4 + cos (0 * speed pc * 0.7 + phase pc) * amplitude pc.
Proof.
  cbv zeta. unfold floating_motion. buffer.
  rewrite (preCalculatedValues_nth default_options 2 1) by lia.
  unfold get. simpl.
  assert (Hpi : 2 < PI) by (pose proof PI2_1; lra).
  assert (Hcos : cos (1 * 0.1) < cos ((0 * (0.5 + 1 * 0.3) + 1 * 0.1) * 0.7)).
  { apply cos_decreasing_1; lra. }
  intros H.
  replace (0 * (0.5 + 1 * 0.3) * 0.7 + 1 * 0.1) with (1 * 0.1) in H by lra.
  nra.
Qed.

(** *** The boundary policy *)

Ltac phase_cases :=
  repeat match goal with
         | |- context [Rlt_dec ?x ?y] => destruct (Rlt_dec x y)
         end.

Lemma add_velocity_sized (count i : nat) (a : arrays) :
  well_sized count a -> well_sized count (add_velocity i a).
Proof. intros [H1 H2]. unfold well_sized, add_velocity. buffer. auto. Qed.

Lemma floating_motion_sized (count i : nat) (time : R) (pc : preCalc)
      (a : arrays) :
  well_sized count a -> well_sized count (floating_motion time pc i a).
Proof. intros [H1 H2]. unfold well_sized, floating_motion. buffer. auto. Qed.

Lemma dampen_sized (o : options) (count i : nat) (a : arrays) :
  well_sized count a -> well_sized count (dampen o i a).
Proof. intros [H1 H2]. unfold well_sized, dampen. buffer. auto. Qed.

Lemma keep_in_circle_sized (o : options) (count i : nat) (a : arrays) :
  well_sized count a -> well_sized count (keep_in_circle o i a).
Proof.
  intros [H1 H2]. unfold well_sized, keep_in_circle.
  phase_cases; buffer; auto.
Qed.

Lemma keep_in_z_sized (o : options) (count i : nat) (a : arrays) :
  well_sized count a -> well_sized count (keep_in_z o i a).
Proof.
  intros [H1 H2]. unfold well_sized, keep_in_z. phase_cases; buffer; auto.
Qed.

Lemma update_body_sized (o : options) (values : list preCalc) (time : R)
      (count i : nat) (a : arrays) :
  well_sized count a -> well_sized count (update_body o values time i a).
Proof.
  intros H. unfold update_body.
  apply keep_in_z_sized, keep_in_circle_sized, dampen_sized,
    floating_motion_sized, add_velocity_sized, H.
Qed.

(** An iteration writes only the three slots of its particle. *)
Lemma update_body_elsewhere (o : options) (values : list preCalc) (time : R)
      (i j : nat) (a : arrays) :
  (j < i \/ i + 2 < j)%nat ->
  get (positions (update_body o values time i a)) j = get (positions a) j.
Proof.
  intros Hj.
  unfold update_body, keep_in_z, keep_in_circle, dampen, floating_motion,
    add_velocity.
  phase_cases; buffer; reflexivity.
Qed.

Lemma keep_in_circle_inside (o : options) (i : nat) (a : arrays) :
  0 <= maxRadius o ->
  (i + 1 < List.length (positions a))%nat ->
  let pos' := positions (keep_in_circle o i a) in
  sqrt (get pos' i * get pos' i + get pos' (i + 1) * get pos' (i + 1))
  <= maxRadius o.
Proof.
  intros Hr Hlen. cbv zeta. unfold keep_in_circle.
  destruct (Rlt_dec _ _) as [Hout | Hin].
  - buffer.
    set (angle := atan2 _ _).
    rewrite (sqrt_lem_1 _ (maxRadius o * 0.9)).
    + lra.
    + pose proof (sin2_cos2 angle) as H. unfold Rsqr in H. nra.
    + lra.
    + pose proof (sin2_cos2 angle) as H. unfold Rsqr in H. nra.
  - lra.
Qed.

Lemma sign_bounded (z b : R) : 0 <= b -> Rabs (sign z * b) <= b.
Proof.
  intros Hb. unfold sign.
  destruct (Rlt_dec 0 z); [|destruct (Rlt_dec z 0)];
    unfold Rabs; destruct (Rcase_abs _); lra.
Qed.

Lemma keep_in_z_inside (o : options) (i : nat) (a : arrays) :
  0 <= bounds_z o ->
  (i + 2 < List.length (positions a))%nat ->
  Rabs (get (positions (keep_in_z o i a)) (i + 2)) <= bounds_z o.
Proof.
  intros Hb Hlen. unfold keep_in_z.
  destruct (Rlt_dec _ _) as [Hout | Hin].
  - buffer. now apply sign_bounded.
  - lra.
Qed.

Lemma keep_in_z_plane (o : options) (i j : nat) (a : arrays) :
  j <> (i + 2)%nat ->
  get (positions (keep_in_z o i a)) j = get (positions a) j.
Proof.
  intros Hj. unfold keep_in_z. phase_cases; buffer; reflexivity.
Qed.

(** One iteration puts its particle inside the cylinder. *)
Lemma update_body_bounded (o : options) (values : list preCalc) (time : R)
      (count p : nat) (a : arrays) :
  0 <= maxRadius o -> 0 <= bounds_z o ->
  well_sized count a -> (p < count)%nat ->
  bounded o (update_body o values time (3 * p) a) p.
Proof.
  intros Hr Hb Hsize Hp. unfold bounded, planar_distance, height, update_body.
  set (b := dampen o (3 * p) _).
  assert (Hb_size : well_sized count b).
  { apply dampen_sized, floating_motion_sized, add_velocity_sized, Hsize. }
  pose proof (keep_in_circle_sized o count (3 * p) b Hb_size) as [Hc _].
  destruct Hb_size as [Hlen _].
  split.
  - rewrite !keep_in_z_plane by lia.
    apply keep_in_circle_inside; [exact Hr | lia].
  - apply keep_in_z_inside; [exact Hb | lia].
Qed.

(** *** The loop and the ticks *)

Lemma update_loop_sized (o : options) (values : list preCalc) (time : R)
      (count n : nat) :
  forall (i : nat) (a : arrays),
    well_sized count a -> well_sized count (update_loop o values time n i a).
Proof.
  induction n as [|n IH]; intros i a H; simpl; [exact H|].
  apply IH, update_body_sized, H.
Qed.

Lemma update_loop_before (o : options) (values : list preCalc) (time : R)
      (n : nat) :
  forall (i j : nat) (a : arrays),
    (j < i)%nat ->
    get (positions (update_loop o values time n i a)) j
    = get (positions a) j.
Proof.
  induction n as [|n IH]; intros i j a Hj; simpl; [reflexivity|].
  rewrite IH by lia. apply update_body_elsewhere. now left.
Qed.

Lemma bounded_same_slots (o : options) (a b : arrays) (p : nat) :
  (forall j, (j < 3 * p + 3)%nat ->
             get (positions b) j = get (positions a) j) ->
  bounded o a p -> bounded o b p.
Proof.
  intros H. unfold bounded, planar_distance, height.
  rewrite !H by lia. auto.
Qed.

Lemma update_loop_bounded (o : options) (values : list preCalc) (time : R)
      (count n : nat) :
  0 <= maxRadius o -> 0 <= bounds_z o ->
  forall (k : nat) (a : arrays) (p : nat),
    well_sized count a ->
    (k + n <= count)%nat -> (k <= p < k + n)%nat ->
    bounded o (update_loop o values time n (3 * k) a) p.
Proof.
  intros Hr Hb. induction n as [|n IH]; intros k a p Hsize Hkn Hp; [lia|].
  cbn [update_loop]. replace (3 * k + 3)%nat with (3 * S k)%nat by lia.
  destruct (Nat.eq_dec p k) as [-> | Hne].
  - apply (bounded_same_slots o (update_body o values time (3 * k) a)).
    + intros j Hj. apply update_loop_before. lia.
    + apply (update_body_bounded o values time count); auto. lia.
  - apply IH; [now apply update_body_sized | lia | lia].
Qed.

Lemma updateParticles_bounded (o : options) (count : nat) (time : R)
      (a : arrays) (p : nat) :
  0 <= maxRadius o -> 0 <= bounds_z o ->
  well_sized count a -> (p < count)%nat ->
  bounded o (updateParticles o count time a) p.
Proof.
  intros Hr Hb Hsize Hp. unfold updateParticles.
  change 0%nat with (3 * 0)%nat.
  apply (update_loop_bounded o _ time count count Hr Hb 0 a p Hsize); lia.
Qed.

Lemma advance_sized (o : options) (count : nat) (times : list R) :
  forall a, well_sized count a -> well_sized count (advance o count times a).
Proof.
  induction times as [|t times IH]; intros a H; simpl; [exact H|].
  apply IH. unfold updateParticles. now apply update_loop_sized.
Qed.

Lemma init_loop_sized (count n : nat) (rnd : nat -> R) :
  forall (i k : nat) (a : arrays),
    well_sized count a -> well_sized count (init_loop n i k rnd a).
Proof.
  induction n as [|n IH]; intros i k a [H1 H2]; simpl; [now split|].
  apply IH. unfold well_sized. buffer. auto.
Qed.

Lemma initialize_sized (count : nat) (rnd : nat -> R) :
  well_sized count (initialize count rnd).
Proof.
  apply init_loop_sized. unfold well_sized, new_buffer. simpl.
  now rewrite repeat_length.
Qed.

Lemma advance_last (o : options) (count : nat) (earlier : list R)
      (time : R) (a : arrays) :
  advance o count (earlier ++ [time]) a
  = updateParticles o count time (advance o count earlier a).
Proof. unfold advance. now rewrite fold_left_app. Qed.

(** Behind [useFrameRate(updateParticles, 30)] the particles are advanced
    once per recorded invocation, at its elapsed time. *)
Lemma scheduled_is_advance (o : options) (count : nat)
      (ts : list FrameRate.tick) (a : arrays) :
  scheduled o count ts a
  = advance o count
            (map (fun c => Q2R (FrameRate.call_time c))
                 (snd (FrameRate.run 30%Q ts)))
            a.
Proof.
  unfold scheduled. rewrite FrameRateFacts.frames_replay. cbn [snd].
  unfold FrameRate.replay, advance.
  generalize (snd (FrameRate.run 30%Q ts)). intros log. revert a.
  induction log as [|c log IH]; intros a; [reflexivity|].
  cbn [map fold_left]. apply IH.
Qed.

Lemma scheduled_bounded (o : options) (count : nat)
      (ts : list FrameRate.tick) (a : arrays) (p : nat) :
  0 <= maxRadius o -> 0 <= bounds_z o ->
  well_sized count a ->
  snd (FrameRate.run 30%Q ts) <> [] ->
  (p < count)%nat ->
  bounded o (scheduled o count ts a) p.
Proof.
  intros Hr Hb Hsize Hfired Hp. rewrite scheduled_is_advance.
  destruct (snd (FrameRate.run 30%Q ts)) as [|c log] using rev_ind;
    [congruence|].
  rewrite map_app. cbn [map]. rewrite advance_last.
  apply updateParticles_bounded; try assumption.
  now apply advance_sized.
Qed.


End ParticlesFacts.

(* ================================================================== *)
(** * More on the scheduler and its users                              *)
(* ================================================================== *)

Module ScheduleFacts.
Import FrameRate FrameRateFacts Schedule.
Local Open Scope Q_scope.

Lemma total_delta_snoc (log : list call) (c : call) :
  total_delta (log ++ [c]) == total_delta log + call_delta c.
Proof.
  unfold total_delta. induction log as [|x log IH]; simpl.
  - Lqa.lra.
  - rewrite IH. Lqa.lra.
Qed.

(** X1. The deltas handed to the callback add up to the elapsed time of
    its latest invocation: whatever the rate and however irregular the
    frames, no time is lost or counted twice between invocations. *)
Theorem deltas_add_up (fps : Q) (ts : list tick) :
  total_delta (snd (run fps ts)) == last_fire (snd (run fps ts)).
Proof.
  induction ts as [|t pre IH] using rev_ind; [reflexivity|].
  rewrite run_snoc.
  pose proof (lastTimeRef_is_last_fire fps pre) as Hlast.
  destruct (run fps pre) as [r log]. cbn [fst snd] in *.
  destruct (reached (frameRef r + delta t) (targetInterval fps)) eqn:E.
  - rewrite (useFrameRate_fire fps t r log E). cbn [snd].
    rewrite total_delta_snoc, last_fire_snoc, IH, Hlast. cbn.
    Lqa.lra.
  - rewrite (useFrameRate_skip fps t r log E). exact IH.
Qed.

(** *** Frames of equal length *)

Lemma succ_below (k n : nat) :
  (S (k mod n) < n)%nat ->
  (S k / n = k / n)%nat /\ (S k mod n = S (k mod n))%nat.
Proof.
  intros H. assert (Hn : n <> 0%nat) by lia.
  pose proof (Nat.div_mod k n Hn) as Hk.
  pose proof (Nat.div_mod (S k) n Hn) as HSk.
  pose proof (Nat.mod_upper_bound (S k) n Hn) as Hup.
  apply (Nat.div_mod_unique n); lia.
Qed.

Lemma succ_wraps (k n : nat) :
  S (k mod n) = n ->
  (S k / n = S (k / n))%nat /\ (S k mod n = 0)%nat.
Proof.
  intros H. assert (Hn : n <> 0%nat) by lia.
  pose proof (Nat.div_mod k n Hn) as Hk.
  pose proof (Nat.div_mod (S k) n Hn) as HSk.
  pose proof (Nat.mod_upper_bound (S k) n Hn) as Hup.
  apply (Nat.div_mod_unique n); lia.
Qed.

Lemma run_steady_snoc (fps d : Q) (es : list Q) (e : Q) :
  run fps (steady d (es ++ [e]))
  = useFrameRate record_call fps true (mkTick e d) (run fps (steady d es)).
Proof. unfold steady. rewrite map_app. apply run_snoc. Qed.

Lemma of_nat_succ (k : nat) : of_nat (S k) == of_nat k + 1.
Proof.
  unfold of_nat. rewrite Nat2Z.inj_succ, <- Z.add_1_r, inject_Z_plus.
  reflexivity.
Qed.

Lemma of_nat_le (j k : nat) : (j <= k)%nat -> of_nat j <= of_nat k.
Proof.
  intros H. unfold of_nat. rewrite <- Zle_Qle. now apply Nat2Z.inj_le.
Qed.

(** *** AnimatedStars *)

Lemma stars_invariant (ts : list tick) (r0 : AnimatedStars.rotation) :
  let after :=
    render_ticks AnimatedStars.rotate 30 true ts (initial, Some r0) in
  exists r,
    snd after = Some r
    /\ AnimatedStars.rot_y r
       == AnimatedStars.rot_y r0 + lastTimeRef (fst after) * 0.01
    /\ AnimatedStars.rot_x r
       == AnimatedStars.rot_x r0 + lastTimeRef (fst after) * 0.002.
Proof.
  cbv zeta. induction ts as [|t pre IH] using rev_ind.
  - exists r0. cbn. repeat split; Lqa.lra.
  - unfold render_ticks in *. rewrite fold_left_app. cbn [fold_left].
    destruct (fold_left _ pre _) as [refs w]. cbn [fst snd] in IH.
    destruct IH as (r & -> & Hy & Hx).
    unfold useFrameRate. cbn [negb].
    destruct (reached (frameRef refs + delta t) (targetInterval 30)).
    + cbn [fst snd AnimatedStars.rotate lastTimeRef].
      eexists. split; [reflexivity|].
      cbn [AnimatedStars.rot_x AnimatedStars.rot_y]. rewrite Hy, Hx.
      split; Lqa.lra.
    + exists r. cbn [fst snd lastTimeRef]. repeat split; assumption.
Qed.

(** X3. The stars turn with the clock: once mounted, after any render
    ticks their rotation about y is 0.01 and about x 0.002 times the
    elapsed time of the latest invocation, however the frames were
    spaced and whichever of them were skipped.  While the group is not
    mounted nothing is rotated. *)
Theorem stars_follow_the_clock (ts : list tick)
        (r0 : AnimatedStars.rotation) :
  AnimatedStars.frames ts None = None
  /\ exists r,
      AnimatedStars.frames ts (Some r0) = Some r
      /\ AnimatedStars.rot_y r
         == AnimatedStars.rot_y r0 + last_fire (snd (run 30 ts)) * 0.01
      /\ AnimatedStars.rot_x r
         == AnimatedStars.rot_x r0 + last_fire (snd (run 30 ts)) * 0.002.
Proof.
  split.
  - unfold AnimatedStars.frames. rewrite frames_replay. cbn [snd].
    unfold replay. induction (snd (run 30 ts)) as [|c log IH];
      [reflexivity | exact IH].
  - destruct (stars_invariant ts r0) as (r & Hr & Hy & Hx).
    exists r. unfold AnimatedStars.frames. split; [exact Hr|].
    rewrite frames_replay in Hy, Hx. cbn [fst] in Hy, Hx.
    rewrite (lastTimeRef_is_last_fire 30 ts) in Hy, Hx.
    split; assumption.
Qed.

End ScheduleFacts.

(* ================================================================== *)
(** * The scheduler in double precision                                *)
(* ================================================================== *)

Module Float64Facts.
Import FrameRate FrameRateFacts Schedule ScheduleFacts Float64.
Local Open Scope Q_scope.

(** With no rounding the hook is that of [FrameRate]. *)
Lemma unrounded_hook (W : Type) (callback : Q -> Q -> W -> W)
      (fps : number) (enabled : bool) (t : tick) (s : refs * W) :
  Float64.useFrameRate (fun x => x) callback fps enabled t s
  = FrameRate.useFrameRate callback fps enabled t s.
Proof. destruct s as [r w]. destruct fps; reflexivity. Qed.

Section Any_rounding.

Variable fl : Q -> Q.

Lemma rounded_run_snoc (fps : number) (pre : list tick) (t : tick) :
  Float64.run fl fps (pre ++ [t])
  = Float64.useFrameRate fl record_call fps true t (Float64.run fl fps pre).
Proof.
  unfold Float64.run, Float64.render_ticks. now rewrite fold_left_app.
Qed.

Lemma rounded_interval (fps : Q) :
  0 < fps -> Float64.targetInterval fl fps = Finite (fl (1 / fps)).
Proof.
  intros H. cbn [Float64.targetInterval].
  destruct (Qeq_bool fps 0) eqn:E; [|reflexivity].
  apply Qeq_bool_iff in E. rewrite E in H. discriminate H.
Qed.

Lemma rounded_fire (fps : Q) (t : tick) (r : refs) (log : list call) :
  0 < fps ->
  fl (1 / fps) <= fl (frameRef r + delta t) ->
  Float64.useFrameRate fl record_call fps true t (r, log)
  = (mkRefs 0 (elapsedTime t),
     log ++ [mkCall (elapsedTime t) (fl (elapsedTime t - lastTimeRef r))]).
Proof.
  intros Hfps H. unfold Float64.useFrameRate. cbn [negb].
  rewrite (rounded_interval fps Hfps). cbn [reached].
  apply Qle_bool_iff in H. now rewrite H.
Qed.

Lemma rounded_skip (fps : Q) (t : tick) (r : refs) (log : list call) :
  0 < fps ->
  fl (frameRef r + delta t) < fl (1 / fps) ->
  Float64.useFrameRate fl record_call fps true t (r, log)
  = (mkRefs (fl (frameRef r + delta t)) (lastTimeRef r), log).
Proof.
  intros Hfps H. unfold Float64.useFrameRate. cbn [negb].
  rewrite (rounded_interval fps Hfps). cbn [reached].
  destruct (Qle_bool _ _) eqn:E; [|reflexivity].
  apply Qle_bool_iff in E. now apply Qlt_not_le in H.
Qed.

(** *** Powers *)

Lemma power_above (x : Q) (n : nat) : 1 <= x -> 1 <= power x n.
Proof.
  intros H. induction n as [|n IH]; cbn [power]; [Lqa.lra | Lqa.nra].
Qed.

Lemma power_below (x : Q) (n : nat) :
  0 <= x -> x <= 1 -> 0 <= power x n /\ power x n <= 1.
Proof.
  intros H0 H1. induction n as [|n [IH0 IH1]]; cbn [power];
    [split; Lqa.lra | split; Lqa.nra].
Qed.

Lemma power_grows (x : Q) (j m : nat) :
  1 <= x -> (j <= m)%nat -> power x j <= power x m.
Proof.
  intros H Hjm. induction Hjm as [|m Hjm IH]; [Lqa.lra|].
  cbn [power]. pose proof (power_above x j H). Lqa.nra.
Qed.

Lemma next_above (u d j P acc : Q) :
  0 <= u -> 0 < d -> 0 <= j -> 1 <= P ->
  acc <= j * d * P ->
  (acc + d) * (1 + u) <= (j + 1) * d * (P * (1 + u)).
Proof.
  intros Hu Hd Hj HP Hacc.
  assert (H : acc + d <= (j + 1) * d * P) by Lqa.nra.
  Lqa.nra.
Qed.

Lemma next_below (u d j p acc : Q) :
  0 <= u -> u <= 1 -> 0 < d -> 0 <= j -> 0 <= p -> p <= 1 ->
  j * d * p <= acc ->
  (j + 1) * d * (p * (1 - u)) <= (acc + d) * (1 - u).
Proof.
  intros Hu Hu1 Hd Hj Hp0 Hp1 Hacc.
  assert (H : (j + 1) * d * p <= acc + d) by Lqa.nra.
  Lqa.nra.
Qed.

Lemma of_nat_nonneg (k : nat) : 0 <= of_nat k.
Proof. change 0 with (of_nat 0). apply of_nat_le. lia. Qed.

(** X2. When every frame lasts [d] and the rounded interval lies clear of
    the multiples of [d] - above what [n - 1] rounded additions of [d]
    can reach and within what [n] of them must reach - the callback
    runs on every [n]-th frame, neither more nor less often: after [k]
    frames it has run [k / n] times, and the accumulator holds
    [(k mod n) * d] up to the rounding of [k mod n] additions. *)
Theorem every_nth_frame (u fps d : Q) (n : nat) (es : list Q) :
  accurate fl u -> 0 <= u -> u <= 1 ->
  0 < fps -> 0 < d -> (0 < n)%nat ->
  (of_nat n - 1) * d * power (1 + u) (n - 1) < fl (1 / fps) ->
  fl (1 / fps) <= of_nat n * d * power (1 - u) n ->
  let after := Float64.run fl fps (steady d es) in
  let j := (List.length es mod n)%nat in
  List.length (snd after) = (List.length es / n)%nat
  /\ of_nat j * d * power (1 - u) j <= frameRef (fst after)
  /\ frameRef (fst after) <= of_nat j * d * power (1 + u) j.
Proof.
  intros Hacc Hu Hu1 Hfps Hd Hn Hlow Hhigh. cbv zeta.
  induction es as [|e es IH] using rev_ind.
  - cbn [List.length]. rewrite Nat.Div0.div_0_l, Nat.Div0.mod_0_l.
    change (of_nat 0) with 0.
    change (frameRef (fst (Float64.run fl fps (steady d [])))) with 0.
    cbn [power]. split; [reflexivity|]. split; Lqa.lra.
  - unfold steady. rewrite map_app. cbn [map].
    rewrite rounded_run_snoc, length_app. cbn [List.length].
    rewrite Nat.add_1_r. fold (steady d es).
    destruct (Float64.run fl fps (steady d es)) as [r log].
    cbn [fst snd] in IH. destruct IH as (IHlen & IHlow & IHup).
    set (k := List.length es) in *.
    assert (Hm : (k mod n < n)%nat) by (apply Nat.mod_upper_bound; lia).
    pose proof (of_nat_nonneg (k mod n)) as Hj.
    pose proof (power_above (1 + u) (k mod n)) as HP.
    pose proof (power_below (1 - u) (k mod n)) as Hp.
    assert (Hr : 0 <= frameRef r).
    { eapply Qle_trans; [|exact IHlow].
      destruct Hp as [Hp0 _]; [Lqa.lra | Lqa.lra |].
      apply Qmult_le_0_compat; [|exact Hp0].
      apply Qmult_le_0_compat; [exact Hj | Lqa.lra]. }
    destruct (Hacc (frameRef r + d)) as [Hfl_low Hfl_up]; [Lqa.lra|].
    assert (Hnext_up : fl (frameRef r + d)
                       <= of_nat (S (k mod n)) * d
                          * power (1 + u) (S (k mod n))).
    { eapply Qle_trans; [exact Hfl_up|]. rewrite of_nat_succ.
      cbn [power]. apply next_above; try assumption. apply HP. Lqa.lra. }
    assert (Hnext_low : of_nat (S (k mod n)) * d
                        * power (1 - u) (S (k mod n))
                        <= fl (frameRef r + d)).
    { eapply Qle_trans; [|exact Hfl_low]. rewrite of_nat_succ.
      cbn [power]. destruct Hp as [Hp0 Hp1]; [Lqa.lra | Lqa.lra |].
      now apply next_below. }
    destruct (Nat.eq_dec (S (k mod n)) n) as [Hwrap | Hbelow].
    + destruct (succ_wraps k n Hwrap) as [Hdiv Hmod].
      rewrite rounded_fire; [|exact Hfps|].
      * cbn [fst snd frameRef]. rewrite length_app, IHlen, Hdiv, Hmod.
        cbn [List.length]. change (of_nat 0) with 0.
        split; [lia|]. split; Lqa.lra.
      * cbn [delta]. rewrite Hwrap in Hnext_low.
        eapply Qle_trans; [exact Hhigh | exact Hnext_low].
    + assert (Hlt : (S (k mod n) < n)%nat) by lia.
      destruct (succ_below k n Hlt) as [Hdiv Hmod].
      rewrite rounded_skip; [|exact Hfps|].
      * cbn [fst snd frameRef delta]. rewrite IHlen, Hdiv, Hmod.
        split; [reflexivity|]. split; assumption.
      * cbn [delta]. eapply Qle_lt_trans; [exact Hnext_up|].
        eapply Qle_lt_trans; [|exact Hlow].
        assert (Hcount : of_nat (S (k mod n)) <= of_nat n - 1).
        { destruct n as [|n']; [lia|]. rewrite (of_nat_succ n').
          assert (of_nat (S (k mod S n')) <= of_nat n')
            by (apply of_nat_le; lia).
          Lqa.lra. }
        assert (Hpow : power (1 + u) (S (k mod n))
                       <= power (1 + u) (n - 1)).
        { apply power_grows; [Lqa.lra | lia]. }
        pose proof (of_nat_nonneg (S (k mod n))) as Hj'.
        pose proof (power_above (1 + u) (S (k mod n))) as HP'.
        assert (H1 : of_nat (S (k mod n)) * d <= (of_nat n - 1) * d)
          by Lqa.nra.
        assert (H2 : 0 <= of_nat (S (k mod n)) * d) by Lqa.nra.
        assert (H3 : 1 <= power (1 + u) (S (k mod n)))
          by (apply HP'; Lqa.lra).
        Lqa.nra.
Qed.

End Any_rounding.

Lemma shrink_accurate : accurate shrink (1 # 9007199254740992).
Proof.
  intros x Hx. unfold shrink. split; [Lqa.lra | Lqa.nra].
Qed.

Lemma every_nth_frame_witness :
  List.length
    (snd (Float64.run shrink 25 (steady (1 # 60) [1; 2; 3; 4; 5; 6; 7])))
  = (List.length [1; 2; 3; 4; 5; 6; 7] / 3)%nat.
Proof.
  apply (every_nth_frame shrink (1 # 9007199254740992) 25 (1 # 60) 3
           [1; 2; 3; 4; 5; 6; 7]).
  - exact shrink_accurate.
  - discriminate.
  - discriminate.
  - reflexivity.
  - reflexivity.
  - lia.
  - vm_compute. reflexivity.
  - vm_compute. discriminate.
Defined.

End Float64Facts.

Module AdaptiveFacts.
Import FrameRate AdaptiveFrameRate.
Local Open Scope Q_scope.

Lemma Qltb_lt (a b : Q) : Scene.Qltb a b = true <-> a < b.
Proof.
  unfold Scene.Qltb. rewrite negb_true_iff, <- not_true_iff_false.
  rewrite Qle_bool_iff. split; [apply Qnot_le_lt | apply Qlt_not_le].
Qed.

Lemma Qltb_ge (a b : Q) : Scene.Qltb a b = false <-> b <= a.
Proof.
  unfold Scene.Qltb. rewrite negb_false_iff. apply Qle_bool_iff.
Qed.

(** X4. With rates ordered [lowFps <= mediumFps <= highFps], a better
    measurement never selects a lower rate, whatever the threshold. *)
Theorem adjust_monotone (o : options) (a b : Q) :
  lowFps o <= mediumFps o -> mediumFps o <= highFps o ->
  a <= b ->
  adjust o a <= adjust o b.
Proof.
  intros Hlm Hmh Hab. unfold adjust.
  destruct (Scene.Qltb a (performanceThreshold o * 0.8)) eqn:Ea1;
    destruct (Scene.Qltb b (performanceThreshold o * 0.8)) eqn:Eb1;
    destruct (Scene.Qltb a (performanceThreshold o)) eqn:Ea2;
    destruct (Scene.Qltb b (performanceThreshold o)) eqn:Eb2;
    try apply Qltb_lt in Ea1; try apply Qltb_lt in Eb1;
    try apply Qltb_lt in Ea2; try apply Qltb_lt in Eb2;
    try apply Qltb_ge in Ea1; try apply Qltb_ge in Eb1;
    try apply Qltb_ge in Ea2; try apply Qltb_ge in Eb2;
    Lqa.lra.
Qed.

Lemma adjust_monotone_witness :
  adjust default_options 35 <= adjust default_options 45.
Proof.
  apply (adjust_monotone default_options 35 45);
    vm_compute; discriminate.
Defined.

Lemma adjust_cases (o : options) (a : Q) :
  adjust o a = lowFps o \/ adjust o a = mediumFps o
  \/ adjust o a = highFps o.
Proof.
  unfold adjust.
  destruct (Scene.Qltb a _); [now left|].
  destruct (Scene.Qltb a _); [right; now left | right; now right].
Qed.

(** X5. From mounting on, [currentFps] is one of the three configured
    rates.  A measurement is made only once a full second has passed
    since the previous one, so it never divides by zero: it is positive
    and at most the number of frames counted; it resets the count and
    moves the start of the window to the current time. *)
Theorem adaptive_measurement (o : options) (pre : list tick) (t : tick) :
  let s := frames o pre (mount o) in
  let window := elapsedTime t - lastFpsCheckRef s in
  let counted := inject_Z (Z.of_nat (S (frameCountRef s))) in
  (currentFps s = lowFps o \/ currentFps s = mediumFps o
   \/ currentFps s = highFps o)
  /\ (1 <= window ->
      0 < counted / window /\ counted / window <= counted
      /\ onFrame o t s = mkState (adjust o (counted / window)) 0
                                 (elapsedTime t))
  /\ (window < 1 ->
      onFrame o t s
      = mkState (currentFps s) (S (frameCountRef s)) (lastFpsCheckRef s)).
Proof.
  cbv zeta. split; [|split].
  - induction pre as [|t' pre IH] using rev_ind.
    + right; right; reflexivity.
    + unfold frames in *. rewrite fold_left_app. cbn [fold_left].
      revert IH. generalize (fold_left (fun s t => onFrame o t s) pre
                                       (mount o)).
      intros s IH. unfold onFrame.
      destruct (Qle_bool 1 _); cbn [currentFps];
        [apply adjust_cases | exact IH].
  - intros Hw.
    set (s := frames o pre (mount o)) in *.
    set (w := elapsedTime t - lastFpsCheckRef s) in *.
    assert (Hc : 1 <= inject_Z (Z.of_nat (S (frameCountRef s)))).
    { change 1 with (inject_Z 1). rewrite <- Zle_Qle. lia. }
    assert (Hwpos : 0 < w) by Lqa.lra.
    repeat split.
    + apply Qlt_shift_div_l; [exact Hwpos | Lqa.lra].
    + apply Qle_shift_div_r; [exact Hwpos|]. Lqa.nra.
    + unfold onFrame. fold w. apply Qle_bool_iff in Hw. now rewrite Hw.
  - intros Hw. unfold onFrame.
    destruct (Qle_bool 1 _) eqn:E; [|reflexivity].
    apply Qle_bool_iff in E. Lqa.lra.
Qed.

End AdaptiveFacts.

(* ================================================================== *)
(** * More on the particle simulator                                   *)
(* ================================================================== *)

Module ParticleFacts.
Import Particles ParticlesFacts Particle.
Local Open Scope R_scope.

Create Rewrite HintDb slots.
#[local] Hint Rewrite length_set : slots.
#[local] Hint Rewrite get_set_same using (rewrite ?length_set; lia) : slots.
#[local] Hint Rewrite get_set_other using lia : slots.

Ltac slots :=
  cbn [positions velocities px py pz pvx pvy pvz];
  autorewrite with slots.

Ltac sized H :=
  let H1 := fresh "Hpos" in
  let H2 := fresh "Hvel" in
  destruct H as [H1 H2].

(** *** The phases on one particle *)

Lemma read_add_velocity (count p : nat) (a : arrays) :
  well_sized count a -> (p < count)%nat ->
  read (add_velocity (3 * p) a) p
  = let q := read a p in
    mkParticle (px q + pvx q) (py q + pvy q) (pz q + pvz q)
               (pvx q) (pvy q) (pvz q).
Proof.
  intros Hs Hp. sized Hs. unfold read, add_velocity. slots. reflexivity.
Qed.

Lemma read_floating_motion (count p : nat) (time : R) (pc : preCalc)
      (a : arrays) :
  well_sized count a -> (p < count)%nat ->
  read (floating_motion time pc (3 * p) a) p
  = let q := read a p in
    let timeOffset := time * speed pc + phase pc in
    mkParticle (px q + sin timeOffset * amplitude pc)
               (py q + cos (timeOffset * 0.7) * amplitude pc)
               (pz q + sin (timeOffset * 0.5) * amplitude pc * 0.5)
               (pvx q) (pvy q) (pvz q).
Proof.
  intros Hs Hp. sized Hs. unfold read, floating_motion. slots. reflexivity.
Qed.

Lemma read_dampen (o : options) (count p : nat) (a : arrays) :
  well_sized count a -> (p < count)%nat ->
  read (dampen o (3 * p) a) p
  = let q := read a p in
    mkParticle (px q) (py q) (pz q)
               (pvx q * dampening o) (pvy q * dampening o)
               (pvz q * dampening o).
Proof.
  intros Hs Hp. sized Hs. unfold read, dampen. slots. reflexivity.
Qed.

Lemma read_keep_in_circle (o : options) (count p : nat) (a : arrays) :
  well_sized count a -> (p < count)%nat ->
  read (keep_in_circle o (3 * p) a) p
  = let q := read a p in
    let outside :=
      Rlt_dec (maxRadius o) (sqrt (px q * px q + py q * py q)) in
    let angle := atan2 (py q) (px q) in
    mkParticle (if outside then cos angle * maxRadius o * 0.9 else px q)
               (if outside then sin angle * maxRadius o * 0.9 else py q)
               (pz q)
               (if outside then pvx q * -0.3 else pvx q)
               (if outside then pvy q * -0.3 else pvy q)
               (pvz q).
Proof.
  intros Hs Hp. sized Hs. unfold read, keep_in_circle. cbv zeta.
  cbn [px py pz pvx pvy pvz].
  destruct (Rlt_dec _ _); slots; reflexivity.
Qed.

Lemma read_keep_in_z (o : options) (count p : nat) (a : arrays) :
  well_sized count a -> (p < count)%nat ->
  read (keep_in_z o (3 * p) a) p
  = let q := read a p in
    let above := Rlt_dec (bounds_z o) (Rabs (pz q)) in
    mkParticle (px q) (py q)
               (if above then sign (pz q) * bounds_z o else pz q)
               (pvx q) (pvy q)
               (if above then pvz q * -0.3 else pvz q).
Proof.
  intros Hs Hp. sized Hs. unfold read, keep_in_z. cbv zeta.
  cbn [px py pz pvx pvy pvz].
  destruct (Rlt_dec _ _); slots; reflexivity.
Qed.

(** One iteration is [step] on its own particle ... *)
Lemma read_update_body (o : options) (values : list preCalc) (time : R)
      (count p : nat) (a : arrays) :
  well_sized count a -> (p < count)%nat ->
  read (update_body o values time (3 * p) a) p
  = step o (nth p values no_entry) time (read a p).
Proof.
  intros Hs Hp. unfold update_body. rewrite particleIndex_of.
  set (pc := nth p values no_entry).
  pose proof (add_velocity_sized count (3 * p) a Hs) as H1.
  pose proof (floating_motion_sized count (3 * p) time pc _ H1) as H2.
  pose proof (dampen_sized o count (3 * p) _ H2) as H3.
  pose proof (keep_in_circle_sized o count (3 * p) _ H3) as H4.
  rewrite (read_keep_in_z o count p _ H4 Hp).
  rewrite (read_keep_in_circle o count p _ H3 Hp).
  rewrite (read_dampen o count p _ H2 Hp).
  rewrite (read_floating_motion count p time pc _ H1 Hp).
  rewrite (read_add_velocity count p a Hs Hp).
  reflexivity.
Qed.

(** ... and leaves every other particle alone. *)
Lemma velocities_elsewhere (o : options) (values : list preCalc) (time : R)
      (i j : nat) (a : arrays) :
  (j < i \/ i + 2 < j)%nat ->
  get (velocities (update_body o values time i a)) j
  = get (velocities a) j.
Proof.
  intros Hj.
  unfold update_body, keep_in_z, keep_in_circle, dampen, floating_motion,
    add_velocity.
  phase_cases; slots; reflexivity.
Qed.

Lemma read_elsewhere (o : options) (values : list preCalc) (time : R)
      (k p : nat) (a : arrays) :
  p <> k ->
  read (update_body o values time (3 * k) a) p = read a p.
Proof.
  intros Hne. unfold read.
  rewrite !update_body_elsewhere, !velocities_elsewhere by lia.
  reflexivity.
Qed.

Lemma read_update_loop (o : options) (values : list preCalc) (time : R)
      (count n : nat) :
  forall (k : nat) (a : arrays) (p : nat),
    well_sized count a -> (k + n <= count)%nat ->
    read (update_loop o values time n (3 * k) a) p
    = if (k <=? p) && (p <? k + n)
      then step o (nth p values no_entry) time (read a p)
      else read a p.
Proof.
  induction n as [|n IH]; intros k a p Hs Hkn.
  - cbn [update_loop].
    destruct (k <=? p) eqn:E1; destruct (p <? k + 0) eqn:E2;
      try reflexivity.
    apply Nat.leb_le in E1. apply Nat.ltb_lt in E2. lia.
  - cbn [update_loop]. replace (3 * k + 3)%nat with (3 * S k)%nat by lia.
    rewrite IH; [|now apply update_body_sized | lia].
    destruct (Nat.eq_dec p k) as [-> | Hne].
    + replace (S k <=? k) with false by (symmetry; apply Nat.leb_gt; lia).
      replace (k <=? k) with true by (symmetry; apply Nat.leb_le; lia).
      replace (k <? k + S n) with true by (symmetry; apply Nat.ltb_lt; lia).
      cbn [andb]. apply (read_update_body o values time count); [exact Hs|].
      lia.
    + rewrite (read_elsewhere o values time k p a Hne).
      replace (S k <=? p) with (k <=? p).
      * replace (p <? S k + n) with (p <? k + S n); [reflexivity|].
        f_equal. lia.
      * destruct (k <=? p) eqn:E.
        -- apply Nat.leb_le in E. symmetry. apply Nat.leb_le. lia.
        -- apply Nat.leb_gt in E. symmetry. apply Nat.leb_gt. lia.
Qed.

(** X6. A tick treats the particles independently of one another: what
    [updateParticles] leaves in the slots of particle [p] is one [step],
    with the table entry of [p], of what was in these slots before,
    whatever the other particles hold. *)
Theorem particles_are_independent (o : options) (count : nat) (time : R)
        (a : arrays) (p : nat) :
  well_sized count a -> (p < count)%nat ->
  read (updateParticles o count time a) p
  = step o (preCalcEntry o p) time (read a p).
Proof.
  intros Hs Hp. unfold updateParticles. change 0%nat with (3 * 0)%nat.
  rewrite (read_update_loop o _ time count count 0 a p Hs) by lia.
  replace (0 <=? p) with true by (symmetry; apply Nat.leb_le; lia).
  replace (p <? 0 + count) with true by (symmetry; apply Nat.ltb_lt; lia).
  cbn [andb]. now rewrite preCalculatedValues_nth.
Qed.

Lemma particles_are_independent_witness :
  read (updateParticles default_options 2 0
          (initialize 2 (fun _ => 0.5))) 1
  = step default_options (preCalcEntry default_options 1) 0
         (read (initialize 2 (fun _ => 0.5)) 1).
Proof.
  apply (particles_are_independent default_options 2 0
           (initialize 2 (fun _ => 0.5)) 1).
  - apply initialize_sized.
  - lia.
Defined.

(** *** Velocities *)

Lemma damped (v d : R) : 0 <= d <= 1 -> Rabs (v * d) <= Rabs v.
Proof.
  intros Hd. rewrite Rabs_mult, (Rabs_right d) by lra.
  pose proof (Rabs_pos v). nra.
Qed.

Lemma bounced (v d : R) : 0 <= d <= 1 -> Rabs (v * d * -0.3) <= Rabs v.
Proof.
  intros Hd. rewrite Rabs_mult, (Rabs_left (-0.3)) by lra.
  pose proof (damped v d Hd). pose proof (Rabs_pos (v * d)). nra.
Qed.

Lemma step_slows (o : options) (pc : preCalc) (time : R) (q : particle) :
  0 <= dampening o <= 1 ->
  Rabs (pvx (step o pc time q)) <= Rabs (pvx q)
  /\ Rabs (pvy (step o pc time q)) <= Rabs (pvy q)
  /\ Rabs (pvz (step o pc time q)) <= Rabs (pvz q).
Proof.
  intros Hd. unfold step. cbn [pvx pvy pvz].
  repeat split;
    match goal with
    | |- context [if ?c then _ else _] => destruct c
    end; auto using damped, bounced.
Qed.

Lemma tick_slows (o : options) (count : nat) (time : R) (a : arrays)
      (p : nat) :
  0 <= dampening o <= 1 -> well_sized count a -> (p < count)%nat ->
  Rabs (pvx (read (updateParticles o count time a) p)) <= Rabs (pvx (read a p))
  /\ Rabs (pvy (read (updateParticles o count time a) p))
     <= Rabs (pvy (read a p))
  /\ Rabs (pvz (read (updateParticles o count time a) p))
     <= Rabs (pvz (read a p)).
Proof.
  intros Hd Hs Hp. unfold updateParticles. change 0%nat with (3 * 0)%nat.
  rewrite (read_update_loop o _ time count count 0 a p Hs) by lia.
  replace (0 <=? p) with true by (symmetry; apply Nat.leb_le; lia).
  replace (p <? 0 + count) with true by (symmetry; apply Nat.ltb_lt; lia).
  cbn [andb]. now apply step_slows.
Qed.

(** X7. With a dampening factor between 0 and 1 no component of any
    particle's velocity ever grows in magnitude, over any number of
    ticks: damping shrinks it and a bounce shrinks it further. *)
Theorem velocities_never_grow (o : options) (count : nat) (times : list R)
        (a : arrays) (p : nat) :
  0 <= dampening o <= 1 ->
  well_sized count a ->
  (p < count)%nat ->
  let before := read a p in
  let after := read (advance o count times a) p in
  Rabs (pvx after) <= Rabs (pvx before)
  /\ Rabs (pvy after) <= Rabs (pvy before)
  /\ Rabs (pvz after) <= Rabs (pvz before).
Proof.
  intros Hd Hs Hp. cbv zeta.
  induction times as [|time earlier IH] using rev_ind.
  - cbn. repeat split; apply Rle_refl.
  - rewrite advance_last.
    pose proof (advance_sized o count earlier a Hs) as Hs'.
    destruct (tick_slows o count time _ p Hd Hs' Hp) as (Hx & Hy & Hz).
    destruct IH as (IHx & IHy & IHz).
    repeat split; eapply Rle_trans; eassumption.
Qed.

Lemma velocities_never_grow_witness :
  let a := initialize 2 (fun _ => 0.25) in
  Rabs (pvx (read (advance default_options 2 [0; 1] a) 1))
  <= Rabs (pvx (read a 1)).
Proof.
  cbv zeta.
  apply (velocities_never_grow default_options 2 [0; 1]
           (initialize 2 (fun _ => 0.25)) 1).
  - unfold default_options, dampening. lra.
  - apply initialize_sized.
  - lia.
Defined.

(** *** Initial state *)

Lemma read_init_loop (count n : nat) (rnd : nat -> R) :
  forall (k : nat) (a : arrays) (p : nat),
    well_sized count a -> (k + n <= count)%nat ->
    read (init_loop n (3 * k) (6 * k) rnd a) p
    = if (k <=? p) && (p <? k + n) then drawn rnd p else read a p.
Proof.
  induction n as [|n IH]; intros k a p Hs Hkn.
  - cbn [init_loop].
    destruct (k <=? p) eqn:E1; destruct (p <? k + 0) eqn:E2;
      try reflexivity.
    apply Nat.leb_le in E1. apply Nat.ltb_lt in E2. lia.
  - cbn [init_loop].
    replace (3 * k + 3)%nat with (3 * S k)%nat by lia.
    replace (6 * k + 6)%nat with (6 * S k)%nat by lia.
    sized Hs.
    rewrite IH; [| split; slots; assumption | lia].
    destruct (Nat.eq_dec p k) as [-> | Hne].
    + replace (S k <=? k) with false by (symmetry; apply Nat.leb_gt; lia).
      replace (k <=? k) with true by (symmetry; apply Nat.leb_le; lia).
      replace (k <? k + S n) with true by (symmetry; apply Nat.ltb_lt; lia).
      cbn [andb]. unfold read, drawn. slots. reflexivity.
    + replace (S k <=? p) with (k <=? p).
      * replace (p <? S k + n) with (p <? k + S n) by (f_equal; lia).
        destruct ((k <=? p) && (p <? k + S n)); [reflexivity|].
        unfold read. slots. reflexivity.
      * destruct (k <=? p) eqn:E.
        -- apply Nat.leb_le in E. symmetry. apply Nat.leb_le. lia.
        -- apply Nat.leb_gt in E. symmetry. apply Nat.leb_gt. lia.
Qed.

(** X9. The buffers never change size: after initialisation and any
    number of ticks - given directly or through [useFrameRate] - both
    still have [count * 3] slots. *)
Theorem buffers_keep_their_size (o : options) (count : nat)
        (rnd : nat -> R) (times : list R) (ts : list FrameRate.tick) :
  let a := initialize count rnd in
  (List.length (positions (advance o count times a)) = (count * 3)%nat
   /\ List.length (velocities (advance o count times a)) = (count * 3)%nat)
  /\ (List.length (positions (scheduled o count ts a)) = (count * 3)%nat
      /\ List.length (velocities (scheduled o count ts a))
         = (count * 3)%nat).
Proof.
  cbv zeta. pose proof (initialize_sized count rnd) as Hs. split.
  - exact (advance_sized o count times _ Hs).
  - rewrite scheduled_is_advance. exact (advance_sized o count _ _ Hs).
Qed.

(** *** The clamp *)

Lemma hypotenuse_pos (x y : R) :
  x <> 0 \/ y <> 0 -> 0 < sqrt (x * x + y * y).
Proof. intros H. apply sqrt_lt_R0. destruct H; nra. Qed.

Lemma sqrt_one_plus_slope (x y s : R) :
  0 < s -> s * s = x * x ->
  sqrt (1 + (y / x)²) = sqrt (x * x + y * y) / s.
Proof.
  intros Hs Hss.
  assert (Hx : x <> 0) by nra.
  assert (Hr : 0 < sqrt (x * x + y * y)) by (apply hypotenuse_pos; now left).
  assert (Hsq : sqrt (x * x + y * y) * sqrt (x * x + y * y) = x * x + y * y)
    by (apply sqrt_sqrt; nra).
  apply sqrt_lem_1.
  - unfold Rsqr. nra.
  - apply Rlt_le, Rdiv_lt_0_compat; assumption.
  - unfold Rsqr.
    replace (sqrt (x * x + y * y) / s * (sqrt (x * x + y * y) / s))
      with (sqrt (x * x + y * y) * sqrt (x * x + y * y) / (s * s))
      by (field; lra).
    rewrite Hsq, Hss. field. exact Hx.
Qed.

Lemma atan_slope (x y s : R) :
  0 < s -> s * s = x * x ->
  cos (atan (y / x)) = s / sqrt (x * x + y * y)
  /\ sin (atan (y / x)) = (y / x) * s / sqrt (x * x + y * y).
Proof.
  intros Hs Hss.
  assert (Hx : x <> 0) by nra.
  assert (Hr : 0 < sqrt (x * x + y * y)) by (apply hypotenuse_pos; now left).
  rewrite cos_atan, sin_atan, (sqrt_one_plus_slope x y s Hs Hss).
  split; field; lra.
Qed.

(** [Math.atan2(y, x)] is the angle of the point (x, y). *)
Lemma atan2_direction (x y : R) :
  x <> 0 \/ y <> 0 ->
  cos (atan2 y x) = x / sqrt (x * x + y * y)
  /\ sin (atan2 y x) = y / sqrt (x * x + y * y).
Proof.
  intros Hxy.
  assert (Hr : 0 < sqrt (x * x + y * y)) by now apply hypotenuse_pos.
  unfold atan2.
  destruct (Rlt_dec 0 x) as [Hpos | Hnpos].
  - destruct (atan_slope x y x Hpos eq_refl) as [Hc Hs].
    rewrite Hc, Hs. split; [reflexivity | field; lra].
  - destruct (Rlt_dec x 0) as [Hneg | Hnneg].
    + assert (Hs : 0 < - x) by lra.
      destruct (atan_slope x y (- x) Hs ltac:(ring)) as [Hc Hsn].
      destruct (Rle_dec 0 y).
      * rewrite neg_cos, neg_sin, Hc, Hsn. split; field; lra.
      * rewrite cos_minus, sin_minus, cos_PI, sin_PI, Hc, Hsn.
        split; field; lra.
    + assert (Hx : x = 0) by lra. subst x.
      assert (Hy : y <> 0) by (destruct Hxy; [lra | assumption]).
      replace (0 * 0 + y * y) with (y * y) in * by ring.
      destruct (Rlt_dec 0 y) as [Hy1 | Hy1].
      * rewrite cos_PI2, sin_PI2, sqrt_square by lra.
        split; field; lra.
      * destruct (Rlt_dec y 0) as [Hy2 | Hy2]; [|lra].
        rewrite cos_neg, sin_neg, cos_PI2, sin_PI2.
        replace (y * y) with ((- y) * (- y)) by ring.
        rewrite sqrt_square by lra. split; field; lra.
Qed.

(** X10. A particle found outside the circle is put back along its own
    ray from the origin: its x and y are scaled by the same positive
    factor [0.9 * maxRadius / distance], and its planar velocity is
    reversed and reduced to 0.3 of itself.  A particle found inside is
    left as it is. *)
Theorem clamp_keeps_direction (o : options) (count p : nat) (a : arrays) :
  0 < maxRadius o ->
  well_sized count a -> (p < count)%nat ->
  let i := (3 * p)%nat in
  let x := get (positions a) i in
  let y := get (positions a) (i + 1) in
  let distance := sqrt (x * x + y * y) in
  let a' := keep_in_circle o i a in
  (maxRadius o < distance ->
   let factor := 0.9 * maxRadius o / distance in
   0 < factor < 1
   /\ get (positions a') i = factor * x
   /\ get (positions a') (i + 1) = factor * y
   /\ get (velocities a') i = get (velocities a) i * -0.3
   /\ get (velocities a') (i + 1) = get (velocities a) (i + 1) * -0.3)
  /\ (distance <= maxRadius o -> a' = a).
Proof.
  intros Hr Hs Hp. sized Hs. cbv zeta. split.
  - intros Hout.
    set (x := get (positions a) (3 * p)) in *.
    set (y := get (positions a) (3 * p + 1)) in *.
    assert (Hd : 0 < sqrt (x * x + y * y)) by lra.
    assert (Hxy : x <> 0 \/ y <> 0).
    { destruct (Req_dec x 0) as [Hx|Hx]; [|now left].
      destruct (Req_dec y 0) as [Hy|Hy]; [|now right].
      subst x y. rewrite Hx, Hy in Hd.
      replace (0 * 0 + 0 * 0) with 0 in Hd by ring.
      rewrite sqrt_0 in Hd. lra. }
    destruct (atan2_direction x y Hxy) as [Hc Hsn].
    unfold keep_in_circle. fold x y.
    destruct (Rlt_dec _ _) as [_ | Hin]; [|contradiction].
    slots. rewrite Hc, Hsn.
    split; [|repeat split; try reflexivity; field; lra].
    split.
    + apply Rdiv_lt_0_compat; lra.
    + apply (Rmult_lt_reg_r (sqrt (x * x + y * y))); [exact Hd|].
      unfold Rdiv. rewrite Rmult_assoc, Rinv_l by lra. lra.
  - intros Hin. unfold keep_in_circle.
    destruct (Rlt_dec _ _) as [Hout | _]; [lra | reflexivity].
Qed.

Lemma clamp_keeps_direction_witness :
  let a := mkArrays [3; 4; 0] [0; 0; 0] in
  get (positions (keep_in_circle default_options (3 * 0) a)) (3 * 0)
  = 0.9 * maxRadius default_options / sqrt (3 * 3 + 4 * 4) * 3.
Proof.
  cbv zeta.
  assert (Hs : sqrt (3 * 3 + 4 * 4) = 5).
  { replace (3 * 3 + 4 * 4) with (5 * 5) by ring. apply sqrt_square. lra. }
  apply (clamp_keeps_direction default_options 1 0
           (mkArrays [3; 4; 0] [0; 0; 0])).
  - unfold default_options, maxRadius. lra.
  - split; reflexivity.
  - lia.
  - unfold get. cbn [nth positions Nat.mul Nat.add].
    rewrite Hs. unfold default_options, maxRadius. lra.
Defined.

End ParticleFacts.


(* ================================================================== *)
(** * The particles as the arrays hold them                            *)
(* ================================================================== *)

Module Float32Facts.
Import Particles ParticlesFacts Particle Float32.
Local Open Scope R_scope.

Create Rewrite HintDb stores.
#[local] Hint Rewrite length_set : stores.
#[local] Hint Rewrite get_set_same using (rewrite ?length_set; lia) : stores.
#[local] Hint Rewrite get_set_other using lia : stores.

Ltac stores :=
  unfold store;
  cbn [positions velocities px py pz pvx pvy pvz];
  autorewrite with stores.

Section Any_rounding.

Variable fround : R -> R.

(** With no rounding the arrays are those of [Particles]. *)
Lemma unrounded_tick (o : options) (count : nat) (time : R) (a : arrays) :
  Float32.updateParticles (fun x => x) o count time a
  = Particles.updateParticles o count time a.
Proof.
  unfold Float32.updateParticles, Particles.updateParticles.
  generalize (preCalculatedValues o count) as values.
  generalize 0%nat as i. revert a.
  induction count as [|n IH]; intros a i values; [reflexivity|].
  cbn [Float32.update_loop Particles.update_loop]. rewrite IH.
  reflexivity.
Qed.

(** *** Sizes *)

Lemma stored_add_velocity_sized (count i : nat) (a : arrays) :
  well_sized count a -> well_sized count (add_velocity fround i a).
Proof. intros [H1 H2]. unfold well_sized, add_velocity. stores. auto. Qed.

Lemma stored_floating_motion_sized (count i : nat) (time : R) (pc : preCalc)
      (a : arrays) :
  well_sized count a ->
  well_sized count (floating_motion fround time pc i a).
Proof.
  intros [H1 H2]. unfold well_sized, floating_motion. stores. auto.
Qed.

Lemma stored_dampen_sized (o : options) (count i : nat) (a : arrays) :
  well_sized count a -> well_sized count (dampen fround o i a).
Proof. intros [H1 H2]. unfold well_sized, dampen. stores. auto. Qed.

Lemma stored_keep_in_circle_sized (o : options) (count i : nat) (a : arrays) :
  well_sized count a -> well_sized count (keep_in_circle fround o i a).
Proof.
  intros [H1 H2]. unfold well_sized, keep_in_circle.
  destruct (Rlt_dec _ _); stores; auto.
Qed.

Lemma stored_keep_in_z_sized (o : options) (count i : nat) (a : arrays) :
  well_sized count a -> well_sized count (keep_in_z fround o i a).
Proof.
  intros [H1 H2]. unfold well_sized, keep_in_z.
  destruct (Rlt_dec _ _); stores; auto.
Qed.

Lemma stored_update_body_sized (o : options) (values : list preCalc) (time : R)
      (count i : nat) (a : arrays) :
  well_sized count a ->
  well_sized count (update_body fround o values time i a).
Proof.
  intros H. unfold update_body.
  apply stored_keep_in_z_sized, stored_keep_in_circle_sized, stored_dampen_sized,
    stored_floating_motion_sized, stored_add_velocity_sized, H.
Qed.

Lemma stored_update_loop_sized (o : options) (values : list preCalc) (time : R)
      (count n : nat) :
  forall (i : nat) (a : arrays),
    well_sized count a ->
    well_sized count (update_loop fround o values time n i a).
Proof.
  induction n as [|n IH]; intros i a H; cbn [update_loop]; [exact H|].
  apply IH, stored_update_body_sized, H.
Qed.

Lemma stored_advance_sized (o : options) (count : nat) (times : list R) :
  forall a,
    well_sized count a -> well_sized count (advance fround o count times a).
Proof.
  induction times as [|t times IH]; intros a H; cbn [advance fold_left];
    [exact H|].
  apply IH. unfold updateParticles. now apply stored_update_loop_sized.
Qed.

Lemma stored_advance_last (o : options) (count : nat) (earlier : list R)
      (time : R) (a : arrays) :
  advance fround o count (earlier ++ [time]) a
  = updateParticles fround o count time (advance fround o count earlier a).
Proof. unfold advance. now rewrite fold_left_app. Qed.

Lemma new_buffers_sized (count : nat) :
  well_sized count (mkArrays (new_buffer count) (new_buffer count)).
Proof.
  unfold well_sized, new_buffer. cbn [positions velocities].
  now rewrite repeat_length.
Qed.

Lemma stored_init_loop_sized (count n : nat) (rnd : nat -> R) :
  forall (i k : nat) (a : arrays),
    well_sized count a -> well_sized count (init_loop fround n i k rnd a).
Proof.
  induction n as [|n IH]; intros i k a [H1 H2]; cbn [init_loop];
    [now split|].
  apply IH. unfold well_sized. stores. auto.
Qed.

Lemma stored_initialize_sized (count : nat) (rnd : nat -> R) :
  well_sized count (initialize fround count rnd).
Proof. apply stored_init_loop_sized, new_buffers_sized. Qed.

(** *** One particle *)

Lemma stored_read_add_velocity (count p : nat) (a : arrays) :
  well_sized count a -> (p < count)%nat ->
  read (add_velocity fround (3 * p) a) p
  = let q := read a p in
    mkParticle (fround (px q + pvx q)) (fround (py q + pvy q))
               (fround (pz q + pvz q)) (pvx q) (pvy q) (pvz q).
Proof.
  intros [Hpos Hvel] Hp. unfold read, add_velocity. stores. reflexivity.
Qed.

Lemma stored_read_floating_motion (count p : nat) (time : R) (pc : preCalc)
      (a : arrays) :
  well_sized count a -> (p < count)%nat ->
  read (floating_motion fround time pc (3 * p) a) p
  = let q := read a p in
    let timeOffset := time * speed pc + phase pc in
    mkParticle (fround (px q + sin timeOffset * amplitude pc))
               (fround (py q + cos (timeOffset * 0.7) * amplitude pc))
               (fround (pz q + sin (timeOffset * 0.5) * amplitude pc * 0.5))
               (pvx q) (pvy q) (pvz q).
Proof.
  intros [Hpos Hvel] Hp. unfold read, floating_motion. stores. reflexivity.
Qed.

Lemma stored_read_dampen (o : options) (count p : nat) (a : arrays) :
  well_sized count a -> (p < count)%nat ->
  read (dampen fround o (3 * p) a) p
  = let q := read a p in
    mkParticle (px q) (py q) (pz q)
               (fround (pvx q * dampening o)) (fround (pvy q * dampening o))
               (fround (pvz q * dampening o)).
Proof.
  intros [Hpos Hvel] Hp. unfold read, dampen. stores. reflexivity.
Qed.

Lemma stored_read_keep_in_circle (o : options) (count p : nat) (a : arrays) :
  well_sized count a -> (p < count)%nat ->
  read (keep_in_circle fround o (3 * p) a) p
  = let q := read a p in
    let outside :=
      Rlt_dec (maxRadius o) (sqrt (px q * px q + py q * py q)) in
    let angle := atan2 (py q) (px q) in
    mkParticle
      (if outside then fround (cos angle * maxRadius o * 0.9) else px q)
      (if outside then fround (sin angle * maxRadius o * 0.9) else py q)
      (pz q)
      (if outside then fround (pvx q * -0.3) else pvx q)
      (if outside then fround (pvy q * -0.3) else pvy q)
      (pvz q).
Proof.
  intros [Hpos Hvel] Hp. unfold read, keep_in_circle. cbv zeta.
  cbn [px py pz pvx pvy pvz].
  destruct (Rlt_dec _ _); stores; reflexivity.
Qed.

Lemma stored_read_keep_in_z (o : options) (count p : nat) (a : arrays) :
  well_sized count a -> (p < count)%nat ->
  read (keep_in_z fround o (3 * p) a) p
  = let q := read a p in
    let above := Rlt_dec (bounds_z o) (Rabs (pz q)) in
    mkParticle (px q) (py q)
               (if above then fround (sign (pz q) * bounds_z o) else pz q)
               (pvx q) (pvy q)
               (if above then fround (pvz q * -0.3) else pvz q).
Proof.
  intros [Hpos Hvel] Hp. unfold read, keep_in_z. cbv zeta.
  cbn [px py pz pvx pvy pvz].
  destruct (Rlt_dec _ _); stores; reflexivity.
Qed.

Lemma stored_read_update_body (o : options) (values : list preCalc) (time : R)
      (count p : nat) (a : arrays) :
  well_sized count a -> (p < count)%nat ->
  read (update_body fround o values time (3 * p) a) p
  = step fround o (nth p values no_entry) time (read a p).
Proof.
  intros Hs Hp. unfold update_body. rewrite particleIndex_of.
  set (pc := nth p values no_entry).
  pose proof (stored_add_velocity_sized count (3 * p) a Hs) as H1.
  pose proof (stored_floating_motion_sized count (3 * p) time pc _ H1) as H2.
  pose proof (stored_dampen_sized o count (3 * p) _ H2) as H3.
  pose proof (stored_keep_in_circle_sized o count (3 * p) _ H3) as H4.
  rewrite (stored_read_keep_in_z o count p _ H4 Hp).
  rewrite (stored_read_keep_in_circle o count p _ H3 Hp).
  rewrite (stored_read_dampen o count p _ H2 Hp).
  rewrite (stored_read_floating_motion count p time pc _ H1 Hp).
  rewrite (stored_read_add_velocity count p a Hs Hp).
  reflexivity.
Qed.

Lemma positions_elsewhere (o : options) (values : list preCalc) (time : R)
      (i j : nat) (a : arrays) :
  (j < i \/ i + 2 < j)%nat ->
  get (positions (update_body fround o values time i a)) j
  = get (positions a) j.
Proof.
  intros Hj.
  unfold update_body, keep_in_z, keep_in_circle, dampen, floating_motion,
    add_velocity.
  phase_cases; stores; reflexivity.
Qed.

Lemma stored_velocities_elsewhere (o : options) (values : list preCalc) (time : R)
      (i j : nat) (a : arrays) :
  (j < i \/ i + 2 < j)%nat ->
  get (velocities (update_body fround o values time i a)) j
  = get (velocities a) j.
Proof.
  intros Hj.
  unfold update_body, keep_in_z, keep_in_circle, dampen, floating_motion,
    add_velocity.
  phase_cases; stores; reflexivity.
Qed.

Lemma stored_read_elsewhere (o : options) (values : list preCalc) (time : R)
      (k p : nat) (a : arrays) :
  p <> k ->
  read (update_body fround o values time (3 * k) a) p = read a p.
Proof.
  intros Hne. unfold read.
  rewrite !positions_elsewhere, !stored_velocities_elsewhere by lia.
  reflexivity.
Qed.

Lemma stored_read_update_loop (o : options) (values : list preCalc) (time : R)
      (count n : nat) :
  forall (k : nat) (a : arrays) (p : nat),
    well_sized count a -> (k + n <= count)%nat ->
    read (update_loop fround o values time n (3 * k) a) p
    = if (k <=? p) && (p <? k + n)
      then step fround o (nth p values no_entry) time (read a p)
      else read a p.
Proof.
  induction n as [|n IH]; intros k a p Hs Hkn.
  - cbn [update_loop].
    destruct (k <=? p) eqn:E1; destruct (p <? k + 0) eqn:E2;
      try reflexivity.
    apply Nat.leb_le in E1. apply Nat.ltb_lt in E2. lia.
  - cbn [update_loop]. replace (3 * k + 3)%nat with (3 * S k)%nat by lia.
    rewrite IH; [|now apply stored_update_body_sized | lia].
    destruct (Nat.eq_dec p k) as [-> | Hne].
    + replace (S k <=? k) with false by (symmetry; apply Nat.leb_gt; lia).
      replace (k <=? k) with true by (symmetry; apply Nat.leb_le; lia).
      replace (k <? k + S n) with true by (symmetry; apply Nat.ltb_lt; lia).
      cbn [andb]. apply (stored_read_update_body o values time count); [exact Hs|].
      lia.
    + rewrite (stored_read_elsewhere o values time k p a Hne).
      replace (S k <=? p) with (k <=? p).
      * replace (p <? S k + n) with (p <? k + S n); [reflexivity|].
        f_equal. lia.
      * destruct (k <=? p) eqn:E.
        -- apply Nat.leb_le in E. symmetry. apply Nat.leb_le. lia.
        -- apply Nat.leb_gt in E. symmetry. apply Nat.leb_gt. lia.
Qed.

(** A tick is one [step] on every particle. *)
Lemma read_updateParticles (o : options) (count : nat) (time : R)
      (a : arrays) (p : nat) :
  well_sized count a -> (p < count)%nat ->
  read (updateParticles fround o count time a) p
  = step fround o (preCalcEntry o p) time (read a p).
Proof.
  intros Hs Hp. unfold updateParticles. change 0%nat with (3 * 0)%nat.
  rewrite (stored_read_update_loop o _ time count count 0 a p Hs) by lia.
  replace (0 <=? p) with true by (symmetry; apply Nat.leb_le; lia).
  replace (p <? 0 + count) with true by (symmetry; apply Nat.ltb_lt; lia).
  cbn [andb]. now rewrite preCalculatedValues_nth.
Qed.

Lemma stored_read_init_loop (count n : nat) (rnd : nat -> R) :
  forall (k : nat) (a : arrays) (p : nat),
    well_sized count a -> (k + n <= count)%nat ->
    read (init_loop fround n (3 * k) (6 * k) rnd a) p
    = if (k <=? p) && (p <? k + n) then drawn fround rnd p else read a p.
Proof.
  induction n as [|n IH]; intros k a p Hs Hkn.
  - cbn [init_loop].
    destruct (k <=? p) eqn:E1; destruct (p <? k + 0) eqn:E2;
      try reflexivity.
    apply Nat.leb_le in E1. apply Nat.ltb_lt in E2. lia.
  - cbn [init_loop].
    replace (3 * k + 3)%nat with (3 * S k)%nat by lia.
    replace (6 * k + 6)%nat with (6 * S k)%nat by lia.
    destruct Hs as [Hpos Hvel].
    rewrite IH; [| split; stores; assumption | lia].
    destruct (Nat.eq_dec p k) as [-> | Hne].
    + replace (S k <=? k) with false by (symmetry; apply Nat.leb_gt; lia).
      replace (k <=? k) with true by (symmetry; apply Nat.leb_le; lia).
      replace (k <? k + S n) with true by (symmetry; apply Nat.ltb_lt; lia).
      cbn [andb]. unfold read, drawn. stores. reflexivity.
    + replace (S k <=? p) with (k <=? p).
      * replace (p <? S k + n) with (p <? k + S n) by (f_equal; lia).
        destruct ((k <=? p) && (p <? k + S n)); [reflexivity|].
        unfold read. stores. reflexivity.
      * destruct (k <=? p) eqn:E.
        -- apply Nat.leb_le in E. symmetry. apply Nat.leb_le. lia.
        -- apply Nat.leb_gt in E. symmetry. apply Nat.leb_gt. lia.
Qed.

Lemma read_initialize (count : nat) (rnd : nat -> R) (p : nat) :
  (p < count)%nat ->
  read (initialize fround count rnd) p = drawn fround rnd p.
Proof.
  intros Hp. unfold initialize. change 0%nat with (3 * 0)%nat at 1.
  change 0%nat with (6 * 0)%nat at 2.
  rewrite (stored_read_init_loop count count rnd 0);
    [|apply new_buffers_sized | lia].
  replace (0 <=? p) with true by (symmetry; apply Nat.leb_le; lia).
  replace (p <? 0 + count) with true by (symmetry; apply Nat.ltb_lt; lia).
  reflexivity.
Qed.

(** *** The forcing of a tick *)

(** C4, amended. The table entry of particle [p] is
    {phase = p * 0.1, speed = floatSpeed + (p mod 3) * 0.3,
     amplitude = floatAmplitude + (p mod 2) * 0.0005}.  Each tick of
    [advance] is one [updateParticles], and for every particle it adds
    the velocity to the position, stores the sum, and adds to what is
    stored, with [timeOffset = time * speed + phase], the forcing
    [sin timeOffset * amplitude] on x,
    [cos (timeOffset * 0.7) * amplitude] on y and
    [sin (timeOffset * 0.5) * amplitude * 0.5] on z - the factors 0.7
    and 0.5 scale the phase as well as the time.  What is stored then is
    the position after the tick wherever the boundary policy does not
    step in; where it does, the policy starts from it. *)
Theorem floating_motion_adds (o : options) (count : nat)
        (earlier : list R) (time : R) (a0 : arrays) (p : nat) :
  (p < count)%nat ->
  well_sized count a0 ->
  let a := advance fround o count earlier a0 in
  let a' := advance fround o count (earlier ++ [time]) a0 in
  let pc := nth p (preCalculatedValues o count) no_entry in
  let timeOffset := time * speed pc + phase pc in
  let i := (3 * p)%nat in
  let x := fround (fround (get (positions a) i + get (velocities a) i)
                   + sin timeOffset * amplitude pc) in
  let y := fround (fround (get (positions a) (i + 1)
                           + get (velocities a) (i + 1))
                   + cos (timeOffset * 0.7) * amplitude pc) in
  let z := fround (fround (get (positions a) (i + 2)
                           + get (velocities a) (i + 2))
                   + sin (timeOffset * 0.5) * amplitude pc * 0.5) in
  (phase pc = INR p * 0.1
   /\ speed pc = floatSpeed o + INR (p mod 3) * 0.3
   /\ amplitude pc = floatAmplitude o + INR (p mod 2) * 0.0005)
  /\ a' = updateParticles fround o count time a
  /\ (sqrt (x * x + y * y) <= maxRadius o ->
      get (positions a') i = x /\ get (positions a') (i + 1) = y)
  /\ (maxRadius o < sqrt (x * x + y * y) ->
      get (positions a') i = fround (cos (atan2 y x) * maxRadius o * 0.9)
      /\ get (positions a') (i + 1)
         = fround (sin (atan2 y x) * maxRadius o * 0.9))
  /\ (Rabs z <= bounds_z o -> get (positions a') (i + 2) = z)
  /\ (bounds_z o < Rabs z ->
      get (positions a') (i + 2) = fround (sign z * bounds_z o)).
Proof.
  intros Hp Hsize. cbv zeta. rewrite stored_advance_last.
  rewrite (preCalculatedValues_nth o count p Hp).
  pose proof (stored_advance_sized o count earlier a0 Hsize) as Hs.
  generalize dependent (advance fround o count earlier a0). intros a Hs.
  pose proof (read_updateParticles o count time a p Hs Hp) as Hstep.
  assert (Hx : get (positions (updateParticles fround o count time a))
                   (3 * p)
               = px (step fround o (preCalcEntry o p) time (read a p)))
    by (rewrite <- Hstep; reflexivity).
  assert (Hy : get (positions (updateParticles fround o count time a))
                   (3 * p + 1)
               = py (step fround o (preCalcEntry o p) time (read a p)))
    by (rewrite <- Hstep; reflexivity).
  assert (Hz : get (positions (updateParticles fround o count time a))
                   (3 * p + 2)
               = pz (step fround o (preCalcEntry o p) time (read a p)))
    by (rewrite <- Hstep; reflexivity).
  rewrite Hx, Hy, Hz. unfold step, read.
  cbn [px py pz pvx pvy pvz preCalcEntry speed phase amplitude].
  split; [repeat split|]. split; [reflexivity|].
  repeat split; intros;
    match goal with
    | |- context [Rlt_dec ?u ?v] => destruct (Rlt_dec u v)
    end; try reflexivity; lra.
Qed.

(** *** The boundary policy on stored values *)







(** X8. Initialisation gives particle [p] the six draws [6p .. 6p + 5] of
    [Math.random], scaled and rounded by the store.  As rounding keeps
    the order of numbers, every initial x and y lies between the
    float32 values of -1 and 1, every z between those of -0.15 and
    0.15, and every velocity component between those of -0.0005 and
    0.0005 (-0.0001 and 0.0001 along z). *)
Theorem initial_box (count : nat) (rnd : nat -> R) (p : nat) :
  monotone fround -> random rnd -> (p < count)%nat ->
  let q := read (initialize fround count rnd) p in
  q = drawn fround rnd p
  /\ (fround (-1) <= px q <= fround 1
      /\ fround (-1) <= py q <= fround 1
      /\ fround (-0.15) <= pz q <= fround 0.15)
  /\ (fround (-0.0005) <= pvx q <= fround 0.0005
      /\ fround (-0.0005) <= pvy q <= fround 0.0005
      /\ fround (-0.0001) <= pvz q <= fround 0.0001).
Proof.
  intros Hmono Hrnd Hp. cbv zeta.
  rewrite (read_initialize count rnd p Hp). split; [reflexivity|].
  unfold drawn. cbn [px py pz pvx pvy pvz].
  pose proof (Hrnd (6 * p)%nat). pose proof (Hrnd (6 * p + 1)%nat).
  pose proof (Hrnd (6 * p + 2)%nat). pose proof (Hrnd (6 * p + 3)%nat).
  pose proof (Hrnd (6 * p + 4)%nat). pose proof (Hrnd (6 * p + 5)%nat).
  repeat split; apply Hmono; lra.
Qed.

End Any_rounding.

Lemma floating_motion_adds_witness :
  let pc := nth 1 (preCalculatedValues default_options 2) no_entry in
  (phase pc = INR 1 * 0.1
   /\ speed pc = floatSpeed default_options + INR (1 mod 3) * 0.3
   /\ amplitude pc = floatAmplitude default_options + INR (1 mod 2) * 0.0005)
  /\ advance stretch default_options 2 ([] ++ [0])
       (initialize stretch 2 (fun _ => 0.5))
     = updateParticles stretch default_options 2 0
         (advance stretch default_options 2 []
            (initialize stretch 2 (fun _ => 0.5))).
Proof.
  cbv zeta.
  destruct (floating_motion_adds stretch default_options 2 [] 0
              (initialize stretch 2 (fun _ => 0.5)) 1)
    as (Htable & Htick & _).
  - lia.
  - apply stored_initialize_sized.
  - split; [exact Htable | exact Htick].
Defined.


Lemma stretch_monotone : monotone stretch.
Proof. intros x y H. unfold stretch. nra. Qed.


Lemma initial_box_witness :
  read (initialize stretch 3 (fun _ => 0.25)) 2
  = drawn stretch (fun _ => 0.25) 2.
Proof.
  apply (initial_box stretch 3 (fun _ => 0.25) 2).
  - exact stretch_monotone.
  - intros k. lra.
  - lia.
Defined.

End Float32Facts.

(* ================================================================== *)
(** * Properties of the scenery                                        *)
(* ================================================================== *)

Module SceneryFacts.
Import Particles ParticlesFacts.
Local Open Scope R_scope.

Lemma unit_circle (t : R) : sin t * sin t + cos t * cos t = 1.
Proof. pose proof (sin2_cos2 t) as H. unfold Rsqr in H. exact H. Qed.

(** X11. Whatever the time and wherever the lights were, a frame puts
    both lights on the same ellipse around (0, -10) with half-axes 8
    along x and 5 along z, at the height they had; the second light is
    where the first one was 1.5 time units earlier, mirrored in x. *)
Theorem lights_stay_on_orbit (t : R)
        (lights : FloatingLight.light * FloatingLight.light) :
  let now := FloatingLight.onFrame t lights in
  let earlier := FloatingLight.onFrame (t - 1.5) lights in
  (FloatingLight.on_orbit (fst now) /\ FloatingLight.on_orbit (snd now))
  /\ (FloatingLight.ly (fst now) = FloatingLight.ly (fst lights)
      /\ FloatingLight.ly (snd now) = FloatingLight.ly (snd lights))
  /\ (Rabs (FloatingLight.lx (fst now)) <= 8
      /\ -15 <= FloatingLight.lz (fst now) <= -5
      /\ Rabs (FloatingLight.lx (snd now)) <= 8
      /\ -15 <= FloatingLight.lz (snd now) <= -5)
  /\ (FloatingLight.lx (snd now) = - FloatingLight.lx (fst earlier)
      /\ FloatingLight.lz (snd now) = FloatingLight.lz (fst earlier)).
Proof.
  destruct lights as [l1 l2]. cbv zeta. unfold FloatingLight.onFrame.
  replace (t / 1) with t by field.
  replace ((t - 1.5) / 1) with (t - 1.5) by field.
  cbn [fst snd FloatingLight.lx FloatingLight.ly FloatingLight.lz].
  pose proof (unit_circle t) as H1.
  pose proof (unit_circle (t - 1.5)) as H2.
  pose proof (SIN_bound t) as S1. pose proof (COS_bound t) as C1.
  pose proof (SIN_bound (t - 1.5)) as S2.
  pose proof (COS_bound (t - 1.5)) as C2.
  unfold FloatingLight.on_orbit.
  cbn [FloatingLight.lx FloatingLight.ly FloatingLight.lz].
  repeat split; try reflexivity; try (apply Rabs_le); try lra; try nra.
  all: field_simplify; nra.
Qed.

(** X12. For every seed the three portal rings can be drawn - each tube
    is positive and thinner than its ring's radius - the rings are
    nested (each radius larger than the one before), and each speed
    stays within 0.2 above its base value. *)
Theorem portal_rings_are_drawable (seed : R) :
  exists inner middle outer,
    Portal.getUniquePortalConfigs seed = [inner; middle; outer]
    /\ (Portal.drawable inner /\ Portal.drawable middle
        /\ Portal.drawable outer)
    /\ (Portal.radius inner < Portal.radius middle
        /\ Portal.radius middle < Portal.radius outer)
    /\ (0.4 <= Portal.speed inner <= 0.6
        /\ 0.6 <= Portal.speed middle <= 0.8
        /\ 0.3 <= Portal.speed outer <= 0.5).
Proof.
  unfold Portal.getUniquePortalConfigs.
  do 3 eexists. split; [reflexivity|].
  unfold Portal.drawable.
  cbn [Portal.radius Portal.tube Portal.opacity Portal.speed].
  pose proof (SIN_bound seed). pose proof (COS_bound seed).
  pose proof (SIN_bound (seed * 1.5)). pose proof (COS_bound (seed * 1.5)).
  pose proof (Rabs_pos (sin (seed * 2))).
  pose proof (Rabs_pos (cos (seed * 2))).
  pose proof (Rabs_pos (sin (seed * 3))).
  assert (Rabs (sin (seed * 2)) <= 1)
    by (apply Rabs_le; pose proof (SIN_bound (seed * 2)); lra).
  assert (Rabs (cos (seed * 2)) <= 1)
    by (apply Rabs_le; pose proof (COS_bound (seed * 2)); lra).
  assert (Rabs (sin (seed * 3)) <= 1)
    by (apply Rabs_le; pose proof (SIN_bound (seed * 3)); lra).
  repeat split; lra.
Qed.

(** *** The callback of [Frame] *)

Lemma copy_loop_length (n : nat) :
  forall i src dst, List.length (FrameItem.copy_loop n i src dst)
                    = List.length dst.
Proof.
  induction n as [|n IH]; intros i src dst; cbn [FrameItem.copy_loop];
    [reflexivity|].
  now rewrite IH, length_set.
Qed.

Lemma copy_loop_get (n : nat) :
  forall i src dst j,
    (j < List.length dst)%nat ->
    get (FrameItem.copy_loop n i src dst) j
    = if (i <=? j) && (j <? i + n) then get src j else get dst j.
Proof.
  induction n as [|n IH]; intros i src dst j Hj; cbn [FrameItem.copy_loop].
  - destruct (i <=? j) eqn:E1; destruct (j <? i + 0) eqn:E2;
      try reflexivity.
    apply Nat.leb_le in E1. apply Nat.ltb_lt in E2. lia.
  - rewrite IH by (rewrite length_set; exact Hj).
    destruct (Nat.eq_dec j i) as [-> | Hne].
    + replace (i + 1 <=? i) with false by (symmetry; apply Nat.leb_gt; lia).
      replace (i <=? i) with true by (symmetry; apply Nat.leb_le; lia).
      replace (i <? i + S n) with true by (symmetry; apply Nat.ltb_lt; lia).
      cbn [andb]. now apply get_set_same.
    + rewrite get_set_other by lia.
      replace (i + 1 <=? j) with (i <=? j).
      * replace (j <? i + 1 + n) with (j <? i + S n) by (f_equal; lia).
        reflexivity.
      * destruct (i <=? j) eqn:E.
        -- apply Nat.leb_le in E. symmetry. apply Nat.leb_le. lia.
        -- apply Nat.leb_gt in E. symmetry. apply Nat.leb_gt. lia.
Qed.

(** X13. The callback of a frame keeps the image zoom between 1.5 and
    2.5, and leaves the geometry's position buffer equal to the particle
    buffer on all [particleCount * 3] slots, untouched beyond them and
    of unchanged length. *)
Theorem frame_callback_effects (rnd elapsedTime : R) (particleCount : nat)
        (particlePositions positions : buffer) (j : nat) :
  (j < List.length positions)%nat ->
  let positions' :=
    FrameItem.copy_positions particleCount particlePositions positions in
  1.5 <= FrameItem.zoom rnd elapsedTime <= 2.5
  /\ List.length positions' = List.length positions
  /\ ((j < particleCount * 3)%nat ->
      get positions' j = get particlePositions j)
  /\ ((particleCount * 3 <= j)%nat -> get positions' j = get positions j).
Proof.
  intros Hj. cbv zeta. unfold FrameItem.copy_positions, FrameItem.zoom.
  split; [|split; [apply copy_loop_length|]].
  - pose proof (SIN_bound (rnd * 10000 + elapsedTime / 3)). lra.
  - rewrite (copy_loop_get _ 0 _ _ j Hj).
    replace (0 <=? j) with true by (symmetry; apply Nat.leb_le; lia).
    cbn [andb Nat.add]. split; intros H.
    + now replace (j <? particleCount * 3) with true
        by (symmetry; apply Nat.ltb_lt; lia).
    + now replace (j <? particleCount * 3) with false
        by (symmetry; apply Nat.ltb_ge; lia).
Qed.

Lemma frame_callback_effects_witness :
  get (FrameItem.copy_positions 1 [1; 2; 3] [0; 0; 0; 7]) 3
  = get [0; 0; 0; 7] 3.
Proof.
  apply (frame_callback_effects 0 0 1 [1; 2; 3] [0; 0; 0; 7] 3).
  - cbn. lia.
  - lia.
Defined.

End SceneryFacts.

(* ================================================================== *)
(** * The camera components over sequences of events                   *)
(* ================================================================== *)

Module SceneEventFacts.
Import Scene SceneFacts SceneEvents.
Local Open Scope Q_scope.

Section Any_library.
Context {three : Three}.

(** *** gsap and the state of [Frames] stay in step *)

Lemma in_step_idle (pr : props) (s : frames) :
  timeline s = [] -> isAnimatingOut s = false -> in_step pr s.
Proof. intros Ht Ha. unfold in_step. now rewrite Ht. Qed.

Lemma in_step_cases (pr : props) (s : frames) :
  in_step pr s ->
  (timeline s = [] /\ isAnimatingOut s = false)
  \/ (isAnimatingOut s = true /\ truthy (selectedFrameId s) = true
      /\ targetFovRef s = initialFov pr
      /\ ((exists start from ease,
              timeline s
              = [PositionTween start from (section2Position pr) 1.2 ease])
          \/ exists start, timeline s = [DelayedCall start 0.5])).
Proof.
  unfold in_step.
  destruct (timeline s) as [|[start from tg du ease|start dl] [|]];
    try contradiction.
  - intros H. now left.
  - intros (Ha & Hs & Hf & -> & ->). right. repeat split; try assumption.
    left. now exists start, from, ease.
  - intros (Ha & Hs & Hf & ->). right. repeat split; try assumption.
    right. now exists start.
Qed.

Lemma in_step_trigger (pr : props) (seen : bool) (s : frames) :
  in_step pr s ->
  in_step pr (triggerZoomOut_of pr seen (selectedFrameId s) s).
Proof.
  intros H. unfold triggerZoomOut_of.
  destruct (negb seen && truthy (selectedFrameId s)) eqn:G; [|exact H].
  apply andb_true_iff in G. destruct G as [_ Hsel].
  destruct (in_step_cases pr s H) as [[Ht Ha] | (Ha & _ & Hf & _)].
  - pose proof (triggerZoomOut_from_zoomIn pr s Ha Hsel) as E.
    unfold triggerZoomOut, triggerZoomOut_of in E.
    rewrite Ha, Hsel in E. cbn [negb andb] in E. rewrite E, Ht.
    unfold in_step. cbn. repeat split. exact Hsel.
  - destruct s as [anim sel fovT cl fin cen qin qout zoomed n tl now].
    cbn in Ha, Hf. subst anim fovT. exact H.
Qed.

Lemma in_step_select (pr : props) (id : string) (s : frames) :
  in_step pr s -> in_step pr (select id s).
Proof.
  intros H. unfold select.
  destruct (isAnimatingOut s) eqn:Ha; [exact H|]. cbn [negb].
  destruct (in_step_cases pr s H) as [[Ht _] | (Ha' & _)]; [|congruence].
  apply in_step_idle.
  - unfold setSelectedFrameId, zoomInEffect.
    destruct (same_id _ _); [exact Ht|].
    cbn [selectedFrameId]. destruct (resolve (Some id)); exact Ht.
  - unfold setSelectedFrameId, zoomInEffect.
    destruct (same_id _ _); [exact Ha|].
    cbn [selectedFrameId]. destruct (resolve (Some id)); exact Ha.
Qed.

Lemma in_step_tick (pr : props) (now : Q) (s : frames) (c : camera) :
  in_step pr s -> in_step pr (fst (gsap_tick pr now (s, c))).
Proof.
  intros H.
  destruct (in_step_cases pr s H)
    as [[Ht Ha]
       | (Ha & Hs & Hf & [(start & from & ease & Ht) | (start & Ht)])].
  - rewrite (tick_when_idle pr now s c Ht). now apply in_step_idle.
  - destruct (Qlt_le_dec now (start + 1.2)) as [Hnow | Hnow].
    + pose proof (tick_during_tween pr now start 1.2 from _ ease s c
                    Ht Hnow) as Hx.
      cbv zeta in Hx. destruct (gsap_tick pr now (s, c)) as [s' c'].
      cbn [fst snd] in *. destruct Hx as (Hcore & Htl & _).
      unfold core in Hcore. injection Hcore as E1 E2 _ _ E5.
      unfold in_step. rewrite Htl, E1, E2, E5. now repeat split.
    + pose proof (tick_tween_end pr now start 1.2 from _ ease s c
                    Ht Hnow) as Hx.
      cbv zeta in Hx. destruct (gsap_tick pr now (s, c)) as [s' c'].
      cbn [fst snd] in *. destruct Hx as (Hcore & Htl & _).
      unfold core in Hcore. injection Hcore as E1 E2 _ _ E5.
      unfold in_step. rewrite Htl, E1, E2, E5. now repeat split.
  - destruct (Qlt_le_dec now (start + 0.5)) as [Hnow | Hnow].
    + pose proof (tick_during_delay pr now start 0.5 s c Ht Hnow) as Hx.
      cbv zeta in Hx. destruct (gsap_tick pr now (s, c)) as [s' c'].
      cbn [fst snd] in *. destruct Hx as (Hcore & Htl).
      unfold core in Hcore. injection Hcore as E1 E2 _ _ E5.
      unfold in_step. rewrite Htl, E1, E2, E5. now repeat split.
    + pose proof (tick_delay_due pr now start 0.5 s c Ht Hnow) as Hx.
      destruct (gsap_tick pr now (s, c)) as [s' c'].
      destruct Hx as (D1 & _ & _ & _ & D5). cbn [fst] in *.
      now apply in_step_idle.
Qed.

Lemma in_step_handle (pr : props) (e : event) (sc : frames * camera) :
  in_step pr (fst sc) -> in_step pr (fst (handle pr e sc)).
Proof.
  intros H. destruct sc as [s c]. cbn [fst] in H.
  destruct e as [o | | deltaY | now]; cbn [handle fst snd].
  - unfold onClick. destruct (is_clicked s o).
    + now apply in_step_trigger.
    + now apply in_step_select.
  - now apply in_step_trigger.
  - unfold onWheel.
    destruct (truthy (selectedFrameId s) && Qltb deltaY 0); [|exact H].
    now apply in_step_trigger.
  - now apply in_step_tick.
Qed.

(** X14. From mounting on, whatever clicks, missed clicks, wheel events
    and gsap ticks arrive in whatever order, gsap holds at most one task
    of the component: none exactly while no zoom out is running, and
    otherwise either the 1.2 tween to [section2Position] or the 0.5
    delayed call, with a frame selected and the field-of-view target
    back at [initialFov].  So zoom outs never overlap. *)
Theorem zoom_outs_never_overlap (pr : props) (q0 : Quat) (t0 : Q)
        (c : camera) (es : list event) :
  let s := fst (handle_all pr es (mounted pr q0 t0, c)) in
  in_step pr s
  /\ (List.length (timeline s) <= 1)%nat
  /\ (timeline s = [] <-> isAnimatingOut s = false).
Proof.
  cbv zeta.
  assert (H : in_step pr (fst (handle_all pr es (mounted pr q0 t0, c)))).
  { induction es as [|e es IH] using rev_ind.
    - now apply in_step_idle.
    - unfold handle_all in *. rewrite fold_left_app. cbn [fold_left].
      now apply in_step_handle. }
  split; [exact H|].
  destruct (in_step_cases pr _ H)
    as [[Ht Ha] | (Ha & _ & _ & [(st & fr & ea & Ht) | (st & Ht)])];
    rewrite Ht, Ha; cbn [List.length]; (split; [lia|]);
    split; intros E; congruence.
Qed.

(** *** Selecting *)

Lemma same_id_differs (a b : option string) : a <> b -> same_id a b = false.
Proof.
  intros H. destruct (same_id a b) eqn:E; [|reflexivity].
  apply same_id_eq in E. contradiction.
Qed.

Lemma select_resolved (id : string) (o : Obj) (s : frames) :
  getObjectByName id = Some o ->
  isAnimatingOut s = false ->
  selectedFrameId s <> Some id ->
  select id s
  = let final := parent_localToWorld o (mkVec3 0 (GOLDENRATIO / 2) 1.25) in
    let center := parent_localToWorld o (mkVec3 0 (GOLDENRATIO / 2) 0.7) in
    mkFrames false (Some id) 70 (Some o) final center
             (calculateLookAtQuaternion final center)
             (zoomOutTargetQ s) true (clearActiveCalls s) (timeline s)
             (gsap_time s).
Proof.
  intros Hres Ha Hne. unfold select, setSelectedFrameId. rewrite Ha.
  cbn [negb]. rewrite (same_id_differs _ _ Hne).
  unfold zoomInEffect. cbn [selectedFrameId resolve]. rewrite Hres.
  cbn [isAnimatingOut zoomOutTargetQ clearActiveCalls timeline gsap_time].
  reflexivity.
Qed.

(** X15. Selecting the name of an object while no zoom out runs - from
    idle or straight from another zoomed-in frame - makes it the
    selected frame at once: eye and look-at point are the object's
    parent-local points (0, 1/2, 1.25) and (0, 1/2, 0.7) in world space,
    the target orientation looks from the one to the other, the
    field-of-view target is 70, the zoomed flag is set; nothing is
    handed to gsap and nothing is cleared.  If the name is not empty,
    the next frame damps position and orientation towards these. *)
Theorem select_zooms_in (id : string) (o : Obj) (s : frames)
        (dt : Q) (c : camera) :
  getObjectByName id = Some o ->
  isAnimatingOut s = false ->
  selectedFrameId s <> Some id ->
  let s' := select id s in
  let final := parent_localToWorld o (mkVec3 0 (GOLDENRATIO / 2) 1.25) in
  let center := parent_localToWorld o (mkVec3 0 (GOLDENRATIO / 2) 0.7) in
  let c' := fst (frames_onFrame s' dt c) in
  (selectedFrameId s' = Some id /\ clicked s' = Some o
   /\ isAnimatingOut s' = false /\ isZoomed s' = true
   /\ targetFovRef s' = 70)
  /\ (finalZoomInPosition s' = final /\ frameCenterWorld s' = center
      /\ zoomInTargetQ s' = calculateLookAtQuaternion final center)
  /\ (timeline s' = timeline s
      /\ clearActiveCalls s' = clearActiveCalls s)
  /\ (id <> EmptyString ->
      position c' = damp3 (position c) final 0.4 dt
      /\ quaternion c'
         = dampQ (quaternion c) (calculateLookAtQuaternion final center)
                 0.4 dt).
Proof.
  intros Hres Ha Hne. cbv zeta.
  rewrite (select_resolved id o s Hres Ha Hne). cbv zeta.
  cbn [selectedFrameId clicked isAnimatingOut isZoomed targetFovRef
       finalZoomInPosition frameCenterWorld zoomInTargetQ timeline
       clearActiveCalls].
  repeat split.
  all: intros; unfold frames_onFrame;
    cbn [selectedFrameId clicked isAnimatingOut targetFovRef
         finalZoomInPosition zoomInTargetQ truthy is_Some_obj];
    replace (String.eqb id EmptyString) with false
      by (symmetry; now apply String.eqb_neq);
    cbn [negb andb];
    destruct (Qltb 0.01 _); reflexivity.
Qed.

(** X16. An object whose name is the empty string can be selected like
    any other - the zoomed flag is set and the field-of-view target
    becomes 70 - but the empty name counts as no selection everywhere
    else: the frame driver leaves position and orientation alone, and
    neither a missed click nor the wheel nor a second click on the same
    object starts the zoom out. *)
Theorem empty_name_cannot_zoom_out (pr : props) (o : Obj) (s : frames) :
  getObjectByName EmptyString = Some o ->
  same_object o o = true ->
  isAnimatingOut s = false ->
  selectedFrameId s <> Some EmptyString ->
  let s' := select EmptyString s in
  (isZoomed s' = true /\ targetFovRef s' = 70 /\ clicked s' = Some o)
  /\ onPointerMissed pr s' = s'
  /\ (forall deltaY, onWheel pr deltaY s' = s')
  /\ onClick pr o s' = s'
  /\ (forall dt c,
        position (fst (frames_onFrame s' dt c)) = position c
        /\ quaternion (fst (frames_onFrame s' dt c)) = quaternion c).
Proof.
  intros Hres Hsame Ha Hne. cbv zeta.
  rewrite (select_resolved EmptyString o s Hres Ha Hne). cbv zeta.
  set (s' := mkFrames _ _ _ _ _ _ _ _ _ _ _ _).
  assert (Hidle : truthy (selectedFrameId s') = false) by reflexivity.
  split; [now repeat split|].
  split; [now apply triggerZoomOut_idle|].
  split; [intros deltaY; unfold onWheel; now rewrite Hidle|].
  split.
  - unfold onClick, is_clicked. cbn [clicked s']. rewrite Hsame.
    now apply triggerZoomOut_idle.
  - intros dt c. apply frames_onFrame_idle; [reflexivity|].
    now rewrite Hidle.
Qed.

(** *** The parallax over many frames *)

Lemma ratio_power_succ (n : nat) :
  ratio ^ Z.of_nat (S n) == ratio ^ Z.of_nat n * ratio.
Proof.
  rewrite Nat2Z.inj_succ, <- Z.add_1_r.
  rewrite Qpower_plus by (unfold ratio; discriminate).
  reflexivity.
Qed.

Lemma ratio_power_bounds (n : nat) :
  0 <= ratio ^ Z.of_nat n /\ ratio ^ Z.of_nat n <= 1.
Proof.
  induction n as [|n [IH0 IH1]].
  - cbn. split; Lqa.lra.
  - rewrite ratio_power_succ. unfold ratio at 2 4. split; Lqa.nra.
Qed.

Lemma frame_blends (m : mouse_refs) (lookAtRef : option Obj) (c : camera) :
  let target :=
    mkVec3 (vx (basePositionRef m) + mouseX m * MAX_HORIZONTAL_OFFSET)
           (vy (basePositionRef m)) (vz (basePositionRef m)) in
  position (fst (mouse_onFrame m lookAtRef c))
  = lerp (position c) target LERP_SPEED.
Proof. unfold mouse_onFrame, camera_lookAt. now destruct lookAtRef. Qed.

(** X17. With the pointer at rest every frame shrinks the camera's
    distance to its target - the base position shifted by
    [mouseX * 0.5] along x - by the factor 0.95 in each coordinate:
    after [n] frames the remaining error is the initial error times
    0.95^n, so the camera approaches the target from its own side and
    never overshoots. *)
Theorem parallax_converges (n : nat) (m : mouse_refs)
        (lookAtRef : option Obj) (c : camera) :
  let base := basePositionRef m in
  let targetX := vx base + mouseX m * MAX_HORIZONTAL_OFFSET in
  let p := position c in
  let p' := position (render_times n m lookAtRef c) in
  (vx p' - targetX == (vx p - targetX) * ratio ^ Z.of_nat n
   /\ vy p' - vy base == (vy p - vy base) * ratio ^ Z.of_nat n
   /\ vz p' - vz base == (vz p - vz base) * ratio ^ Z.of_nat n)
  /\ Qabs (vx p' - targetX) <= Qabs (vx p - targetX).
Proof.
  cbv zeta.
  assert (H : vx (position (render_times n m lookAtRef c))
              - (vx (basePositionRef m) + mouseX m * MAX_HORIZONTAL_OFFSET)
              == (vx (position c)
                  - (vx (basePositionRef m)
                     + mouseX m * MAX_HORIZONTAL_OFFSET))
                 * ratio ^ Z.of_nat n
              /\ vy (position (render_times n m lookAtRef c))
                 - vy (basePositionRef m)
                 == (vy (position c) - vy (basePositionRef m))
                    * ratio ^ Z.of_nat n
              /\ vz (position (render_times n m lookAtRef c))
                 - vz (basePositionRef m)
                 == (vz (position c) - vz (basePositionRef m))
                    * ratio ^ Z.of_nat n).
  { induction n as [|n (IHx & IHy & IHz)].
    - cbn. repeat split; Lqa.lra.
    - unfold render_times in *. rewrite Nat.iter_succ.
      rewrite frame_blends, ratio_power_succ.
      cbn [lerp vx vy vz]. unfold LERP_SPEED, ratio at 2 4 6.
      repeat split; Lqa.nra. }
  split; [exact H|]. destruct H as (Hx & _ & _).
  rewrite Hx, Qabs_Qmult.
  destruct (ratio_power_bounds n) as [H0 H1].
  rewrite (Qabs_pos (ratio ^ Z.of_nat n)) by exact H0.
  pose proof (Qabs_nonneg
                (vx (position c)
                 - (vx (basePositionRef m)
                    + mouseX m * MAX_HORIZONTAL_OFFSET))).
  Lqa.nra.
Qed.

Lemma in_viewport_unit (clientX innerWidth : Q) (m : mouse_refs) :
  0 < innerWidth -> 0 <= clientX -> clientX <= innerWidth ->
  Qabs (mouseX (handleMouseMove clientX innerWidth m)) <= 1.
Proof.
  intros Hw H0 H1. cbn [handleMouseMove mouseX].
  apply Qabs_Qle_condition.
  now apply normalized_in_range.
Qed.

(** X18. Driven by the parallax controller alone - pointer moves inside
    the window and render frames in any order - the camera never moves
    further than MAX_HORIZONTAL_OFFSET from where the controller was
    attached: y and z stay where they were and x stays within 0.5 of the
    base position, which itself never changes. *)
Theorem parallax_offset_bounded (lookAtRef : option Obj) (c0 : camera)
        (es : list mouse_event) :
  Forall in_viewport es ->
  let after := mouse_handle_all lookAtRef es (attach c0, c0) in
  let p := position (snd after) in
  basePositionRef (fst after) = position c0
  /\ Qabs (vx p - vx (position c0)) <= MAX_HORIZONTAL_OFFSET
  /\ vy p == vy (position c0)
  /\ vz p == vz (position c0).
Proof.
  intros Hes. cbv zeta.
  assert (H : basePositionRef
                (fst (mouse_handle_all lookAtRef es (attach c0, c0)))
              = position c0
              /\ Qabs (mouseX
                        (fst (mouse_handle_all lookAtRef es (attach c0, c0))))
                 <= 1
              /\ Qabs (vx (position
                             (snd (mouse_handle_all lookAtRef es
                                                    (attach c0, c0))))
                       - vx (position c0)) <= MAX_HORIZONTAL_OFFSET
              /\ vy (position
                       (snd (mouse_handle_all lookAtRef es (attach c0, c0))))
                 == vy (position c0)
              /\ vz (position
                       (snd (mouse_handle_all lookAtRef es (attach c0, c0))))
                 == vz (position c0)).
  { induction es as [|e es IH] using rev_ind.
    - unfold mouse_handle_all, MAX_HORIZONTAL_OFFSET.
      cbn [fold_left fst snd attach mouseX basePositionRef].
      repeat split; try reflexivity;
        try (apply Qabs_Qle_condition; split; Lqa.lra).
    - apply Forall_app in Hes. destruct Hes as [Hes He].
      apply Forall_inv in He.
      unfold mouse_handle_all in *. rewrite fold_left_app. cbn [fold_left].
      destruct (fold_left _ es _) as [m c]. cbn [fst snd] in *.
      destruct (IH Hes) as (Hb & Hm & Hx & Hy & Hz).
      destruct e as [clientX innerWidth|]; cbn [mouse_handle fst snd].
      + destruct He as (Hw & H0 & H1).
        repeat split; try assumption.
        now apply in_viewport_unit.
      + rewrite frame_blends. cbn [lerp vx vy vz]. rewrite Hb.
        apply Qabs_Qle_condition in Hm. apply Qabs_Qle_condition in Hx.
        unfold MAX_HORIZONTAL_OFFSET, LERP_SPEED in *.
        repeat split; try assumption;
          try (apply Qabs_Qle_condition; split; Lqa.lra);
          try Lqa.lra;
          try (apply Qabs_Qle_condition; exact Hm). }
  destruct H as (Hb & _ & Hx & Hy & Hz). repeat split; assumption.
Qed.

End Any_library.

Lemma select_zooms_in_witness :
  let s' := select (three := demo) "f2" demo_zoomed_in in
  selectedFrameId s' = Some "f2"%string /\ clicked s' = Some "f2"%string
  /\ isAnimatingOut s' = false /\ isZoomed s' = true
  /\ targetFovRef s' = 70.
Proof.
  cbv zeta.
  apply (select_zooms_in (three := demo) "f2" "f2"%string demo_zoomed_in
           (1 # 60) demo_camera).
  - reflexivity.
  - reflexivity.
  - discriminate.
Defined.

Lemma empty_name_cannot_zoom_out_witness :
  let s' := select (three := demo_with_group) ""
                   (mounted (three := demo_with_group) demo_props
                            (mkVec3 0 0 0, mkVec3 0 0 0) 0) in
  onPointerMissed (three := demo_with_group) demo_props s' = s'.
Proof.
  cbv zeta.
  apply (empty_name_cannot_zoom_out (three := demo_with_group) demo_props
           "group"%string
           (mounted (three := demo_with_group) demo_props
                    (mkVec3 0 0 0, mkVec3 0 0 0) 0)).
  - reflexivity.
  - reflexivity.
  - reflexivity.
  - discriminate.
Defined.

Lemma parallax_offset_bounded_witness :
  let after :=
    mouse_handle_all (three := demo) None
                     [Move 400 400; Render; Render; Move 0 400; Render]
                     (attach demo_camera, demo_camera) in
  Qabs (vx (position (snd after)) - vx (position demo_camera))
  <= MAX_HORIZONTAL_OFFSET.
Proof.
  cbv zeta.
  apply (parallax_offset_bounded (three := demo) None demo_camera
           [Move 400 400; Render; Render; Move 0 400; Render]).
  repeat constructor; vm_compute; discriminate.
Defined.

End SceneEventFacts.

(* ================================================================== *)
(** * Properties of the content registry                               *)
(* ================================================================== *)

Module CachedElementsFacts.
Import CachedElements.

Section Any_engine.
Variable selects : string -> option (document -> nat -> bool).
Variable exotic : string -> element -> outcome bool.

(** *** Writes to one node *)

Lemma length_update (d : document) (id : nat) (f : element -> element) :
  List.length (update d id f) = List.length d.
Proof.
  revert id. induction d as [|e d IH]; intros [|id]; cbn; auto.
Qed.

Lemma node_update_same (d : document) (id : nat) (f : element -> element) :
  (id < List.length d)%nat -> node (update d id f) id = f (node d id).
Proof.
  unfold node. revert id.
  induction d as [|e d IH]; intros [|id] H; cbn in *; try lia; auto.
  apply IH. lia.
Qed.

Lemma node_update_other (d : document) (id id' : nat)
      (f : element -> element) :
  id <> id' -> node (update d id f) id' = node d id'.
Proof.
  unfold node. revert id id'.
  induction d as [|e d IH]; intros [|id] [|id'] H; cbn; auto; try lia.
Qed.

Lemma node_outside (d : document) (id : nat) :
  (List.length d <= id)%nat -> node d id = no_element.
Proof. intros H. unfold node. now apply nth_overflow. Qed.

Lemma node_update (d : document) (id id' : nat) (f : element -> element) :
  f no_element = no_element ->
  node (update d id f) id'
  = if Nat.eqb id id' then f (node d id') else node d id'.
Proof.
  intros Hf. destruct (Nat.eqb id id') eqn:E.
  - apply Nat.eqb_eq in E. subst id'.
    destruct (Nat.lt_ge_cases id (List.length d)) as [H | H].
    + now apply node_update_same.
    + rewrite !node_outside; [now rewrite Hf | exact H |].
      now rewrite length_update.
  - apply Nat.eqb_neq in E. now apply node_update_other.
Qed.

(** *** Class tokens *)

Lemma contains_add (token : string) (e : element) :
  contains token (add token e) = true.
Proof.
  unfold add. destruct (contains token e) eqn:E; [exact E|].
  unfold contains. cbn [classList]. rewrite existsb_app. cbn.
  now rewrite String.eqb_refl, orb_true_r.
Qed.

Lemma contains_remove (token : string) (e : element) :
  contains token (remove token e) = false.
Proof.
  unfold contains, remove. cbn [classList].
  induction (classList e) as [|t l IH]; [reflexivity|]. cbn.
  destruct (String.eqb token t) eqn:E; cbn; [exact IH|].
  now rewrite E.
Qed.

Lemma remove_twice (token : string) (e : element) :
  remove token (remove token e) = remove token e.
Proof.
  unfold remove. cbn [classList links]. f_equal.
  induction (classList e) as [|t l IH]; [reflexivity|]. cbn.
  destruct (String.eqb token t) eqn:E; cbn; [exact IH|].
  rewrite E. cbn. now rewrite IH.
Qed.

(** *** clearActiveClasses *)

Lemma clear_nodes (ids : list nat) :
  forall (d : document) (id : nat),
    node (clearActiveClasses (Some ids) d) id
    = if existsb (Nat.eqb id) ids then remove "active" (node d id)
      else node d id.
Proof.
  induction ids as [|i ids IH]; intros d id; [reflexivity|].
  cbn [clearActiveClasses fold_left existsb] in *.
  rewrite IH, (node_update d i id) by reflexivity.
  rewrite (Nat.eqb_sym id i).
  destruct (Nat.eqb i id); cbn [orb]; [|reflexivity].
  destruct (existsb (Nat.eqb id) ids); [apply remove_twice | reflexivity].
Qed.

Lemma clear_length (elementsRef : cache) (d : document) :
  List.length (clearActiveClasses elementsRef d) = List.length d.
Proof.
  destruct elementsRef as [ids|]; [|reflexivity]. revert d.
  induction ids as [|i ids IH]; intros d; [reflexivity|].
  cbn [clearActiveClasses fold_left] in *. now rewrite IH, length_update.
Qed.

Lemma same_nodes (d d' : document) :
  List.length d = List.length d' ->
  (forall id, node d id = node d' id) -> d = d'.
Proof.
  intros Hlen Hnodes. apply (nth_ext d d' no_element no_element Hlen).
  intros id _. apply Hnodes.
Qed.

Lemma cached_member (id : nat) (ids : list nat) :
  existsb (Nat.eqb id) ids = true <-> In id ids.
Proof.
  rewrite existsb_exists. split.
  - intros (x & Hin & E). apply Nat.eqb_eq in E. now subst.
  - intros H. exists id. split; [exact H | apply Nat.eqb_refl].
Qed.

(** X19. After [clearActiveClasses] no cached element carries the class
    ["active"]; every other class token of a cached element, every link
    and every element outside the cache is as before, and clearing again
    changes nothing.  With an empty ([null]) cache nothing is cleared. *)
Theorem clear_removes_every_active (ids : list nat) (d : document) :
  let d' := clearActiveClasses (Some ids) d in
  (forall id, In id ids -> is_active d' id = false)
  /\ (forall id, In id ids ->
        classList (node d' id)
        = filter (fun t => negb (String.eqb "active" t))
                 (classList (node d id))
        /\ links (node d' id) = links (node d id))
  /\ (forall id, ~ In id ids -> node d' id = node d id)
  /\ List.length d' = List.length d
  /\ clearActiveClasses (Some ids) d' = d'
  /\ clearActiveClasses None d = d.
Proof.
  cbv zeta. repeat split.
  - intros id Hin. unfold is_active. rewrite clear_nodes.
    apply cached_member in Hin. rewrite Hin. apply contains_remove.
  - rewrite clear_nodes. apply cached_member in H. now rewrite H.
  - rewrite clear_nodes. apply cached_member in H. now rewrite H.
  - intros id Hout. rewrite clear_nodes.
    destruct (existsb (Nat.eqb id) ids) eqn:E; [|reflexivity].
    apply cached_member in E. contradiction.
  - apply clear_length.
  - apply same_nodes; [apply clear_length|].
    intros id. rewrite !clear_nodes.
    destruct (existsb (Nat.eqb id) ids); [apply remove_twice | reflexivity].
Qed.

(** *** findElementBySlug *)

Lemma find_from_found (slug : string) (d : document) (ids : list nat) :
  forall (i id index : nat),
    find_from exotic i ids slug d = Returns (Some (id, index)) ->
    exists j,
      index = (i + j)%nat
      /\ nth_error ids j = Some id
      /\ has_link exotic slug (node d id) = Returns true
      /\ forall j' id',
          (j' < j)%nat -> nth_error ids j' = Some id' ->
          has_link exotic slug (node d id') = Returns false.
Proof.
  induction ids as [|x ids IH]; intros i id index H; [discriminate|].
  cbn [find_from] in H.
  destruct (has_link exotic slug (node d x)) as [[|]|] eqn:E;
    [| |discriminate].
  - injection H as <- <-. exists 0%nat.
    repeat split; [lia | exact E | intros j' id' Hlt; lia].
  - destruct (IH _ _ _ H) as (j & -> & Hnth & Hlink & Hfirst).
    exists (S j). repeat split; [lia | exact Hnth | exact Hlink |].
    intros [|j'] id' Hlt Hj'.
    + injection Hj' as <-. exact E.
    + apply (Hfirst j'); [lia | exact Hj'].
Qed.

Lemma find_from_none (slug : string) (d : document) (ids : list nat) :
  forall i,
    find_from exotic i ids slug d = Returns None
    <-> Forall (fun id => has_link exotic slug (node d id) = Returns false)
               ids.
Proof.
  induction ids as [|x ids IH]; intros i; cbn [find_from].
  - split; [constructor | reflexivity].
  - destruct (has_link exotic slug (node d x)) as [[|]|] eqn:E.
    + split; [discriminate|]. intros H. apply Forall_inv in H. congruence.
    + rewrite IH. split.
      * intros H. now constructor.
      * intros H. now apply Forall_inv_tail in H.
    + split; [discriminate|]. intros H. apply Forall_inv in H. congruence.
Qed.

Lemma active_after_set (ids : list nat) (d : document) (id id' : nat) :
  (id < List.length d)%nat ->
  In id' ids ->
  is_active (update (clearActiveClasses (Some ids) d) id (add "active")) id'
  = Nat.eqb id id'.
Proof.
  intros Hid Hin. unfold is_active.
  destruct (Nat.eqb id id') eqn:E.
  - apply Nat.eqb_eq in E. subst id'.
    rewrite node_update_same by (now rewrite clear_length).
    apply contains_add.
  - apply Nat.eqb_neq in E. rewrite node_update_other by exact E.
    rewrite clear_nodes. apply cached_member in Hin. rewrite Hin.
    apply contains_remove.
Qed.

(** X20. When [findElementBySlug] finds an element, [setActiveBySlug]
    returns its index in the cache, which is the first index whose
    element has a matching link; afterwards that element is the only
    cached one carrying ["active"], and nothing outside the cache has
    changed. *)
Theorem setActiveBySlug_selects_one (ids : list nat) (slug : string)
        (d : document) (id index : nat) :
  cached_in d ids ->
  findElementBySlug exotic (Some ids) slug d = Returns (Some (id, index)) ->
  let result := setActiveBySlug exotic (Some ids) slug d in
  let d' := snd result in
  fst result = Returns (Z.of_nat index)
  /\ (nth_error ids index = Some id
      /\ forall j id',
          (j < index)%nat -> nth_error ids j = Some id' ->
          has_link exotic slug (node d id') = Returns false)
  /\ (forall id', In id' ids -> (is_active d' id' = true <-> id' = id))
  /\ (forall id', ~ In id' ids -> node d' id' = node d id')
  /\ List.length d' = List.length d.
Proof.
  intros [Hnodup Hrange] Hfind. cbv zeta.
  unfold setActiveBySlug. rewrite Hfind. cbn [fst snd].
  cbn [findElementBySlug] in Hfind.
  destruct (find_from_found slug d ids 0 id index Hfind)
    as (j & -> & Hnth & Hlink & Hfirst).
  cbn [Nat.add].
  assert (Hin : In id ids) by (eapply nth_error_In; exact Hnth).
  assert (Hid : (id < List.length d)%nat).
  { rewrite Forall_forall in Hrange. now apply Hrange. }
  split; [reflexivity|]. split; [split; [exact Hnth | exact Hfirst]|].
  split; [|split].
  - intros id' Hin'. rewrite (active_after_set ids d id id' Hid Hin').
    rewrite Nat.eqb_eq. split; congruence.
  - intros id' Hout.
    rewrite node_update_other by (intros ->; contradiction).
    rewrite clear_nodes.
    destruct (existsb (Nat.eqb id') ids) eqn:E; [|reflexivity].
    apply cached_member in E. contradiction.
  - now rewrite length_update, clear_length.
Qed.

(** X21. [setActiveBySlug] changes the page only when it returns an
    index: when nothing matches it returns -1, when the selector built
    from the slug throws so does it, and in both cases every element is
    as before.  With a [null] or an empty cache no selector is ever
    built: the result is -1 for every slug. *)
Theorem setActiveBySlug_miss (elementsRef : cache) (slug : string)
        (d : document) :
  let result := setActiveBySlug exotic elementsRef slug d in
  ((exists index, fst result = Returns (Z.of_nat index))
   \/ ((fst result = Returns (-1)%Z \/ fst result = Throws)
       /\ snd result = d))
  /\ (fst result = Returns (-1)%Z
      <-> findElementBySlug exotic elementsRef slug d = Returns None)
  /\ (elementsRef = None \/ elementsRef = Some [] ->
      result = (Returns (-1)%Z, d)
      /\ findElementBySlug exotic elementsRef slug d = Returns None).
Proof.
  cbv zeta. unfold setActiveBySlug.
  split; [|split].
  - destruct (findElementBySlug exotic elementsRef slug d)
      as [[[id index]|]|]; cbn [fst snd].
    + left. now exists index.
    + right. split; [now left | reflexivity].
    + right. split; [now right | reflexivity].
  - destruct (findElementBySlug exotic elementsRef slug d)
      as [[[id index]|]|]; cbn [fst snd]; split; intros H;
      try discriminate; try reflexivity.
    injection H as H. lia.
  - intros [-> | ->]; cbn; now split.
Qed.

(** X22. For a slug without quote, backslash or line break the lookup
    never throws; it returns [null] exactly when no cached element has a
    link whose [href] ends with ["/" + slug], and otherwise the first
    cached element that has one. *)
Theorem findElementBySlug_plain (ids : list nat) (slug : string)
        (d : document) :
  plain slug = true ->
  let matching id :=
    existsb (ends_with (String "/" slug)) (links (node d id)) in
  findElementBySlug exotic (Some ids) slug d <> Throws
  /\ (findElementBySlug exotic (Some ids) slug d = Returns None
      <-> forall id, In id ids -> matching id = false)
  /\ (forall id index,
        findElementBySlug exotic (Some ids) slug d
        = Returns (Some (id, index)) ->
        nth_error ids index = Some id /\ matching id = true
        /\ forall j id',
            (j < index)%nat -> nth_error ids j = Some id' ->
            matching id' = false).
Proof.
  intros Hplain. cbv zeta. cbn [findElementBySlug].
  assert (Hlink : forall e,
             has_link exotic slug e
             = Returns (existsb (ends_with (String "/" slug)) (links e))).
  { intros e. unfold has_link. now rewrite Hplain. }
  split; [|split].
  - generalize 0%nat. induction ids as [|x ids IH]; intros i;
      cbn [find_from]; [discriminate|].
    rewrite Hlink. destruct (existsb _ _); [discriminate | apply IH].
  - rewrite find_from_none, Forall_forall.
    split; intros H id Hin; specialize (H id Hin); rewrite Hlink in *;
      congruence.
  - intros id index Hfind.
    destruct (find_from_found slug d ids 0 id index Hfind)
      as (j & -> & Hnth & Hl & Hfirst).
    cbn [Nat.add]. rewrite Hlink in Hl. split; [exact Hnth|].
    split; [congruence|].
    intros j' id' Hlt Hj'. specialize (Hfirst j' id' Hlt Hj').
    rewrite Hlink in Hfirst. congruence.
Qed.

(** X23. [addActiveClass] marks the cached element at the index and
    touches nothing else - it does not clear the others; an index that
    is negative or past the end of the cache, and a [null] cache, leave
    the page as it is. *)
Theorem addActiveClass_effect (ids : list nat) (index : Z) (d : document) :
  cached_in d ids ->
  let d' := addActiveClass (Some ids) index d in
  ((index < 0)%Z \/ (Z.of_nat (List.length ids) <= index)%Z -> d' = d)
  /\ (forall id,
        (0 <= index)%Z -> nth_error ids (Z.to_nat index) = Some id ->
        is_active d' id = true
        /\ forall id', id' <> id -> node d' id' = node d id')
  /\ addActiveClass None index d = d.
Proof.
  intros [_ Hrange]. cbv zeta. unfold addActiveClass.
  split; [|split; [|reflexivity]].
  - intros [Hneg | Hpast].
    + apply Z.ltb_lt in Hneg. now rewrite Hneg.
    + destruct (index <? 0)%Z; [reflexivity|].
      assert (H : nth_error ids (Z.to_nat index) = None)
        by (apply nth_error_None; lia).
      now rewrite H.
  - intros id Hpos Hnth.
    replace (index <? 0)%Z with false by (symmetry; apply Z.ltb_ge; lia).
    rewrite Hnth.
    assert (Hid : (id < List.length d)%nat).
    { rewrite Forall_forall in Hrange. apply Hrange.
      eapply nth_error_In. exact Hnth. }
    split.
    + unfold is_active. rewrite node_update_same by exact Hid.
      apply contains_add.
    + intros id' Hne. apply node_update_other. congruence.
Qed.

(** X24. [refreshElements] caches, in document order and without
    repetition, exactly the elements of the page that the selector
    matches; a selector that does not parse leaves a [null] cache.  A
    visibility change refreshes the cache only when the page has become
    visible. *)
Theorem refreshElements_caches (selector : string) (d : document)
        (elementsRef : cache) :
  (forall matches,
      selects selector = Some matches ->
      exists ids,
        refreshElements selects selector d = Some ids
        /\ cached_in d ids
        /\ (forall id, In id ids
                       <-> (id < List.length d)%nat /\ matches d id = true)
        /\ ids = filter (matches d) (seq 0 (List.length d)))
  /\ (selects selector = None -> refreshElements selects selector d = None)
  /\ handleVisibilityChange selects true selector d elementsRef = elementsRef
  /\ handleVisibilityChange selects false selector d elementsRef
     = refreshElements selects selector d.
Proof.
  split; [|split; [|split; reflexivity]].
  - intros matches Hsel. unfold refreshElements. rewrite Hsel.
    eexists. split; [reflexivity|]. split; [split|split; [|reflexivity]].
    + apply NoDup_filter, seq_NoDup.
    + apply Forall_forall. intros id Hin. apply filter_In in Hin.
      destruct Hin as [Hin _]. apply in_seq in Hin. lia.
    + intros id. rewrite filter_In, in_seq. split; intros [H1 H2];
        (split; [lia | exact H2]).
  - intros Hsel. unfold refreshElements. now rewrite Hsel.
Qed.

End Any_engine.
Local Open Scope string_scope.

Lemma setActiveBySlug_selects_one_witness :
  let d := [mkElement ["card"; "active"] ["/work/alpha"];
            mkElement ["card"] ["/about"; "/work/beta"]] in
  let result :=
    setActiveBySlug (fun _ _ => Throws) (Some [0; 1]%nat) "beta" d in
  fst result = Returns 1%Z
  /\ is_active (snd result) 0 = false
  /\ is_active (snd result) 1 = true.
Proof.
  cbv zeta.
  pose proof (setActiveBySlug_selects_one (fun _ _ => Throws)
                [0; 1]%nat "beta"
                [mkElement ["card"; "active"] ["/work/alpha"];
                 mkElement ["card"] ["/about"; "/work/beta"]] 1 1) as H.
  cbv zeta in H.
  destruct H as (Hresult & _ & Hactive & _).
  - split.
    + repeat constructor; cbn; intuition lia.
    + repeat constructor.
  - reflexivity.
  - split; [exact Hresult|]. split.
    + destruct (is_active _ 0) eqn:E; [|reflexivity].
      apply Hactive in E; [discriminate | cbn; tauto].
    + apply Hactive; [cbn; tauto | reflexivity].
Defined.

Lemma findElementBySlug_plain_witness :
  findElementBySlug (fun _ _ => Throws) (Some [0; 1]%nat) "gamma"
    [mkElement ["card"; "active"] ["/work/alpha"];
     mkElement ["card"] ["/about"; "/work/beta"]]
  <> Throws.
Proof.
  apply (findElementBySlug_plain (fun _ _ => Throws) [0; 1]%nat "gamma"
           [mkElement ["card"; "active"] ["/work/alpha"];
            mkElement ["card"] ["/about"; "/work/beta"]]).
  reflexivity.
Defined.

Lemma addActiveClass_effect_witness :
  let d := [mkElement ["card"; "active"] ["/work/alpha"];
            mkElement ["card"] ["/about"; "/work/beta"]] in
  addActiveClass (Some [0; 1]%nat) 2 d = d
  /\ is_active (addActiveClass (Some [0; 1]%nat) 1 d) 1 = true
  /\ node (addActiveClass (Some [0; 1]%nat) 1 d) 0 = node d 0.
Proof.
  cbv zeta.
  assert (Hc : cached_in
                 [mkElement ["card"; "active"] ["/work/alpha"];
                  mkElement ["card"] ["/about"; "/work/beta"]]
                 [0; 1]%nat).
  { split.
    - repeat constructor; cbn; intuition lia.
    - repeat constructor. }
  destruct (addActiveClass_effect [0; 1]%nat 2 _ Hc) as (Hpast & _).
  destruct (addActiveClass_effect [0; 1]%nat 1 _ Hc) as (_ & Hat & _).
  cbv zeta in Hpast, Hat.
  destruct (Hat 1%nat) as (Hactive & Hothers); [lia | reflexivity |].
  split; [|split].
  - apply Hpast. right. cbn. lia.
  - exact Hactive.
  - apply Hothers. lia.
Defined.

End CachedElementsFacts.

(* ================================================================== *)
(** * Properties of the projects read from the page *)

Module ImagesFacts.
Import CachedElements Images.
Import CachedElementsFacts.
Local Open Scope string_scope.

(** *** Strings *)

Lemma nonempty_true (s : string) : nonempty s = true <-> s <> "".
Proof.
  unfold nonempty. rewrite negb_true_iff. split.
  - intros H ->. now rewrite String.eqb_refl in H.
  - intros H. now apply String.eqb_neq.
Qed.

Lemma nonempty_false (s : string) : nonempty s = false <-> s = "".
Proof.
  unfold nonempty. rewrite negb_false_iff. apply String.eqb_eq.
Qed.

Lemma occurs_cons (c x : ascii) (s : string) :
  occurs c (String x s) <-> x = c \/ occurs c s.
Proof. reflexivity. Qed.

Lemma occurs_app (c : ascii) (a b : string) :
  occurs c (a ++ b) <-> occurs c a \/ occurs c b.
Proof.
  induction a as [|x a IH]; cbn [append].
  - unfold occurs at 2. cbn. tauto.
  - rewrite !occurs_cons, IH. tauto.
Qed.

Lemma split_not_nil (sep : ascii) (s : string) : split sep s <> [].
Proof.
  destruct s as [|c rest]; cbn [split]; [discriminate|].
  destruct (Ascii.eqb c sep); [discriminate|].
  destruct (split sep rest); discriminate.
Qed.

(** The first segment is the longest prefix free of the separator. *)
Lemma hd_split (sep : ascii) (s : string) :
  let h := hd "" (split sep s) in
  ~ occurs sep h /\ (s = h \/ exists t, s = h ++ String sep t).
Proof.
  induction s as [|c rest IH]; cbn [split].
  - cbn. split; [tauto | now left].
  - destruct (Ascii.eqb c sep) eqn:E.
    + apply Ascii.eqb_eq in E. subst c. cbn [hd]. split.
      * unfold occurs. cbn. tauto.
      * right. now exists rest.
    + apply Ascii.eqb_neq in E. cbv zeta in IH.
      pose proof (split_not_nil sep rest) as Hne.
      destruct (split sep rest) as [|seg segs]; [contradiction|].
      cbn [hd] in *. destruct IH as [Hfree Hshape]. split.
      * rewrite occurs_cons. tauto.
      * destruct Hshape as [-> | [t ->]]; [now left | right].
        now exists t.
Qed.

Lemma split_free (sep : ascii) (t : string) :
  ~ occurs sep t -> split sep t = [t].
Proof.
  induction t as [|c rest IH]; intros Hfree; cbn [split]; [reflexivity|].
  rewrite occurs_cons in Hfree.
  destruct (Ascii.eqb c sep) eqn:E.
  - apply Ascii.eqb_eq in E. tauto.
  - rewrite IH by tauto. reflexivity.
Qed.

Lemma split_app (sep : ascii) (a b : string) :
  split sep (a ++ String sep b) = (split sep a ++ split sep b)%list.
Proof.
  induction a as [|c rest IH]; cbn [append split].
  - now rewrite Ascii.eqb_refl.
  - destruct (Ascii.eqb c sep); [now rewrite IH|].
    rewrite IH. pose proof (split_not_nil sep rest) as Hne.
    destruct (split sep rest) as [|seg segs]; [contradiction|].
    reflexivity.
Qed.

Lemma segments_free (sep : ascii) (s : string) :
  Forall (fun seg => ~ occurs sep seg) (split sep s).
Proof.
  induction s as [|c rest IH]; cbn [split].
  - constructor; [|constructor]. unfold occurs. cbn. tauto.
  - destruct (Ascii.eqb c sep) eqn:E.
    + constructor; [|exact IH]. unfold occurs. cbn. tauto.
    + apply Ascii.eqb_neq in E.
      destruct (split sep rest) as [|seg segs].
      * constructor; [|constructor]. rewrite occurs_cons.
        unfold occurs. cbn. tauto.
      * inversion IH as [|? ? Hseg Hsegs]; subst.
        constructor; [|exact Hsegs]. rewrite occurs_cons. tauto.
Qed.

Lemma length_append (a b : string) :
  String.length (a ++ b) = (String.length a + String.length b)%nat.
Proof. induction a as [|c a IH]; cbn; [reflexivity | now rewrite IH]. Qed.

Lemma substring_all (s : string) : substring 0 (String.length s) s = s.
Proof. induction s as [|c s IH]; cbn; [reflexivity | now rewrite IH]. Qed.

Lemma substring_suffix (p suffix : string) :
  substring (String.length p) (String.length suffix) (p ++ suffix) = suffix.
Proof.
  induction p as [|c p IH]; cbn [String.length append substring].
  - apply substring_all.
  - exact IH.
Qed.

Lemma ends_with_app (p suffix : string) :
  ends_with suffix (p ++ suffix) = true.
Proof.
  unfold ends_with. rewrite length_append.
  replace (String.length p + String.length suffix - String.length suffix)%nat
    with (String.length p) by lia.
  rewrite substring_suffix, String.eqb_refl, andb_true_r.
  apply Nat.leb_le. lia.
Qed.

Lemma substring_cut (s : string) :
  forall i, (i <= String.length s)%nat ->
            s = substring 0 i s ++ substring i (String.length s - i) s.
Proof.
  induction s as [|c s IH]; intros i Hi.
  - destruct i; reflexivity.
  - destruct i as [|i].
    + cbn [substring append String.length Nat.sub].
      now rewrite substring_all.
    + cbn [String.length] in Hi. cbn [substring append String.length Nat.sub].
      f_equal. apply IH. lia.
Qed.

Lemma ends_with_inv (suffix s : string) :
  ends_with suffix s = true -> exists p, s = p ++ suffix.
Proof.
  unfold ends_with. intros H. apply andb_true_iff in H.
  destruct H as [Hle Heq]. apply Nat.leb_le in Hle.
  apply String.eqb_eq in Heq.
  remember (String.length suffix) as k eqn:Hk.
  exists (substring 0 (String.length s - k) s).
  pose proof (substring_cut s (String.length s - k)%nat) as Hcut.
  replace (String.length s - (String.length s - k))%nat with k in Hcut
    by lia.
  rewrite Heq in Hcut. apply Hcut. lia.
Qed.

(** A link that ends with a slash is not found under a slug. *)
Lemma trailing_slash_miss (q t : string) :
  t <> "" -> ~ occurs "/" t ->
  ends_with (String "/" t) (q ++ "/") = false.
Proof.
  intros Ht Hfree.
  destruct (ends_with (String "/" t) (q ++ "/")) eqn:E; [|reflexivity].
  apply ends_with_inv in E. destruct E as [r Hr].
  assert (H : last (split "/" (q ++ "/")) "" = last (split "/" (r ++ String "/" t)) "")
    by now rewrite Hr.
  rewrite !split_app, (split_free "/" t Hfree) in H.
  cbn [split] in H. rewrite !last_last in H. congruence.
Qed.

(** *** The slug of a link *)

Lemma item_last (parts : list string) (x : string) :
  item (parts ++ [x])%list (Z.of_nat (List.length (parts ++ [x])%list) - 1)
  = Some x.
Proof.
  unfold item. rewrite length_app. cbn [List.length].
  replace (Z.of_nat (List.length parts + 1) - 1)%Z
    with (Z.of_nat (List.length parts)) by lia.
  replace (Z.of_nat (List.length parts) <? 0)%Z with false
    by (symmetry; apply Z.ltb_ge; lia).
  rewrite Nat2Z.id, nth_error_app2 by lia.
  now rewrite Nat.sub_diag.
Qed.

Lemma item_before_last (parts : list string) (x y : string) :
  item (parts ++ [x; y])%list
       (Z.of_nat (List.length (parts ++ [x; y])%list) - 2)
  = Some x.
Proof.
  unfold item. rewrite length_app. cbn [List.length].
  replace (Z.of_nat (List.length parts + 2) - 2)%Z
    with (Z.of_nat (List.length parts)) by lia.
  replace (Z.of_nat (List.length parts) <? 0)%Z with false
    by (symmetry; apply Z.ltb_ge; lia).
  rewrite Nat2Z.id, nth_error_app2 by lia.
  now rewrite Nat.sub_diag.
Qed.

Lemma or_else_nonempty (t d : string) : t <> "" -> or_else (Some t) d = t.
Proof.
  intros H. unfold or_else. apply nonempty_true in H. now rewrite H.
Qed.

(** The slug is the last segment of the link, or the one before a
    trailing slash. *)
Lemma slug_of_last_segment (p t : string) :
  t <> "" -> ~ occurs "/" t ->
  slug_of_href (p ++ String "/" t) = t.
Proof.
  intros Ht Hfree. unfold slug_of_href.
  rewrite split_app, (split_free "/" t Hfree), item_last.
  now apply or_else_nonempty.
Qed.

Lemma slug_before_trailing_slash (p t : string) :
  t <> "" -> ~ occurs "/" t ->
  slug_of_href (p ++ String "/" (t ++ "/")) = t.
Proof.
  intros Ht Hfree. unfold slug_of_href.
  rewrite split_app.
  replace (t ++ "/") with (t ++ String "/" "") by reflexivity.
  rewrite split_app, (split_free "/" t Hfree). cbn [split app].
  replace (split "/" p ++ [t; ""])%list
    with ((split "/" p ++ [t]) ++ [""])%list
    by (now rewrite <- app_assoc).
  rewrite item_last. cbn [or_else nonempty String.eqb negb].
  rewrite <- app_assoc. cbn [app].
  rewrite item_before_last. now rewrite !or_else_nonempty.
Qed.

(** The slug never holds a slash. *)
Lemma slug_free (href : string) : ~ occurs "/" (slug_of_href href).
Proof.
  unfold slug_of_href.
  pose proof (segments_free "/" href) as Hsegs.
  rewrite Forall_forall in Hsegs.
  assert (Hitem : forall i s, item (split "/" href) i = Some s ->
                              ~ occurs "/" s).
  { intros i s H. unfold item in H.
    destruct (i <? 0)%Z; [discriminate|].
    apply Hsegs. eapply nth_error_In. exact H. }
  assert (Hempty : ~ occurs "/" "") by (unfold occurs; cbn; tauto).
  set (n := Z.of_nat _).
  unfold or_else.
  destruct (item _ (n - 1)) as [a|] eqn:Ea;
    [destruct (nonempty a); [now apply (Hitem _ _ Ea)|]|];
    (destruct (item _ (n - 2)) as [b|] eqn:Eb;
     [destruct (nonempty b); [now apply (Hitem _ _ Eb) | exact Hempty]
     | exact Hempty]).
Qed.

(** *** extractProjectDataFromDOM *)

Section Any_engine.

Variable srcset_match : string -> option string.

Local Abbreviation kept e :=
  (nonempty (slug_of e) && nonempty (imageUrl_of srcset_match e)).
Local Abbreviation entry e idx :=
  (Project.mk (slug_of e) (name_of e (slug_of e))
              [imageUrl_of srcset_match e] idx).
Local Abbreviation extract := (extractProjectDataFromDOM srcset_match).

Lemma extract_one_spec (idx : nat) (e : project_element) :
  extract_one srcset_match idx e
  = if kept e then (Some (entry e idx), set_index e idx) else (None, e).
Proof.
  unfold extract_one.
  destruct (nonempty (slug_of e)),
           (nonempty (imageUrl_of srcset_match e)); reflexivity.
Qed.

Lemma extract_from_cons (idx : nat) (e : project_element)
      (rest : list project_element) :
  extract_from srcset_match idx (e :: rest)
  = let tail := extract_from srcset_match (S idx) rest in
    if kept e
    then (entry e idx :: fst tail, set_index e idx :: snd tail)
    else (fst tail, e :: snd tail).
Proof.
  cbn [extract_from]. rewrite extract_one_spec. cbv zeta.
  destruct (extract_from srcset_match (S idx) rest) as [entries rest'].
  destruct (kept e); reflexivity.
Qed.

Lemma extract_from_in (els : list project_element) :
  forall idx p,
    In p (fst (extract_from srcset_match idx els))
    <-> exists i e, nth_error els i = Some e /\ kept e = true
                    /\ p = entry e (idx + i).
Proof.
  induction els as [|e rest IH]; intros idx p.
  - cbn. split; [tauto|]. intros (i & e & H & _). now destruct i.
  - rewrite extract_from_cons. cbv zeta. destruct (kept e) eqn:K; cbn [fst].
    + cbn [In]. rewrite IH. split.
      * intros [<- | (i & e' & Hi & Hk & ->)].
        -- exists 0%nat, e. rewrite Nat.add_0_r. now repeat split.
        -- exists (S i), e'. rewrite Nat.add_succ_r. now repeat split.
      * intros ([|i] & e' & Hi & Hk & ->).
        -- injection Hi as <-. left. now rewrite Nat.add_0_r.
        -- right. exists i, e'. rewrite Nat.add_succ_r. now repeat split.
    + rewrite IH. split.
      * intros (i & e' & Hi & Hk & ->).
        exists (S i), e'. rewrite Nat.add_succ_r. now repeat split.
      * intros ([|i] & e' & Hi & Hk & ->).
        -- injection Hi as <-. congruence.
        -- exists i, e'. rewrite Nat.add_succ_r. now repeat split.
Qed.

Lemma extract_from_length (els : list project_element) :
  forall idx,
    (List.length (fst (extract_from srcset_match idx els))
     <= List.length els)%nat.
Proof.
  induction els as [|e rest IH]; intros idx; [cbn; lia|].
  rewrite extract_from_cons. cbv zeta. specialize (IH (S idx)).
  destruct (kept e); cbn [fst List.length]; lia.
Qed.

Lemma extract_from_increasing (els : list project_element) :
  forall idx a b pa pb,
    (a < b)%nat ->
    nth_error (fst (extract_from srcset_match idx els)) a = Some pa ->
    nth_error (fst (extract_from srcset_match idx els)) b = Some pb ->
    (Project.index pa < Project.index pb)%nat.
Proof.
  induction els as [|e rest IH]; intros idx a b pa pb Hab Ha Hb.
  - now destruct a.
  - rewrite extract_from_cons in Ha, Hb. cbv zeta in Ha, Hb.
    destruct (kept e); cbn [fst] in Ha, Hb;
      [|now apply (IH (S idx) a b)].
    destruct b as [|b]; [lia|]. cbn [nth_error] in Hb.
    destruct a as [|a].
    + injection Ha as <-. cbn [Project.index].
      apply nth_error_In, extract_from_in in Hb.
      destruct Hb as (i & e' & _ & _ & ->). cbn [Project.index]. lia.
    + cbn [nth_error] in Ha. apply (IH (S idx) a b); [lia | easy | easy].
Qed.

Lemma extract_from_written (els : list project_element) :
  forall idx,
    List.length (snd (extract_from srcset_match idx els)) = List.length els
    /\ forall i e,
        nth_error els i = Some e ->
        nth_error (snd (extract_from srcset_match idx els)) i
        = Some (if kept e then set_index e (idx + i) else e).
Proof.
  induction els as [|e rest IH]; intros idx.
  - split; [reflexivity|]. intros i e H. now destruct i.
  - rewrite extract_from_cons. cbv zeta.
    destruct (IH (S idx)) as [Hlen Hnth].
    assert (Hhead : forall i e',
               nth_error (e :: rest) i = Some e' ->
               nth_error ((if kept e then set_index e idx else e)
                          :: snd (extract_from srcset_match (S idx) rest)) i
               = Some (if kept e' then set_index e' (idx + i) else e')).
    { intros [|i] e' Hi.
      - injection Hi as <-. now rewrite Nat.add_0_r.
      - cbn [nth_error] in *. rewrite Nat.add_succ_r. now apply Hnth. }
    destruct (kept e); cbn [snd List.length]; (split; [lia | exact Hhead]).
Qed.

Lemma extract_from_again (els : list project_element) :
  forall idx,
    extract_from srcset_match idx (snd (extract_from srcset_match idx els))
    = extract_from srcset_match idx els.
Proof.
  induction els as [|e rest IH]; intros idx; [reflexivity|].
  rewrite (extract_from_cons idx e rest). cbv zeta.
  destruct (kept e) eqn:K; cbn [snd]; rewrite extract_from_cons; cbv zeta.
  - change (kept (set_index e idx)) with (kept e). rewrite K, IH.
    reflexivity.
  - now rewrite K, IH.
Qed.

Lemma extract_from_nil (els : list project_element) :
  forall idx,
    fst (extract_from srcset_match idx els) = [] ->
    snd (extract_from srcset_match idx els) = els.
Proof.
  induction els as [|e rest IH]; intros idx; [reflexivity|].
  rewrite extract_from_cons. cbv zeta.
  destruct (kept e); cbn [fst snd]; [discriminate|].
  intros H. now rewrite IH.
Qed.

Lemma extract_fst (page : list project_element) :
  fst (extract page) = fst (extract_from srcset_match 0 (firstn 9 page)).
Proof.
  unfold extractProjectDataFromDOM.
  now destruct (extract_from srcset_match 0 (firstn 9 page)).
Qed.

Lemma extract_snd (page : list project_element) :
  snd (extract page)
  = (snd (extract_from srcset_match 0 (firstn 9 page)) ++ skipn 9 page)%list.
Proof.
  unfold extractProjectDataFromDOM.
  now destruct (extract_from srcset_match 0 (firstn 9 page)).
Qed.

Lemma written_prefix (page written : list project_element) :
  List.length written = List.length (firstn 9 page) ->
  firstn 9 (written ++ skipn 9 page)%list = written
  /\ skipn 9 (written ++ skipn 9 page)%list = skipn 9 page.
Proof.
  rewrite length_firstn. intros Hlen.
  destruct (Nat.le_gt_cases (List.length page) 9) as [Hshort | Hlong].
  - rewrite (skipn_all2 page) by exact Hshort. rewrite app_nil_r.
    split; [apply firstn_all2 | apply skipn_all2]; lia.
  - rewrite firstn_app, skipn_app.
    rewrite (@firstn_all2 _ 9 written), (@skipn_all2 _ 9 written) by lia.
    replace (9 - List.length written)%nat with 0%nat by lia.
    cbn [firstn skipn app]. rewrite app_nil_r. now split.
Qed.

Lemma extract_in (page : list project_element) (p : Project.t) :
  In p (fst (extract page))
  <-> exists e,
      (Project.index p < 9)%nat
      /\ nth_error page (Project.index p) = Some e
      /\ slug_of e <> "" /\ imageUrl_of srcset_match e <> ""
      /\ p = entry e (Project.index p).
Proof.
  rewrite extract_fst, extract_from_in. split.
  - intros (i & e & Hi & Hk & ->). cbn [Nat.add Project.index].
    rewrite nth_error_firstn in Hi.
    destruct (Nat.ltb i 9) eqn:E; [|discriminate].
    apply Nat.ltb_lt in E. apply andb_true_iff in Hk.
    destruct Hk as [Hs Hu]. apply nonempty_true in Hs, Hu.
    exists e. now repeat split.
  - intros (e & Hlt & Hi & Hs & Hu & Hp).
    exists (Project.index p), e. cbn [Nat.add].
    rewrite nth_error_firstn.
    replace (Nat.ltb (Project.index p) 9) with true
      by (symmetry; now apply Nat.ltb_lt).
    apply nonempty_true in Hs, Hu. rewrite Hs, Hu. now repeat split.
Qed.

Lemma extract_from_nil_page (page : list project_element) :
  fst (extract page) = [] -> snd (extract page) = page.
Proof.
  rewrite extract_fst, extract_snd. intros H.
  rewrite (extract_from_nil _ _ H). apply firstn_skipn.
Qed.

(** X25. The extraction keeps, of the first nine project elements, those
    with a slug and an image url; each entry carries the place of its
    element among the nine as index, and entries come in that order.  It
    writes [data-carousel-index] on the elements it keeps and touches
    nothing else, and running it again on the page it leaves gives the
    same data and the same page. *)
Theorem extracted_projects (page : list project_element) :
  let data := fst (extract page) in
  let page' := snd (extract page) in
  ((List.length data <= 9)%nat /\ (List.length data <= List.length page)%nat)
  /\ (forall p,
        In p data
        <-> exists e,
            (Project.index p < 9)%nat
            /\ nth_error page (Project.index p) = Some e
            /\ slug_of e <> "" /\ imageUrl_of srcset_match e <> ""
            /\ p = entry e (Project.index p))
  /\ (forall a b pa pb,
        (a < b)%nat ->
        nth_error data a = Some pa -> nth_error data b = Some pb ->
        (Project.index pa < Project.index pb)%nat)
  /\ List.length page' = List.length page
  /\ (forall i e,
        nth_error page i = Some e ->
        nth_error page' i
        = Some (if (i <? 9)%nat && kept e then set_index e i else e))
  /\ extract page' = (data, page').
Proof.
  cbv zeta.
  destruct (extract_from_written (firstn 9 page) 0) as [Hlen Hnth].
  split; [|split; [|split; [|split; [|split]]]].
  - rewrite extract_fst.
    pose proof (extract_from_length (firstn 9 page) 0) as H.
    rewrite length_firstn in H. lia.
  - apply extract_in.
  - rewrite extract_fst. apply extract_from_increasing.
  - rewrite extract_snd, length_app, Hlen.
    rewrite <- length_app. now rewrite firstn_skipn.
  - intros i e Hi. rewrite extract_snd.
    destruct (i <? 9)%nat eqn:E; cbn [andb].
    + apply Nat.ltb_lt in E.
      assert (Hfirst : nth_error (firstn 9 page) i = Some e).
      { rewrite nth_error_firstn.
        replace (Nat.ltb i 9) with true
          by (symmetry; now apply Nat.ltb_lt).
        exact Hi. }
      rewrite nth_error_app1.
      * now rewrite (Hnth i e Hfirst).
      * rewrite Hlen. apply nth_error_Some. congruence.
    + apply Nat.ltb_ge in E.
      assert (Hpage : (i < List.length page)%nat)
        by (apply nth_error_Some; congruence).
      rewrite length_firstn in Hlen.
      rewrite nth_error_app2 by lia. rewrite Hlen.
      replace (Nat.min 9 (List.length page)) with 9%nat by lia.
      rewrite nth_error_skipn. now replace (9 + (i - 9))%nat with i by lia.
  - rewrite extract_fst, extract_snd.
    destruct (written_prefix page _ Hlen) as [Hfirst Hskip].
    unfold extractProjectDataFromDOM at 1.
    rewrite Hfirst, Hskip, extract_from_again.
    now destruct (extract_from srcset_match 0 (firstn 9 page)).
Qed.

(** X26. With a non-empty [srcset] the [src] attribute is never read:
    the url is what the pattern captures, and without a match it is the
    longest prefix of the [srcset] that holds neither a comma nor a
    space. *)
Theorem imageUrl_from_srcset (e : project_element) (i : img) (s : string) :
  imgEl e = Some i -> srcset i = Some s -> s <> "" ->
  match srcset_match s with
  | Some captured => imageUrl_of srcset_match e = captured
  | None =>
      let u := imageUrl_of srcset_match e in
      ~ occurs " " u /\ ~ occurs "," u
      /\ (s = u \/ exists t, s = u ++ String " " t \/ s = u ++ String "," t)
  end.
Proof.
  intros Hi Hs Hne. unfold imageUrl_of. rewrite Hi, Hs.
  apply nonempty_true in Hne. rewrite Hne.
  destruct (srcset_match s) as [captured|]; [reflexivity|]. cbv zeta.
  pose proof (hd_split "," s) as H1.
  pose proof (hd_split " " (hd "" (split "," s))) as H2.
  cbv zeta in H1, H2. revert H1 H2.
  generalize (hd "" (split "," s)). intros h [Hcomma Hs1].
  generalize (hd "" (split " " h)). intros u [Hspace Hs2].
  assert (Hin : occurs "," u -> occurs "," h).
  { intros H. destruct Hs2 as [Hu | [t Hu]]; rewrite Hu; [exact H|].
    apply occurs_app. now left. }
  split; [exact Hspace|]. split; [tauto|].
  destruct Hs2 as [Hu | [t Hu]].
  - destruct Hs1 as [Hh | [t' Hh]]; rewrite Hh, Hu; [now left | right].
    exists t'. now right.
  - right. destruct Hs1 as [Hh | [t' Hh]]; rewrite Hh, Hu.
    + exists t. now left.
    + exists (t ++ String "," t'). left.
      clear. induction u as [|c u IH]; cbn [append]; [reflexivity|].
      now rewrite IH.
Qed.

(** *** getApiData *)

Lemma slot_in_range (i : nat) :
  (i < 9)%nat -> exists s, nth_error oldImages i = Some s.
Proof.
  intros Hi. destruct (nth_error oldImages i) as [s|] eqn:E;
    [now exists s|].
  apply nth_error_None in E.
  change (List.length oldImages) with 9%nat in E. lia.
Qed.

Lemma place_from_fits (projectData : list Project.t) :
  forall i,
    (i + List.length projectData <= 9)%nat ->
    exists images,
      place_from i projectData = Returns images
      /\ List.length images = List.length projectData
      /\ forall j p,
          nth_error projectData j = Some p ->
          exists s,
            nth_error oldImages (i + j) = Some s
            /\ nth_error images j
               = Some (Image.mk (slot_position s) (slot_rotation s)
                         (or_else (nth_error (Project.images p) 0)
                                  placeholder)
                         (Project.name p) (Project.slug p)).
Proof.
  induction projectData as [|project rest IH]; intros i Hfit.
  - exists []. repeat split. intros j p H. now destruct j.
  - cbn [List.length] in Hfit. cbn [place_from].
    destruct (slot_in_range i) as [s Hs]; [lia|]. rewrite Hs.
    destruct (IH (S i)) as (placed & -> & Hlen & Hnth); [lia|].
    eexists. split; [reflexivity|]. split; [cbn; now rewrite Hlen|].
    intros [|j] p Hj.
    + injection Hj as <-. exists s. rewrite Nat.add_0_r. now split.
    + cbn [nth_error] in Hj. destruct (Hnth j p Hj) as (s' & Hs' & Hj').
      exists s'. rewrite Nat.add_succ_r. now split.
Qed.

Lemma extracted_url (page : list project_element) (i : nat)
      (p : Project.t) :
  nth_error (fst (extract page)) i = Some p ->
  exists u, Project.images p = [u] /\ u <> ""
            /\ or_else (nth_error (Project.images p) 0) placeholder = u.
Proof.
  intros Hi. apply nth_error_In, extract_in in Hi.
  destruct Hi as (e & _ & _ & _ & Hu & ->).
  exists (imageUrl_of srcset_match e). cbn [Project.images nth_error].
  split; [reflexivity|]. split; [exact Hu|]. now apply or_else_nonempty.
Qed.

Lemma extract_fits (page : list project_element) :
  (List.length (fst (extract page)) <= 9)%nat.
Proof.
  rewrite extract_fst.
  pose proof (extract_from_length (firstn 9 page) 0) as H.
  rewrite length_firstn in H. lia.
Qed.

(** The images of a first call, by place. *)
Lemma getApiData_fresh (page : list project_element) :
  exists images,
    getApiData srcset_match None page
    = mkCall (Returns images)
             (match images with [] => None | _ :: _ => Some images end)
             (snd (extract page)) (map Image.url images)
    /\ List.length images = List.length (fst (extract page))
    /\ forall i p,
        nth_error (fst (extract page)) i = Some p ->
        exists s u,
          nth_error oldImages i = Some s
          /\ Project.images p = [u] /\ u <> ""
          /\ nth_error images i
             = Some (Image.mk (slot_position s) (slot_rotation s) u
                       (Project.name p) (Project.slug p)).
Proof.
  pose proof (extract_fits page) as Hfit.
  pose proof (extracted_url page) as Hurl.
  unfold getApiData.
  destruct (extract page) as [data page'] eqn:E. cbn [fst snd] in *.
  destruct (place_from_fits data 0) as (images & Hplace & Hlen & Hnth);
    [lia|].
  assert (Hat : forall i p,
             nth_error data i = Some p ->
             exists s u,
               nth_error oldImages i = Some s
               /\ Project.images p = [u] /\ u <> ""
               /\ nth_error images i
                  = Some (Image.mk (slot_position s) (slot_rotation s) u
                            (Project.name p) (Project.slug p))).
  { intros i p Hi. destruct (Hnth i p Hi) as (s & Hs & Himg).
    destruct (Hurl i p Hi) as (u & Hu & Hne & Hor).
    exists s, u. rewrite Hor in Himg. now repeat split. }
  exists images. split; [|split; [exact Hlen | exact Hat]].
  destruct data as [|project rest].
  - destruct images; [reflexivity | discriminate].
  - rewrite Hplace.
    destruct images as [|image placed]; [discriminate|].
    f_equal. apply forallb_filter_id, forallb_forall.
    intros u Hin. apply in_map_iff in Hin.
    destruct Hin as (x & <- & Hin). apply In_nth_error in Hin.
    destruct Hin as [i Hi].
    assert (Hsome : nth_error (project :: rest) i <> None).
    { apply nth_error_Some. rewrite <- Hlen. apply nth_error_Some.
      congruence. }
    destruct (nth_error (project :: rest) i) as [p|] eqn:Ep;
      [|contradiction].
    destruct (Hat i p Ep) as (s & u & _ & _ & Hne & Himg).
    rewrite Hi in Himg. injection Himg as ->. cbn [Image.url].
    now apply nonempty_true.
Qed.

(** X27. A first call never rejects: there are at most nine projects
    and nine places, so no place is read that does not exist.  The
    [i]-th extracted project stands at the [i]-th place with its own
    url - the placeholder is never used - and every url is preloaded. *)
Theorem getApiData_places_projects (page : list project_element) :
  let c := getApiData srcset_match None page in
  let data := fst (extract page) in
  exists images,
    settled c = Returns images
    /\ List.length images = List.length data
    /\ (List.length images <= 9)%nat
    /\ (forall i p,
          nth_error data i = Some p ->
          exists s u,
            nth_error oldImages i = Some s
            /\ Project.images p = [u] /\ u <> ""
            /\ nth_error images i
               = Some (Image.mk (slot_position s) (slot_rotation s) u
                         (Project.name p) (Project.slug p)))
    /\ preloaded c = map Image.url images
    /\ page_after c = snd (extract page).
Proof.
  cbv zeta. destruct (getApiData_fresh page) as (images & -> & Hlen & Hat).
  exists images. cbn [settled preloaded page_after].
  split; [reflexivity|]. split; [exact Hlen|].
  split; [rewrite Hlen; apply extract_fits|].
  split; [exact Hat|]. now split.
Qed.

Lemma calls_cached (images : list Image.t)
      (pages : list (list project_element)) :
  calls srcset_match (Some images) pages
  = (repeat (Returns images) (List.length pages), Some images).
Proof.
  induction pages as [|page later IH]; [reflexivity|].
  cbn [calls getApiData imageCache settled]. now rewrite IH.
Qed.

(** X28. Once a call has returned projects, every later call returns
    the same list whatever the page has become.  A call that finds no
    project caches nothing and leaves the page as it is, so the next
    call reads the page again. *)
Theorem getApiData_cache (page : list project_element)
        (later : list (list project_element)) :
  match settled (getApiData srcset_match None page) with
  | Returns [] =>
      page_after (getApiData srcset_match None page) = page
      /\ calls srcset_match None (page :: later)
         = (Returns [] :: fst (calls srcset_match None later),
            snd (calls srcset_match None later))
  | Returns images =>
      calls srcset_match None (page :: later)
      = (repeat (Returns images) (S (List.length later)), Some images)
  | Throws => False
  end.
Proof.
  destruct (getApiData_fresh page) as (images & Hcall & Hlen & _).
  cbn [calls]. rewrite Hcall. cbn [settled imageCache page_after].
  destruct images as [|image placed].
  - split.
    + apply extract_from_nil_page. now apply length_zero_iff_nil.
    + now destruct (calls srcset_match None later).
  - now rewrite calls_cached.
Qed.
(** *** From a frame back to its project element *)

Variable exotic : string -> element -> outcome bool.

Lemma has_link_plain (slug : string) (e : element) :
  plain slug = true ->
  has_link exotic slug e
  = Returns (existsb (ends_with (String "/" slug)) (links e)).
Proof. intros H. unfold has_link. now rewrite H. Qed.

Lemma find_from_plain (slug : string) (d : document) (ids : list nat) :
  plain slug = true ->
  forall i, find_from exotic i ids slug d <> Throws.
Proof.
  intros Hplain. induction ids as [|id rest IH]; intros i;
    cbn [find_from]; [discriminate|].
  rewrite (has_link_plain slug _ Hplain).
  destruct (existsb _ _); [discriminate | apply IH].
Qed.

Lemma cached_project (page : list project_element) (d : document)
      (ids : list nat) (k : nat) (e : project_element) :
  map (node d) ids = map el page ->
  nth_error page k = Some e ->
  exists id, nth_error ids k = Some id /\ node d id = el e.
Proof.
  intros Hsame Hk.
  assert (H : nth_error (map (node d) ids) k = Some (el e))
    by (rewrite Hsame, nth_error_map, Hk; reflexivity).
  rewrite nth_error_map in H.
  destruct (nth_error ids k) as [id|]; [|discriminate].
  injection H as H. now exists id.
Qed.

Lemma project_cached (page : list project_element) (d : document)
      (ids : list nat) (k id : nat) :
  map (node d) ids = map el page ->
  nth_error ids k = Some id ->
  exists e, nth_error page k = Some e /\ node d id = el e.
Proof.
  intros Hsame Hk.
  assert (H : nth_error (map el page) k = Some (node d id))
    by (rewrite <- Hsame, nth_error_map, Hk; reflexivity).
  rewrite nth_error_map in H.
  destruct (nth_error page k) as [e|]; [|discriminate].
  injection H as H. now exists e.
Qed.

Lemma existsb_false {A : Type} (f : A -> bool) (l : list A) :
  (forall x, In x l -> f x = false) -> existsb f l = false.
Proof.
  intros H. destruct (existsb f l) eqn:E; [|reflexivity].
  apply existsb_exists in E. destruct E as (x & Hin & Hx).
  rewrite (H x Hin) in Hx. discriminate.
Qed.

(** X29. A frame finds its project element again.  When the first link
    of the [k]-th project element is a path, a slash and a last segment
    [t], the project extracted from it has slug [t], and
    [setActiveBySlug t] on the cache of the same elements returns an
    index, never -1: the index of the first element with a link that
    ends in ["/" + t], which is [k] unless an earlier element has such
    a link too. *)
Theorem frame_finds_its_project (page : list project_element)
        (d : document) (ids : list nat) (k : nat) (e : project_element)
        (path t : string) :
  map (node d) ids = map el page ->
  (k < 9)%nat -> nth_error page k = Some e ->
  hd_error (links (el e)) = Some (path ++ String "/" t) ->
  t <> "" -> ~ occurs "/" t -> plain t = true ->
  imageUrl_of srcset_match e <> "" ->
  In (Project.mk t (name_of e t) [imageUrl_of srcset_match e] k)
     (fst (extract page))
  /\ exists j,
      fst (setActiveBySlug exotic (Some ids) t d) = Returns (Z.of_nat j)
      /\ (j <= k)%nat
      /\ ((forall i e',
              (i < k)%nat -> nth_error page i = Some e' ->
              existsb (ends_with (String "/" t)) (links (el e')) = false)
          -> j = k).
Proof.
  intros Hsame Hk He Hhref Ht Hfree Hplain Hurl.
  assert (Hslug : slug_of e = t).
  { unfold slug_of. destruct (links (el e)) as [|href rest];
      [discriminate|].
    injection Hhref as ->.
    replace (nonempty (path ++ String "/" t)) with true.
    - now apply slug_of_last_segment.
    - symmetry. apply nonempty_true. now destruct path. }
  split.
  - apply extract_in. exists e. cbn [Project.index].
    rewrite Hslug. now repeat split.
  - destruct (cached_project page d ids k e Hsame He) as (id & Hid & Hnode).
    assert (Hmatch : has_link exotic t (node d id) = Returns true).
    { rewrite (has_link_plain t _ Hplain), Hnode. f_equal.
      destruct (links (el e)) as [|href rest]; [discriminate|].
      injection Hhref as ->. cbn [existsb].
      now rewrite ends_with_app. }
    unfold setActiveBySlug. cbn [findElementBySlug].
    destruct (find_from exotic 0 ids t d) as [[[id' j]|]|] eqn:E.
    + destruct (find_from_found exotic t d ids 0 id' j E)
        as (j' & -> & Hj & Hlink & Hfirst).
      cbn [Nat.add fst]. exists j'. split; [reflexivity|].
      assert (Hle : (j' <= k)%nat).
      { destruct (Nat.le_gt_cases j' k) as [H | H]; [exact H|].
        specialize (Hfirst k id H Hid). congruence. }
      split; [exact Hle|].
      intros Hearlier.
      destruct (Nat.eq_dec j' k) as [H | H]; [exact H|].
      destruct (project_cached page d ids j' id' Hsame Hj)
        as (e' & He' & Hnode').
      rewrite (has_link_plain t _ Hplain), Hnode' in Hlink.
      rewrite (Hearlier j' e') in Hlink; [discriminate | lia | exact He'].
    + apply find_from_none in E. rewrite Forall_forall in E.
      specialize (E id (nth_error_In _ _ Hid)). congruence.
    + now apply find_from_plain in E.
Qed.

(** X30. On a page whose links all end with a slash no frame finds its
    project element: for every extracted project whose slug is plain, no
    link ends in ["/" + slug], so [setActiveBySlug] returns -1 and marks
    nothing. *)
Theorem trailing_slash_is_never_found (page : list project_element)
        (d : document) (ids : list nat) (project : Project.t) :
  map (node d) ids = map el page ->
  (forall e link,
      In e page -> In link (links (el e)) -> exists q, link = q ++ "/") ->
  In project (fst (extract page)) ->
  plain (Project.slug project) = true ->
  setActiveBySlug exotic (Some ids) (Project.slug project) d
  = (Returns (-1)%Z, d).
Proof.
  intros Hsame Hslash Hin Hplain.
  apply extract_in in Hin.
  destruct Hin as (e & _ & _ & Hslug & _ & Hp).
  assert (Hs : Project.slug project = slug_of e) by now rewrite Hp.
  rewrite Hs in *. clear Hs Hp.
  assert (Hfree : ~ occurs "/" (slug_of e)).
  { revert Hslug. unfold slug_of.
    destruct (links (el e)) as [|href rest]; [congruence|].
    destruct (nonempty href); [|congruence].
    intros _. apply slug_free. }
  assert (Hnone : find_from exotic 0 ids (slug_of e) d = Returns None).
  { apply find_from_none, Forall_forall. intros id Hid.
    rewrite (has_link_plain _ _ Hplain). f_equal.
    apply In_nth_error in Hid. destruct Hid as [i Hi].
    destruct (project_cached page d ids i id Hsame Hi) as (e' & He' & ->).
    apply existsb_false. intros link Hlink.
    destruct (Hslash e' link (nth_error_In _ _ He') Hlink) as [q ->].
    now apply trailing_slash_miss. }
  unfold setActiveBySlug. cbn [findElementBySlug]. now rewrite Hnone.
Qed.

End Any_engine.

Lemma frame_finds_its_project_witness :
  let e := mkProjectElement
             (mkElement ["project-links-item"] ["/work/alpha"])
             (Some "Alpha") (Some (mkImg None (Some "alpha.jpg"))) None in
  exists j,
    fst (setActiveBySlug (fun _ _ => Throws) (Some [0%nat]) "alpha" [el e])
    = Returns (Z.of_nat j)
    /\ (j <= 0)%nat.
Proof.
  cbv zeta.
  destruct (frame_finds_its_project (fun _ => None) (fun _ _ => Throws)
              [mkProjectElement
                 (mkElement ["project-links-item"] ["/work/alpha"])
                 (Some "Alpha") (Some (mkImg None (Some "alpha.jpg"))) None]
              [mkElement ["project-links-item"] ["/work/alpha"]]
              [0%nat] 0
              (mkProjectElement
                 (mkElement ["project-links-item"] ["/work/alpha"])
                 (Some "Alpha") (Some (mkImg None (Some "alpha.jpg"))) None)
              "/work" "alpha")
    as (_ & j & Hj & Hle & _).
  - reflexivity.
  - lia.
  - reflexivity.
  - reflexivity.
  - discriminate.
  - unfold occurs. cbn. intuition discriminate.
  - reflexivity.
  - discriminate.
  - exists j. now split.
Defined.

Lemma trailing_slash_is_never_found_witness :
  let e := mkProjectElement
             (mkElement ["project-links-item"] ["/work/alpha/"])
             (Some "Alpha") (Some (mkImg None (Some "alpha.jpg"))) None in
  setActiveBySlug (fun _ _ => Throws) (Some [0%nat]) "alpha" [el e]
  = (Returns (-1)%Z, [el e]).
Proof.
  cbv zeta.
  apply (trailing_slash_is_never_found (fun _ => None) (fun _ _ => Throws)
           [mkProjectElement
              (mkElement ["project-links-item"] ["/work/alpha/"])
              (Some "Alpha") (Some (mkImg None (Some "alpha.jpg"))) None]
           [mkElement ["project-links-item"] ["/work/alpha/"]]
           [0%nat]
           (Project.mk "alpha" "Alpha" ["alpha.jpg"] 0)).
  - reflexivity.
  - intros e link [<- | []] [<- | []]. now exists "/work/alpha".
  - left. reflexivity.
  - reflexivity.
Defined.

Lemma imageUrl_from_srcset_witness :
  let u :=
    imageUrl_of (fun _ => None)
      (mkProjectElement (mkElement [] ["/work/alpha"]) None
         (Some (mkImg (Some "a.jpg 500w, b.jpg 1080w") (Some "c.jpg")))
         None) in
  ~ occurs " " u /\ ~ occurs "," u
  /\ ("a.jpg 500w, b.jpg 1080w" = u
      \/ exists t, "a.jpg 500w, b.jpg 1080w" = u ++ String " " t
                   \/ "a.jpg 500w, b.jpg 1080w" = u ++ String "," t).
Proof.
  apply (imageUrl_from_srcset (fun _ => None)
           (mkProjectElement (mkElement [] ["/work/alpha"]) None
              (Some (mkImg (Some "a.jpg 500w, b.jpg 1080w")
                           (Some "c.jpg"))) None)
           (mkImg (Some "a.jpg 500w, b.jpg 1080w") (Some "c.jpg"))
           "a.jpg 500w, b.jpg 1080w");
    [reflexivity | reflexivity | discriminate].
Defined.

End ImagesFacts.
